(** * rstruct: dynamic record access over a model of Go's reflection

    A shallow embedding of package [rstruct] of jkaveri/ramda
    ([rstruct/struct.go] and the file holding [Clone] and
    [deepCopyValue]).  The package is written entirely against Go's
    [reflect] package, so the first half of this file is a model of the
    part of [reflect] the package calls: types, values, the flag bits of
    a [reflect.Value] (addressable, read-only), the store that pointers,
    slices and maps point into, and the panics of the [reflect] methods.
    The package follows, function by function, then the notions the
    specification is stated with, and the properties. *)

From Stdlib Require Import ZArith Ascii String List Bool Lia.
From stdpp Require Import base option list strings gmap.

#[local] Set Warnings "-register-all".

Local Open Scope string_scope.
Local Open Scope list_scope.

(** ** Types *)

(** The name and the embedded mark of a struct field
    ([reflect.StructField.Name] and [.Anonymous]). *)
Record fieldinfo : Type := mkField { Name : string; Anonymous : bool }.

(** Go types.  The universe has the predeclared [bool], [int] and
    [string], the type literals [*T], [[]T], [[n]T], [map[K]V], the empty
    interface [any], and declared struct types [type name struct {...}].
    Declared non-struct types, interfaces with methods, channels,
    functions, floats and recursive type declarations are outside it. *)
Inductive type : Type :=
| TBool
| TInt
| TString
| TPtr (elem : type)
| TSlice (elem : type)
| TArray (len : nat) (elem : type)
| TMap (key elem : type)
| TInterface
| TStruct (name : string) (fields : list (fieldinfo * type)).

(** [reflect.Kind]. *)
Inductive kind : Type :=
| KInvalid | KBool | KInt | KString | KPtr | KSlice | KArray | KMap | KInterface | KStruct.

Abbreviation loc := nat.

(** The header of a non-nil slice: its backing array, length and capacity.
    A slice starts at the first element of its backing array. *)
Record sliceHeader : Type := mkSlice { sdata : loc; slen : nat; scap : nat }.

(** Go values.  Every value carries its static type: an interface-typed
    slot holds [VInterface], whose payload is the dynamic value ([None] is
    the nil interface); a struct carries the declaration of each field
    next to the field's value. *)
Inductive value : Type :=
| VBool (b : bool)
| VInt (i : Z)
| VString (s : string)
| VPtr (elem : type) (p : option loc)
| VSlice (elem : type) (s : option sliceHeader)
| VArray (elem : type) (xs : list value)
| VMap (key elem : type) (m : option loc)
| VInterface (dyn : option value)
| VStruct (name : string) (fs : list (fieldinfo * value)).

(** What a store location holds: a variable (the target of a pointer), the
    backing array of a slice, or the entries of a map. *)
Inductive cell : Type :=
| CVar (v : value)
| CArray (xs : list value)
| CMap (kvs : list (value * value)).

Abbreviation store := (list cell).

(** A Go value of type [any]: [None] is nil, [Some d] holds the dynamic
    value [d]. *)
Abbreviation any := (option value).

Global Instance fieldinfo_eq_dec : EqDecision fieldinfo.
Proof. solve_decision. Defined.

Global Instance kind_eq_dec : EqDecision kind.
Proof. solve_decision. Defined.

Global Instance sliceHeader_eq_dec : EqDecision sliceHeader.
Proof. solve_decision. Defined.

Fixpoint type_eqb (a b : type) {struct a} : bool :=
  match a, b with
  | TBool, TBool | TInt, TInt | TString, TString | TInterface, TInterface => true
  | TPtr x, TPtr y | TSlice x, TSlice y => type_eqb x y
  | TArray n x, TArray m y => Nat.eqb n m && type_eqb x y
  | TMap k x, TMap l y => type_eqb k l && type_eqb x y
  | TStruct n fs, TStruct m gs =>
      String.eqb n m &&
      (fix go (fs gs : list (fieldinfo * type)) {struct fs} : bool :=
         match fs, gs with
         | [], [] => true
         | (f, t) :: fs', (g, u) :: gs' =>
             bool_decide (f = g) && type_eqb t u && go fs' gs'
         | _, _ => false
         end) fs gs
  | _, _ => false
  end.

Fixpoint typeOf (v : value) : type :=
  match v with
  | VBool _ => TBool
  | VInt _ => TInt
  | VString _ => TString
  | VPtr t _ => TPtr t
  | VSlice t _ => TSlice t
  | VArray t xs => TArray (length xs) t
  | VMap k t _ => TMap k t
  | VInterface _ => TInterface
  | VStruct n fs => TStruct n (map (fun fv => (fv.1, typeOf fv.2)) fs)
  end.

Definition kindOfType (t : type) : kind :=
  match t with
  | TBool => KBool | TInt => KInt | TString => KString
  | TPtr _ => KPtr | TSlice _ => KSlice | TArray _ _ => KArray
  | TMap _ _ => KMap | TInterface => KInterface | TStruct _ _ => KStruct
  end.

Definition kindOf (v : value) : kind :=
  match v with
  | VBool _ => KBool | VInt _ => KInt | VString _ => KString
  | VPtr _ _ => KPtr | VSlice _ _ => KSlice | VArray _ _ => KArray
  | VMap _ _ _ => KMap | VInterface _ => KInterface | VStruct _ _ => KStruct
  end.

(** The zero value of a type ([reflect.Zero], [var zero T],
    [reflect.New(t).Elem()]). *)
Fixpoint zero (t : type) : value :=
  match t with
  | TBool => VBool false
  | TInt => VInt 0%Z
  | TString => VString ""
  | TPtr e => VPtr e None
  | TSlice e => VSlice e None
  | TArray n e => VArray e (replicate n (zero e))
  | TMap k e => VMap k e None
  | TInterface => VInterface None
  | TStruct n fs => VStruct n (map (fun ft => (ft.1, zero ft.2)) fs)
  end.

(** [reflect.Value.IsZero], by kind. *)
Fixpoint IsZero (v : value) : bool :=
  match v with
  | VBool b => negb b
  | VInt i => Z.eqb i 0
  | VString s => String.eqb s ""
  | VPtr _ p => bool_decide (p = None)
  | VSlice _ s => bool_decide (s = None)
  | VArray _ xs => forallb IsZero xs
  | VMap _ _ m => bool_decide (m = None)
  | VInterface d => match d with None => true | Some _ => false end
  | VStruct _ fs => forallb (fun fv => IsZero fv.2) fs
  end.

(** [T.AssignableTo(U)]: in this universe two types with identical
    underlying types are identical, so a value is assignable to its own
    type and to the empty interface. *)
Definition AssignableTo (t u : type) : bool :=
  type_eqb t u || type_eqb u TInterface.

(** A field name is exported when it starts with an upper-case letter
    (identifiers are ASCII here). *)
Definition IsExported (name : string) : bool :=
  match name with
  | EmptyString => false
  | String c _ => (65 <=? nat_of_ascii c)%nat && (nat_of_ascii c <=? 90)%nat
  end.

(** ** Outcomes *)

(** Why a call panicked. *)
Inductive panic : Type :=
| PanicZeroValue        (* call of a reflect.Value method on the zero Value *)
| PanicUnexported       (* a value obtained using an unexported field *)
| PanicUnaddressable    (* reflect.Value.Set using an unaddressable value *)
| PanicKind             (* call of a struct method on a non-struct Value *)
| PanicNotAssignable    (* value of one type is not assignable to another *)
| PanicTypeAssert.      (* a failed type assertion x.(T) *)

(** The outcome of a call: it returns, it panics, or the recursion budget
    of [deepCopyValue] ran out before it returned. *)
Inductive outcome (A : Type) : Type :=
| Ok (a : A)
| Panic (p : panic)
| Exhausted.

Arguments Ok {A} a.
Arguments Panic {A} p.
Arguments Exhausted {A}.

Definition bind {A B : Type} (m : outcome A) (k : A -> outcome B) : outcome B :=
  match m with
  | Ok a => k a
  | Panic p => Panic p
  | Exhausted => Exhausted
  end.

Notation "'do' x <- m ; k" := (bind m (fun x => k))
  (at level 10, x name, m at level 100, k at level 200).

(** The errors [Set] builds with [fmt.Errorf]: one constructor per format
    string, with the arguments of the format. *)
Inductive error : Type :=
| ErrNonStruct (k : kind)
| ErrEmptyPath
| ErrAssign (valueType : type) (field : string) (fieldType : type)
| ErrNotSettable (field : string)
| ErrNotStruct (field : string)
| ErrNotFound (field : string).

(** ** reflect.Value *)

(** The flag bits of a [reflect.Value] that the package depends on. *)
Record flag : Type := mkFlag {
  flagAddr : bool;      (* the value is addressable *)
  flagStickyRO : bool;  (* obtained via an unexported, not embedded field *)
  flagEmbedRO : bool    (* obtained via an unexported embedded field *)
}.

Definition flagRO (f : flag) : bool := flagStickyRO f || flagEmbedRO f.

(** A valid [reflect.Value]; the zero Value is [None] of [option Value]. *)
Record Value : Type := mkValue { vflag : flag; vdata : value }.

(** The conversion of an argument of a type parameter [T] to [any]: an
    interface value passes its dynamic value on, any other value is boxed. *)
Definition iface (obj : value) : any :=
  match obj with
  | VInterface d => d
  | _ => Some obj
  end.

Definition ValueOf (a : any) : option Value :=
  match a with
  | None => None
  | Some d => Some (mkValue (mkFlag false false false) d)
  end.

Definition Kind (v : option Value) : kind :=
  match v with
  | None => KInvalid
  | Some x => kindOf (vdata x)
  end.

(** [v.Elem()] on a pointer or an interface (on any other kind [reflect]
    panics; the package calls it on these two only).  The pointee of a
    pointer is addressable and keeps both read-only bits; the content of
    an interface is not addressable and a read-only bit becomes sticky. *)
Definition Elem (st : store) (v : Value) : option Value :=
  match vdata v with
  | VPtr _ (Some l) =>
      match st !! l with
      | Some (CVar w) =>
          Some (mkValue (mkFlag true (flagStickyRO (vflag v)) (flagEmbedRO (vflag v))) w)
      | _ => None
      end
  | VInterface (Some d) => Some (mkValue (mkFlag false (flagRO (vflag v)) false) d)
  | _ => None
  end.

(** The flag of [v.Field(i)]: it inherits addressability and the sticky
    read-only bit, and using an unexported field forces a read-only bit. *)
Definition fieldFlag (parent : flag) (f : fieldinfo) : flag :=
  mkFlag (flagAddr parent)
         (flagStickyRO parent || (negb (IsExported (Name f)) && negb (Anonymous f)))
         (negb (IsExported (Name f)) && Anonymous f).

Definition Field (parent : flag) (fv : fieldinfo * value) : Value :=
  mkValue (fieldFlag parent fv.1) fv.2.

Definition CanSet (v : Value) : bool := flagAddr (vflag v) && negb (flagRO (vflag v)).

Definition CanInterface (v : Value) : bool := negb (flagRO (vflag v)).

(** [v.Interface()]: panics on a value reached through an unexported
    field; an interface-kinded value yields its content. *)
Definition Interface (v : Value) : outcome any :=
  if flagRO (vflag v) then Panic PanicUnexported
  else Ok (iface (vdata v)).

(** [v.Set(x)]: [v] must be assignable (not read-only, addressable), [x]
    must not be read-only, and the type of [x] must be assignable to the
    type of [v]; the result is the new content of the variable behind [v]. *)
Definition SetValue (v x : Value) : outcome value :=
  if flagRO (vflag v) then Panic PanicUnexported
  else if negb (flagAddr (vflag v)) then Panic PanicUnaddressable
  else if flagRO (vflag x) then Panic PanicUnexported
  else if type_eqb (typeOf (vdata x)) (typeOf (vdata v)) then Ok (vdata x)
  else if type_eqb (typeOf (vdata v)) TInterface then Ok (VInterface (Some (vdata x)))
  else Panic PanicNotAssignable.

(** The type assertion [x.(T)] on the content of an [any]. *)
Definition assertType (t : type) (x : value) : outcome value :=
  if type_eqb t TInterface then Ok (VInterface (Some x))
  else if type_eqb (typeOf x) t then Ok x
  else Panic PanicTypeAssert.

(** [strings.Split(s, sep)] for a one-character separator. *)
Fixpoint Split (s : string) (sep : ascii) : list string :=
  match s with
  | EmptyString => [EmptyString]
  | String c s' =>
      if Ascii.eqb c sep then EmptyString :: Split s' sep
      else match Split s' sep with
           | [] => [String c EmptyString]
           | p :: ps => String c p :: ps
           end
  end.

Definition dot : ascii := "."%char.

(** The loops of the package scan the fields in declaration order and
    leave at the first field whose name is the one sought: its index and
    the field. *)
Fixpoint findField (name : string) (fs : list (fieldinfo * value)) : option (nat * (fieldinfo * value)) :=
  match fs with
  | [] => None
  | fv :: fs' =>
      if String.eqb (Name fv.1) name then Some (O, fv)
      else match findField name fs' with
           | Some (i, r) => Some (S i, r)
           | None => None
           end
  end.

(** ** rstruct/struct.go *)

(** The first lines of every exported function: [reflect.ValueOf(obj)],
    followed through one pointer. *)
Definition indirect (st : store) (val : option Value) : option Value :=
  if bool_decide (Kind val = KPtr) then val ≫= Elem st else val.

Fixpoint getNestedFieldRecursive (val : Value) (parts : list string) : outcome (any * bool) :=
  match parts with
  | [] => Ok (None, false)
  | currentField :: rest =>
      match vdata val with
      | VStruct _ fs =>
          match findField currentField fs with
          | Some (_, fv) =>
              let field := Field (vflag val) fv in
              match rest with
              | [] => do x <- Interface field; Ok (x, true)
              | _ :: _ =>
                  if bool_decide (kindOf (vdata field) = KStruct)
                  then getNestedFieldRecursive field rest
                  else Ok (None, false)
              end
          | None => Ok (None, false)
          end
      | _ => Panic PanicKind
      end
  end.

Definition Get (st : store) (obj : value) (fieldName : string) : outcome (any * bool) :=
  let val := indirect st (ValueOf (iface obj)) in
  match val with
  | Some v =>
      if bool_decide (Kind (Some v) = KStruct)
      then getNestedFieldRecursive v (Split fieldName dot)
      else Ok (None, false)
  | None => Ok (None, false)
  end.

Definition GetOrDefault (st : store) (obj : value) (fieldName : string) (defaultValue : any) : outcome any :=
  do r <- Get st obj fieldName;
  if negb r.2 then Ok defaultValue else Ok r.1.

(** [setNestedFieldRecursive] writes through [val]; the model returns the
    new content of the variable [val] stands for, next to the error. *)
Fixpoint setNestedFieldRecursive (val : Value) (parts : list string) (value_ : any)
  : outcome (value * option error) :=
  match parts with
  | [] => Ok (vdata val, Some ErrEmptyPath)
  | currentField :: rest =>
      match vdata val with
      | VStruct n fs =>
          match findField currentField fs with
          | Some (i, fv) =>
              let field := Field (vflag val) fv in
              match rest with
              | [] =>
                  match ValueOf value_ with
                  | None => Panic PanicZeroValue
                  | Some valueVal =>
                      if AssignableTo (typeOf (vdata valueVal)) (typeOf (vdata field))
                      then do x <- SetValue field valueVal;
                           Ok (VStruct n (<[i := (fv.1, x)]> fs), None)
                      else Ok (vdata val,
                               Some (ErrAssign (typeOf (vdata valueVal)) currentField
                                               (typeOf (vdata field))))
                  end
              | _ :: _ =>
                  if bool_decide (kindOf (vdata field) = KStruct)
                  then if CanSet field
                       then do r <- setNestedFieldRecursive field rest value_;
                            Ok (VStruct n (<[i := (fv.1, r.1)]> fs), r.2)
                       else Ok (vdata val, Some (ErrNotSettable currentField))
                  else Ok (vdata val, Some (ErrNotStruct currentField))
              end
          | None => Ok (vdata val, Some (ErrNotFound currentField))
          end
      | _ => Panic PanicKind
      end
  end.

(** [Set] returns the store after the call and the error ([None] is the
    nil error).  Only a pointer gives access to a variable of the store;
    a struct passed by value is a copy that is dropped at return. *)
Definition Set_ (st : store) (obj : value) (fieldName : string) (value_ : any)
  : outcome (store * option error) :=
  let val := ValueOf (iface obj) in
  let isPtr := bool_decide (Kind val = KPtr) in
  let val' := if isPtr then val ≫= Elem st else val in
  match val' with
  | Some v =>
      if bool_decide (Kind (Some v) = KStruct)
      then do r <- setNestedFieldRecursive v (Split fieldName dot) value_;
           match iface obj with
           | Some (VPtr _ (Some l)) => Ok (<[l := CVar r.1]> st, r.2)
           | _ => Ok (st, r.2)
           end
      else Ok (st, Some (ErrNonStruct (Kind (Some v))))
  | None => Ok (st, Some (ErrNonStruct KInvalid))
  end.

Fixpoint hasNestedFieldRecursive (val : Value) (parts : list string) : outcome bool :=
  match parts with
  | [] => Ok false
  | currentField :: rest =>
      match vdata val with
      | VStruct _ fs =>
          match findField currentField fs with
          | Some (_, fv) =>
              let field := Field (vflag val) fv in
              match rest with
              | [] => Ok true
              | _ :: _ =>
                  if bool_decide (kindOf (vdata field) = KStruct)
                  then hasNestedFieldRecursive field rest
                  else Ok false
              end
          | None => Ok false
          end
      | _ => Panic PanicKind
      end
  end.

Definition Has (st : store) (obj : value) (fieldName : string) : outcome bool :=
  let val := indirect st (ValueOf (iface obj)) in
  match val with
  | Some v =>
      if bool_decide (Kind (Some v) = KStruct)
      then hasNestedFieldRecursive v (Split fieldName dot)
      else Ok false
  | None => Ok false
  end.

Definition Fields (st : store) (obj : value) : list string :=
  match indirect st (ValueOf (iface obj)) with
  | Some (mkValue _ (VStruct _ fs)) => map (fun fv => Name fv.1) fs
  | _ => []
  end.

(** The loop of [ToMap]: the result map is threaded through the fields. *)
Fixpoint toMapLoop (parent : flag) (fs : list (fieldinfo * value)) (result : gmap string any)
  : outcome (gmap string any) :=
  match fs with
  | [] => Ok result
  | fv :: fs' =>
      let field := Field parent fv in
      if negb (IsZero (vdata field)) && CanInterface field
      then do x <- Interface field;
           toMapLoop parent fs' (<[Name fv.1 := x]> result)
      else toMapLoop parent fs' result
  end.

Definition ToMap (st : store) (obj : value) : outcome (gmap string any) :=
  match indirect st (ValueOf (iface obj)) with
  | Some (mkValue fl (VStruct _ fs)) => toMapLoop fl fs ∅
  | _ => Ok ∅
  end.

(** A loop that visits field [i] of a fresh struct for every [i] and may
    store into it: [step] yields the new content of the field. *)
Fixpoint forFields (step : fieldinfo * value -> outcome value) (fs : list (fieldinfo * value))
  : outcome (list (fieldinfo * value)) :=
  match fs with
  | [] => Ok []
  | fv :: fs' =>
      do x <- step fv;
      do rest <- forFields step fs';
      Ok ((fv.1, x) :: rest)
  end.

(** The flag of [reflect.ValueOf(&obj).Elem()] and of
    [reflect.New(t).Elem()]: addressable, not read-only. *)
Definition flagNew : flag := mkFlag true false false.

(** [FromMap[T](data)]; [t] is the type argument [T]. *)
Definition FromMap (t : type) (data : gmap string any) : outcome (value * bool) :=
  match zero t with
  | VStruct n fs =>
      do fs' <- forFields (fun fv =>
                  let field := Field flagNew fv in
                  match data !! Name fv.1 with
                  | Some value =>
                      match ValueOf value with
                      | None => Panic PanicZeroValue
                      | Some valueVal =>
                          if AssignableTo (typeOf (vdata valueVal)) (typeOf (vdata field))
                          then SetValue field valueVal
                          else Ok (vdata field)
                      end
                  | None => Ok (vdata field)
                  end) fs;
      Ok (VStruct n fs', true)
  | _ => Ok (zero t, false)
  end.

(** [fieldSet := make(map[string]bool); for _, field := range fields
    { fieldSet[field] = true }], and the lookup [fieldSet[name]]. *)
Definition makeFieldSet (fields : list string) : gmap string bool :=
  foldl (fun m field => <[field := true]> m) ∅ fields.

Definition inFieldSet (fieldSet : gmap string bool) (name : string) : bool :=
  default false (fieldSet !! name).

(** The common body of [Pick] and [Omit]: [keep] decides from the field
    name whether the field is copied into the new struct. *)
Definition subset (keep : string -> bool) (st : store) (obj : value) : outcome value :=
  match indirect st (ValueOf (iface obj)) with
  | Some (mkValue fl (VStruct n fs)) =>
      do fs' <- forFields (fun fv =>
                  let target := Field flagNew (fv.1, zero (typeOf fv.2)) in
                  if keep (Name fv.1)
                  then SetValue target (Field fl fv)
                  else Ok (vdata target)) fs;
      do x <- Interface (mkValue flagNew (VStruct n fs'));
      match x with
      | Some d => assertType (typeOf obj) d
      | None => Panic PanicTypeAssert
      end
  | _ => Ok (zero (typeOf obj))
  end.

Definition Pick (st : store) (obj : value) (fields : list string) : outcome value :=
  let fieldSet := makeFieldSet fields in
  subset (fun name => inFieldSet fieldSet name) st obj.

Definition Omit (st : store) (obj : value) (fields : list string) : outcome value :=
  let fieldSet := makeFieldSet fields in
  subset (fun name => negb (inFieldSet fieldSet name)) st obj.

(** [resultVal.FieldByName(name).Set(field)] on the variable [result]:
    [FieldByName] panics on a non-struct and yields the zero Value for an
    unknown name.  (Its search through embedded structs for a name that is
    not declared directly is not modelled.) *)
Definition setFieldByName (result : value) (name : string) (field : Value) : outcome value :=
  match result with
  | VStruct n fs =>
      match findField name fs with
      | Some (i, fv) =>
          do x <- SetValue (Field flagNew fv) field;
          Ok (VStruct n (<[i := (fv.1, x)]> fs))
      | None => Panic PanicZeroValue
      end
  | _ => Panic PanicKind
  end.

(** The inner loop of [Merge]: the non-zero fields of one struct are
    written into [result]. *)
Fixpoint mergeFields (parent : flag) (fs : list (fieldinfo * value)) (result : value) : outcome value :=
  match fs with
  | [] => Ok result
  | fv :: fs' =>
      let field := Field parent fv in
      if negb (IsZero (vdata field))
      then do result' <- setFieldByName result (Name fv.1) field;
           mergeFields parent fs' result'
      else mergeFields parent fs' result
  end.

(** The outer loop of [Merge], over [structs[1:]]. *)
Fixpoint mergeLoop (st : store) (structs : list value) (result : value) : outcome value :=
  match structs with
  | [] => Ok result
  | s :: rest =>
      match indirect st (ValueOf (iface s)) with
      | Some (mkValue fl (VStruct _ fs)) =>
          do result' <- mergeFields fl fs result;
          mergeLoop st rest result'
      | _ => mergeLoop st rest result
      end
  end.

(** [Merge[T](structs...)]; [t] is the type argument [T]. *)
Definition Merge (st : store) (t : type) (structs : list value) : outcome value :=
  match structs with
  | [] => Ok (zero t)
  | [s] => Ok s
  | s :: rest => mergeLoop st rest s
  end.

(** ** The file of Clone and deepCopyValue *)

(** Go's [==] on the values a map key can hold, used by [MapIndex] and
    [SetMapIndex]: pointers compare by address, everything else by
    content, and two interface values also by dynamic type. *)
Fixpoint value_eqb (a b : value) {struct a} : bool :=
  match a, b with
  | VBool x, VBool y => Bool.eqb x y
  | VInt x, VInt y => Z.eqb x y
  | VString x, VString y => String.eqb x y
  | VPtr t p, VPtr u q => type_eqb t u && bool_decide (p = q)
  | VSlice t p, VSlice u q => type_eqb t u && bool_decide (p = q)
  | VMap k t p, VMap l u q => type_eqb k l && type_eqb t u && bool_decide (p = q)
  | VArray t xs, VArray u ys =>
      type_eqb t u &&
      (fix go (xs ys : list value) {struct xs} : bool :=
         match xs, ys with
         | [], [] => true
         | x :: xs', y :: ys' => value_eqb x y && go xs' ys'
         | _, _ => false
         end) xs ys
  | VInterface None, VInterface None => true
  | VInterface (Some x), VInterface (Some y) => value_eqb x y
  | VStruct n fs, VStruct m gs =>
      String.eqb n m &&
      (fix go (fs gs : list (fieldinfo * value)) {struct fs} : bool :=
         match fs, gs with
         | [], [] => true
         | (f, x) :: fs', (g, y) :: gs' =>
             bool_decide (f = g) && value_eqb x y && go fs' gs'
         | _, _ => false
         end) fs gs
  | _, _ => false
  end.

(** [m[key]] on the entries of a map. *)
Fixpoint mapIndex (kvs : list (value * value)) (key : value) : option value :=
  match kvs with
  | [] => None
  | kv :: kvs' => if value_eqb kv.1 key then Some kv.2 else mapIndex kvs' key
  end.

(** [m[key] = elem] on the entries of a map. *)
Fixpoint mapAssign (kvs : list (value * value)) (key elem : value) : list (value * value) :=
  match kvs with
  | [] => [(key, elem)]
  | kv :: kvs' =>
      if value_eqb kv.1 key then (kv.1, elem) :: kvs'
      else kv :: mapAssign kvs' key elem
  end.

(** The flag of [v.Index(i)] on a slice, of [v.MapKeys()] and of
    [v.MapIndex(key)]: a read-only bit of the container becomes sticky. *)
Definition flagIndex (addressable : bool) (parent : flag) : flag :=
  mkFlag addressable (flagRO parent) false.

(** A value that [deepCopyValue] returns is never read-only. *)
Definition flagCopy : flag := mkFlag false false false.

Section deepCopy.

(** The recursive call of [deepCopyValue], with the store threaded
    through: it yields the copy and the store with the cells the copy
    allocated. *)
Variable rec : store -> Value -> outcome (value * store).

(** [for i := 0; i < val.NumField(); i++
      { newStruct.Field(i).Set(deepCopyValue(val.Field(i))) }] *)
Fixpoint copyFields (st : store) (parent : flag) (fs : list (fieldinfo * value))
  : outcome (list (fieldinfo * value) * store) :=
  match fs with
  | [] => Ok ([], st)
  | fv :: fs' =>
      do r <- rec st (Field parent fv);
      do x <- SetValue (Field flagNew (fv.1, zero (typeOf fv.2))) (mkValue flagCopy r.1);
      do rest <- copyFields r.2 parent fs';
      Ok ((fv.1, x) :: rest.1, rest.2)
  end.

(** [for i := 0; i < val.Len(); i++
      { newArray.Index(i).Set(deepCopyValue(val.Index(i))) }] *)
Fixpoint copyArray (st : store) (parent : flag) (xs : list value)
  : outcome (list value * store) :=
  match xs with
  | [] => Ok ([], st)
  | x :: xs' =>
      do r <- rec st (mkValue (flagIndex (flagAddr parent) parent) x);
      do y <- SetValue (mkValue flagNew (zero (typeOf x))) (mkValue flagCopy r.1);
      do rest <- copyArray r.2 parent xs';
      Ok (y :: rest.1, rest.2)
  end.

(** [for i := 0; i < val.Len(); i++
      { newSlice.Index(i).Set(deepCopyValue(val.Index(i))) }]: element
    [i] of the source is read from its backing array [src], its copy is
    stored in the new backing array [dst]. *)
Fixpoint copySlice (st : store) (parent : flag) (elem : type) (src dst : loc) (indices : list nat)
  : outcome store :=
  match indices with
  | [] => Ok st
  | i :: indices' =>
      match st !! src, st !! dst with
      | Some (CArray xs), Some (CArray _) =>
          match xs !! i with
          | Some x =>
              do r <- rec st (mkValue (flagIndex true parent) x);
              do y <- SetValue (mkValue flagNew (zero elem)) (mkValue flagCopy r.1);
              match r.2 !! dst with
              | Some (CArray ys) =>
                  copySlice (<[dst := CArray (<[i := y]> ys)]> r.2) parent elem src dst indices'
              | _ => Panic PanicZeroValue
              end
          | None => Panic PanicZeroValue
          end
      | _, _ => Panic PanicZeroValue
      end
  end.

(** [for _, key := range val.MapKeys()
      { newMap.SetMapIndex(deepCopyValue(key), deepCopyValue(val.MapIndex(key))) }] *)
Fixpoint copyMap (st : store) (parent : flag) (src dst : loc) (keys : list value)
  : outcome store :=
  match keys with
  | [] => Ok st
  | key :: keys' =>
      do k <- rec st (mkValue (flagIndex false parent) key);
      match k.2 !! src with
      | Some (CMap kvs) =>
          match mapIndex kvs key with
          | Some e =>
              do v <- rec k.2 (mkValue (flagIndex false parent) e);
              match v.2 !! dst with
              | Some (CMap new) =>
                  copyMap (<[dst := CMap (mapAssign new k.1 v.1)]> v.2) parent src dst keys'
              | _ => Panic PanicZeroValue
              end
          | None => Panic PanicZeroValue
          end
      | _ => Panic PanicZeroValue
      end
  end.

(** The body of [deepCopyValue].  The guard [!val.IsValid()] is met by
    no call: a nil pointer and a nil interface are returned before
    [Elem], and fields, elements and map entries are valid; the model
    panics where a store that lacks the cell would hand over the zero
    Value. *)
Definition deepCopyBody (st : store) (val : Value) : outcome (value * store) :=
  match vdata val with
  | VPtr t None => Ok (zero (TPtr t), st)
  | VPtr t (Some _) =>
      match Elem st val with
      | Some e =>
          do r <- rec st e;
          do x <- SetValue (mkValue flagNew (zero (typeOf r.1))) (mkValue flagCopy r.1);
          Ok (VPtr (typeOf r.1) (Some (length r.2)), r.2 ++ [CVar x])
      | None => Panic PanicZeroValue
      end
  | VStruct n fs =>
      do r <- copyFields st (vflag val) fs;
      Ok (VStruct n r.1, r.2)
  | VSlice t None => Ok (zero (TSlice t), st)
  | VSlice t (Some h) =>
      let dst := length st in
      let st0 := st ++ [CArray (replicate (scap h) (zero t))] in
      do st' <- copySlice st0 (vflag val) t (sdata h) dst (seq 0 (slen h));
      Ok (VSlice t (Some (mkSlice dst (slen h) (scap h))), st')
  | VMap k t None => Ok (zero (TMap k t), st)
  | VMap k t (Some m) =>
      match st !! m with
      | Some (CMap kvs) =>
          let dst := length st in
          let st0 := st ++ [CMap []] in
          do st' <- copyMap st0 (vflag val) m dst (map fst kvs);
          Ok (VMap k t (Some dst), st')
      | _ => Panic PanicZeroValue
      end
  | VArray t xs =>
      do r <- copyArray st (vflag val) xs;
      Ok (VArray t r.1, r.2)
  | VInterface None => Ok (zero TInterface, st)
  | VInterface (Some _) =>
      match Elem st val with
      | Some e =>
          do r <- rec st e;
          do x <- SetValue (mkValue flagNew (zero TInterface)) (mkValue flagCopy r.1);
          Ok (x, r.2)
      | None => Panic PanicZeroValue
      end
  | VBool _ | VInt _ | VString _ =>
      do x <- SetValue (mkValue flagNew (zero (typeOf (vdata val)))) val;
      Ok (x, st)
  end.

End deepCopy.

(** [deepCopyValue] recurses through the store, where a cycle makes the
    Go function recurse without end: [fuel] bounds the depth of the
    recursion, and [Exhausted] is the outcome of a call that needs more. *)
Fixpoint deepCopyValue (fuel : nat) (st : store) (val : Value) : outcome (value * store) :=
  match fuel with
  | O => Exhausted
  | S fuel' => deepCopyBody (deepCopyValue fuel') st val
  end.

Definition Clone (fuel : nat) (st : store) (obj : value) : outcome (value * store) :=
  let val := ValueOf (iface obj) in
  let isPtr := bool_decide (Kind val = KPtr) in
  let val' := if isPtr then val ≫= Elem st else val in
  match val' with
  | Some v =>
      if bool_decide (Kind (Some v) = KStruct)
      then do r <- deepCopyValue fuel st v;
           if isPtr
           then do x <- SetValue (mkValue flagNew (zero (typeOf r.1))) (mkValue flagCopy r.1);
                do p <- Interface (mkValue flagCopy (VPtr (typeOf r.1) (Some (length r.2))));
                match p with
                | Some d => do res <- assertType (typeOf obj) d; Ok (res, r.2 ++ [CVar x])
                | None => Panic PanicTypeAssert
                end
           else do p <- Interface (mkValue flagCopy r.1);
                match p with
                | Some d => do res <- assertType (typeOf obj) d; Ok (res, r.2)
                | None => Panic PanicTypeAssert
                end
      else Ok (zero (typeOf obj), st)
  | None => Ok (zero (typeOf obj), st)
  end.

(** ** Well-formed values *)

(** What Go's type system keeps true of every value: the elements of an
    array have the element type of the array, and the dynamic value of an
    interface is not itself an interface. *)
Fixpoint wellFormed (v : value) : bool :=
  match v with
  | VArray t xs => forallb (fun x => type_eqb (typeOf x) t && wellFormed x) xs
  | VInterface (Some d) => negb (bool_decide (kindOf d = KInterface)) && wellFormed d
  | VStruct _ fs => forallb (fun fv => wellFormed fv.2) fs
  | _ => true
  end.


(** ** Notions of the specification *)

(** The field a path leads [Set] to (section 4.4 of the specification):
    every segment names a field of the record reached so far, and every
    field before the last is a record and settable.  The result is the
    terminal field as a [reflect.Value]: its flag and its current value. *)
Fixpoint terminalField (val : Value) (parts : list string) : option Value :=
  match parts with
  | [] => None
  | name :: rest =>
      match vdata val with
      | VStruct _ fs =>
          match findField name fs with
          | Some (_, fv) =>
              let field := Field (vflag val) fv in
              match rest with
              | [] => Some field
              | _ :: _ =>
                  if bool_decide (kindOf (vdata field) = KStruct) && CanSet field
                  then terminalField field rest
                  else None
              end
          | None => None
          end
      | _ => None
      end
  end.


(** Whether the loop of [ToMap] enters a field into the map. *)
Definition entered (fl : flag) (fv : fieldinfo * value) : bool :=
  negb (IsZero fv.2) && CanInterface (Field fl fv).



(** What [Pick] and [Omit] make of a field. *)
Definition subsetField (keep : string -> bool) (fv : fieldinfo * value) : fieldinfo * value :=
  (fv.1, if keep (Name fv.1) then fv.2 else zero (typeOf fv.2)).





(** ** Notions of the specification of Clone *)

(** [f] holds of the elements of two lists of one length, position by
    position. *)
Fixpoint all2 {A B : Type} (f : A -> B -> bool) (xs : list A) (ys : list B) : bool :=
  match xs, ys with
  | [], [] => true
  | x :: xs', y :: ys' => f x y && all2 f xs' ys'
  | _, _ => false
  end.

(** A value that holds no reference: no pointer, slice or map that is
    not nil, at any depth. *)
Fixpoint plain (v : value) : bool :=
  match v with
  | VBool _ | VInt _ | VString _ => true
  | VPtr _ p => bool_decide (p = None)
  | VSlice _ s => bool_decide (s = None)
  | VMap _ _ m => bool_decide (m = None)
  | VArray _ xs => forallb plain xs
  | VInterface None => true
  | VInterface (Some d) => plain d
  | VStruct _ fs => forallb (fun fv => plain fv.2) fs
  end.

(** The keys of a map are pairwise different under [==]. *)
Fixpoint distinct (keys : list value) : bool :=
  match keys with
  | [] => true
  | k :: ks => forallb (fun k' => negb (value_eqb k k')) ks && distinct ks
  end.

(** [clonable n st v]: the value graph of [v] in [st] is well typed, of
    depth below [n] (hence finite and free of cycles), every field of
    every record in it is exported, and the keys of its maps are plain. *)
Fixpoint clonable (n : nat) (st : store) (v : value) : bool :=
  match n with
  | O => false
  | S n' =>
      match v with
      | VBool _ | VInt _ | VString _ => true
      | VPtr _ None | VSlice _ None | VMap _ _ None | VInterface None => true
      | VPtr t (Some l) =>
          match st !! l with
          | Some (CVar w) => type_eqb (typeOf w) t && clonable n' st w
          | _ => false
          end
      | VSlice t (Some h) =>
          match st !! sdata h with
          | Some (CArray xs) =>
              (slen h <=? scap h)%nat && (slen h <=? length xs)%nat &&
              forallb (fun x => type_eqb (typeOf x) t && clonable n' st x) (take (slen h) xs)
          | _ => false
          end
      | VArray t xs => forallb (fun x => type_eqb (typeOf x) t && clonable n' st x) xs
      | VMap _ _ (Some m) =>
          match st !! m with
          | Some (CMap kvs) =>
              distinct (map fst kvs) &&
              forallb (fun kv => plain kv.1 && clonable n' st kv.1 && clonable n' st kv.2) kvs
          | _ => false
          end
      | VInterface (Some d) =>
          negb (bool_decide (kindOf d = KInterface)) && clonable n' st d
      | VStruct _ fs =>
          forallb (fun fv => IsExported (Name fv.1) && clonable n' st fv.2) fs
      end
  end.

(** [reflect.DeepEqual] on a value read in [s1] and a value read in
    [s2], to depth [n]: equal types, equal content, and deeply equal
    targets behind references, the elements of slices and the entries of
    maps, which are looked up by key. *)
Fixpoint DeepEqual (n : nat) (s1 s2 : store) (v1 v2 : value) : bool :=
  match n with
  | O => false
  | S n' =>
      match v1, v2 with
      | VBool a, VBool b => Bool.eqb a b
      | VInt a, VInt b => Z.eqb a b
      | VString a, VString b => String.eqb a b
      | VPtr t None, VPtr u None => type_eqb t u
      | VPtr t (Some l1), VPtr u (Some l2) =>
          type_eqb t u &&
          match s1 !! l1, s2 !! l2 with
          | Some (CVar w1), Some (CVar w2) => DeepEqual n' s1 s2 w1 w2
          | _, _ => false
          end
      | VSlice t None, VSlice u None => type_eqb t u
      | VSlice t (Some h1), VSlice u (Some h2) =>
          type_eqb t u && (slen h1 =? slen h2)%nat &&
          match s1 !! sdata h1, s2 !! sdata h2 with
          | Some (CArray xs), Some (CArray ys) =>
              all2 (DeepEqual n' s1 s2) (take (slen h1) xs) (take (slen h2) ys)
          | _, _ => false
          end
      | VArray t xs, VArray u ys => type_eqb t u && all2 (DeepEqual n' s1 s2) xs ys
      | VMap k t None, VMap l u None => type_eqb k l && type_eqb t u
      | VMap k t (Some m1), VMap l u (Some m2) =>
          type_eqb k l && type_eqb t u &&
          match s1 !! m1, s2 !! m2 with
          | Some (CMap kvs1), Some (CMap kvs2) =>
              (length kvs1 =? length kvs2)%nat &&
              forallb (fun kv => match mapIndex kvs2 kv.1 with
                                 | Some e => DeepEqual n' s1 s2 kv.2 e
                                 | None => false
                                 end) kvs1
          | _, _ => false
          end
      | VInterface None, VInterface None => true
      | VInterface (Some a), VInterface (Some b) => DeepEqual n' s1 s2 a b
      | VStruct n1 fs, VStruct n2 gs =>
          String.eqb n1 n2 &&
          all2 (fun f g => bool_decide (f.1 = g.1) && DeepEqual n' s1 s2 f.2 g.2) fs gs
      | _, _ => false
      end
  end.

(** [reach st v l]: the storage at [l] backs [v] in [st]: it is the
    target of a pointer, the backing array of a slice or the table of a
    map that [v] holds, directly or behind other references. *)
Inductive reach (st : store) : value -> loc -> Prop :=
| reach_ptr t l : reach st (VPtr t (Some l)) l
| reach_ptr_elem t l w l' :
    st !! l = Some (CVar w) -> reach st w l' -> reach st (VPtr t (Some l)) l'
| reach_slice t h : reach st (VSlice t (Some h)) (sdata h)
| reach_slice_elem t h xs i x l' :
    st !! sdata h = Some (CArray xs) -> (i < slen h)%nat -> xs !! i = Some x ->
    reach st x l' -> reach st (VSlice t (Some h)) l'
| reach_array t xs x l' : x ∈ xs -> reach st x l' -> reach st (VArray t xs) l'
| reach_map k t m : reach st (VMap k t (Some m)) m
| reach_map_key k t m kvs kv l' :
    st !! m = Some (CMap kvs) -> kv ∈ kvs -> reach st kv.1 l' ->
    reach st (VMap k t (Some m)) l'
| reach_map_elem k t m kvs kv l' :
    st !! m = Some (CMap kvs) -> kv ∈ kvs -> reach st kv.2 l' ->
    reach st (VMap k t (Some m)) l'
| reach_interface d l' : reach st d l' -> reach st (VInterface (Some d)) l'
| reach_field n fs fv l' : fv ∈ fs -> reach st fv.2 l' -> reach st (VStruct n fs) l'.

(** All the storage that backs [v] lies at the locations from [a] up to
    [b], [b] excluded. *)
Definition confined (a b : nat) (st : store) (v : value) : Prop :=
  forall l, reach st v l -> (a <= l < b)%nat.

(** Two stores hold the same cells at the locations from [a] up to [b]. *)
Definition agree (a b : nat) (st st' : store) : Prop :=
  forall l : nat, (a <= l < b)%nat -> st' !! l = st !! l.

(** [v] is backed in [st'] by the cells that back it in [st]. *)
Definition stable (st st' : store) (v : value) : Prop :=
  forall l, reach st v l -> st' !! l = st !! l.

(** What a call of [deepCopyValue] owes on a clonable value: it returns a
    value of the same type and a store that extends the one it was given;
    the copy is deeply equal to the source and backed by new storage
    only; a plain value is returned as it is. *)
Definition copySpec (n : nat) (rec : store -> Value -> outcome (value * store)) : Prop :=
  forall st fl v,
    flagRO fl = false -> clonable n st v = true ->
    exists r ext,
      rec st (mkValue fl v) = Ok (r, st ++ ext) /\
      typeOf r = typeOf v /\
      DeepEqual n st (st ++ ext) v r = true /\
      confined (length st) (length (st ++ ext)) (st ++ ext) r /\
      (plain v = true -> r = v /\ ext = []).

(** ** The records of the tests and of the examples *)

(** A field declared with a name, and an embedded field. *)
Definition named (name : string) : fieldinfo := mkField name false.

Definition embedded (name : string) : fieldinfo := mkField name true.

(** [type Address struct { Street, City, Country string }] *)
Definition Address (street city country : string) : value :=
  VStruct "Address"
    [(named "Street", VString street); (named "City", VString city);
     (named "Country", VString country)].

(** [type User struct { Name string; Age int; Email string; Address Address }] *)
Definition User (name : string) (age : Z) (email : string) : value :=
  VStruct "User"
    [(named "Name", VString name); (named "Age", VInt age);
     (named "Email", VString email); (named "Address", Address "" "" "")].

(** [type Person struct { User; Address Address; Active bool }] *)
Definition Person (user address : value) (active : bool) : value :=
  VStruct "Person"
    [(embedded "User", user); (named "Address", address);
     (named "Active", VBool active)].

(** [&v] for a variable [v] held at location [l]. *)
Definition addressOf (v : value) (l : loc) : value := VPtr (typeOf v) (Some l).

(** [type account struct { owner string; Balance int }]: a record with a
    field that is not exported. *)
Definition account (owner : string) (balance : Z) : value :=
  VStruct "account" [(named "owner", VString owner); (named "Balance", VInt balance)].

(** [type Profile struct { Owner *User; Level int }]: a record that holds
    a reference to a record. *)
Definition Profile (owner : option loc) (level : Z) : value :=
  VStruct "Profile"
    [(named "Owner", VPtr (typeOf (User "" 0 "")) owner); (named "Level", VInt level)].

(** [type Registry struct { Index map[*int]string }] and the like: a
    record with a map whose keys are references. *)
Definition Registry (index : option loc) : value :=
  VStruct "Registry" [(named "Index", VMap (TPtr TInt) TString index)].



(** [type BasicStruct struct { Name string; Age int; City string }] of the
    tests of [Clone]. *)
Definition BasicStruct (name : string) (age : Z) (city : string) : value :=
  VStruct "BasicStruct"
    [(named "Name", VString name); (named "Age", VInt age); (named "City", VString city)].

(** [type PointerStruct struct { Name string; Age int; Address *BasicStruct;
    Tags []string; Metadata map[string]interface{} }] of the tests of
    [Clone]. *)
Definition PointerStruct (name : string) (age : Z) (address : option loc)
    (tags : option sliceHeader) (metadata : option loc) : value :=
  VStruct "PointerStruct"
    [(named "Name", VString name); (named "Age", VInt age);
     (named "Address", VPtr (typeOf (BasicStruct "" 0 "")) address);
     (named "Tags", VSlice TString tags);
     (named "Metadata", VMap TString TInterface metadata)].



(** * Properties *)

(** ** Induction over types and values *)

Section type_induction.
Variable P : type -> Prop.
Hypothesis HBool : P TBool.
Hypothesis HInt : P TInt.
Hypothesis HString : P TString.
Hypothesis HPtr : forall e, P e -> P (TPtr e).
Hypothesis HSlice : forall e, P e -> P (TSlice e).
Hypothesis HArray : forall n e, P e -> P (TArray n e).
Hypothesis HMap : forall k e, P k -> P e -> P (TMap k e).
Hypothesis HInterface : P TInterface.
Hypothesis HStruct : forall n fs, Forall (fun ft => P ft.2) fs -> P (TStruct n fs).

Fixpoint type_induction (t : type) : P t :=
  match t with
  | TBool => HBool
  | TInt => HInt
  | TString => HString
  | TPtr e => HPtr e (type_induction e)
  | TSlice e => HSlice e (type_induction e)
  | TArray n e => HArray n e (type_induction e)
  | TMap k e => HMap k e (type_induction k) (type_induction e)
  | TInterface => HInterface
  | TStruct n fs =>
      HStruct n fs
        ((fix go (fs : list (fieldinfo * type)) : Forall (fun ft => P ft.2) fs :=
            match fs with
            | [] => List.Forall_nil _
            | ft :: fs' => List.Forall_cons _ ft fs' (type_induction ft.2) (go fs')
            end) fs)
  end.
End type_induction.

Section value_induction.
Variable P : value -> Prop.
Hypothesis HBool : forall b, P (VBool b).
Hypothesis HInt : forall i, P (VInt i).
Hypothesis HString : forall s, P (VString s).
Hypothesis HPtr : forall t p, P (VPtr t p).
Hypothesis HSlice : forall t s, P (VSlice t s).
Hypothesis HArray : forall t xs, Forall P xs -> P (VArray t xs).
Hypothesis HMap : forall k t m, P (VMap k t m).
Hypothesis HNil : P (VInterface None).
Hypothesis HInterface : forall d, P d -> P (VInterface (Some d)).
Hypothesis HStruct : forall n fs, Forall (fun fv => P fv.2) fs -> P (VStruct n fs).

Fixpoint value_induction (v : value) : P v :=
  match v with
  | VBool b => HBool b
  | VInt i => HInt i
  | VString s => HString s
  | VPtr t p => HPtr t p
  | VSlice t s => HSlice t s
  | VArray t xs =>
      HArray t xs
        ((fix go (xs : list value) : Forall P xs :=
            match xs with
            | [] => List.Forall_nil _
            | x :: xs' => List.Forall_cons _ x xs' (value_induction x) (go xs')
            end) xs)
  | VMap k t m => HMap k t m
  | VInterface None => HNil
  | VInterface (Some d) => HInterface d (value_induction d)
  | VStruct n fs =>
      HStruct n fs
        ((fix go (fs : list (fieldinfo * value)) : Forall (fun fv => P fv.2) fs :=
            match fs with
            | [] => List.Forall_nil _
            | fv :: fs' => List.Forall_cons _ fv fs' (value_induction fv.2) (go fs')
            end) fs)
  end.
End value_induction.

Lemma type_eqb_refl (t : type) : type_eqb t t = true.
Proof.
  induction t using type_induction; simpl; auto.
  - rewrite Nat.eqb_refl. auto.
  - rewrite IHt1, IHt2. auto.
  - rewrite String.eqb_refl. simpl.
    induction H as [|[f u] fs Hu Hfs IH]; auto.
    simpl in Hu. rewrite bool_decide_eq_true_2 by reflexivity. rewrite Hu, IH. auto.
Qed.

Lemma type_eqb_eq (t u : type) : type_eqb t u = true <-> t = u.
Proof.
  split; [|intros ->; apply type_eqb_refl].
  revert u. induction t using type_induction; intros u; destruct u; simpl;
    try discriminate; auto.
  - intros H. f_equal. auto.
  - intros H. f_equal. auto.
  - intros H. apply andb_true_iff in H as [H1 H2].
    apply Nat.eqb_eq in H1. f_equal; auto.
  - intros H. apply andb_true_iff in H as [H1 H2]. f_equal; auto.
  - intros H0. apply andb_true_iff in H0 as [H1 H2].
    apply String.eqb_eq in H1. subst. f_equal.
    revert fields H2. induction H as [|[f t] fs Ht Hfs IH]; intros [|[g u] gs] H2;
      try discriminate; auto.
    apply andb_true_iff in H2 as [H2 H3]. apply andb_true_iff in H2 as [H2 H4].
    apply bool_decide_eq_true in H2. subst.
    simpl in Ht. f_equal; [f_equal; auto|auto].
Qed.

Lemma AssignableTo_spec (t u : type) :
  AssignableTo t u = true <-> t = u \/ u = TInterface.
Proof.
  unfold AssignableTo. rewrite orb_true_iff, !type_eqb_eq. reflexivity.
Qed.

Lemma kindOf_typeOf (v : value) : kindOfType (typeOf v) = kindOf v.
Proof. destruct v; reflexivity. Qed.

Lemma typeOf_zero (t : type) : typeOf (zero t) = t.
Proof.
  induction t using type_induction; simpl; auto.
  - rewrite length_replicate. reflexivity.
  - f_equal. rewrite map_map. simpl.
    induction H as [|[f u] fs Hu Hfs IH]; simpl; auto.
    simpl in Hu. rewrite Hu, IH. reflexivity.
Qed.

Lemma IsZero_zero (t : type) : IsZero (zero t) = true.
Proof.
  induction t using type_induction; simpl; auto.
  - induction n; simpl; auto. rewrite IHt. auto.
  - induction H as [|[f u] fs Hu Hfs IH]; simpl; auto.
    simpl in Hu. rewrite Hu. auto.
Qed.

(** On well-formed values [IsZero] holds of the zero value of the type
    and of nothing else. *)
Lemma IsZero_spec (v : value) :
  wellFormed v = true -> IsZero v = true <-> v = zero (typeOf v).
Proof.
  intros Hwf. split; [|intros ->; apply IsZero_zero].
  revert Hwf. induction v using value_induction; simpl; intros Hwf Hz.
  - destruct b; [discriminate|reflexivity].
  - apply Z.eqb_eq in Hz. subst. reflexivity.
  - apply String.eqb_eq in Hz. subst. reflexivity.
  - apply bool_decide_eq_true in Hz. subst. reflexivity.
  - apply bool_decide_eq_true in Hz. subst. reflexivity.
  - f_equal. induction H as [|x xs Hx Hxs IH]; simpl in *; auto.
    apply andb_true_iff in Hz as [Hz1 Hz2].
    apply andb_true_iff in Hwf as [Hw1 Hw2].
    apply andb_true_iff in Hw1 as [Hw0 Hw1].
    apply type_eqb_eq in Hw0.
    f_equal; [rewrite <- Hw0; apply Hx; auto|apply IH; auto].
  - apply bool_decide_eq_true in Hz. subst. reflexivity.
  - reflexivity.
  - discriminate.
  - f_equal. rewrite map_map. simpl.
    induction H as [|[f x] fs Hx Hfs IH]; simpl in *; auto.
    apply andb_true_iff in Hz as [Hz1 Hz2].
    apply andb_true_iff in Hwf as [Hw1 Hw2].
    f_equal; [f_equal; apply Hx; auto|apply IH; auto].
Qed.

(** ** Lists and flags *)

Ltac splits := repeat match goal with |- _ /\ _ => split end.

Lemma forallb_elem_of {A : Type} (f : A -> bool) (xs : list A) :
  forallb f xs = true <-> forall x, x ∈ xs -> f x = true.
Proof.
  rewrite forallb_forall. split; intros H x Hx; apply H; apply list_elem_of_In; exact Hx.
Qed.

Lemma fieldFlag_exported (fl : flag) (f : fieldinfo) :
  flagRO fl = false -> IsExported (Name f) = true -> flagRO (fieldFlag fl f) = false.
Proof.
  unfold flagRO, fieldFlag. simpl. intros H He. rewrite He. simpl.
  apply orb_false_iff in H as [-> _]. reflexivity.
Qed.

(** ** Field lookup *)

Lemma findField_Some (name : string) (fs : list (fieldinfo * value)) i fv :
  findField name fs = Some (i, fv) ->
  fs !! i = Some fv /\ Name fv.1 = name.
Proof.
  revert i. induction fs as [|gv fs IH]; simpl; intros i H; [discriminate|].
  destruct (String.eqb (Name gv.1) name) eqn:E.
  - inversion H; subst. apply String.eqb_eq in E. auto.
  - destruct (findField name fs) as [[j r]|]; [|discriminate].
    inversion H; subst. apply IH. reflexivity.
Qed.

Lemma findField_None (name : string) (fs : list (fieldinfo * value)) :
  findField name fs = None <-> name ∉ map (fun fv => Name fv.1) fs.
Proof.
  induction fs as [|gv fs IH]; simpl.
  - split; [intros _; apply not_elem_of_nil|reflexivity].
  - rewrite not_elem_of_cons. destruct (String.eqb (Name gv.1) name) eqn:E.
    + apply String.eqb_eq in E. split; [discriminate|intros [H _]; congruence].
    + apply String.eqb_neq in E. destruct (findField name fs) as [[j r]|].
      * split; [discriminate|]. intros [_ H]. apply IH in H. discriminate.
      * split; [|reflexivity]. intros _. split; [congruence|]. apply IH. reflexivity.
Qed.


(** ** Get and Has *)

Lemma getNested_hasNested (val : Value) (parts : list string) x found :
  getNestedFieldRecursive val parts = Ok (x, found) ->
  hasNestedFieldRecursive val parts = Ok found.
Proof.
  revert val. induction parts as [|name rest IH]; simpl; intros val H.
  - inversion H. reflexivity.
  - destruct (vdata val) as [| | | | | | | |n fs]; try discriminate.
    destruct (findField name fs) as [[i fv]|]; [|inversion H; reflexivity].
    destruct rest as [|name' rest'].
    + unfold Interface in H. destruct (flagRO _); [discriminate|].
      simpl in H. inversion H. reflexivity.
    + destruct (bool_decide _); [|inversion H; reflexivity].
      apply IH. exact H.
Qed.

(** Whenever [Get] returns, [Has] returns its found flag. *)
Lemma Get_Has (st : store) (obj : value) (p : string) x found :
  Get st obj p = Ok (x, found) -> Has st obj p = Ok found.
Proof.
  unfold Get, Has. destruct (indirect st (ValueOf (iface obj))) as [v|].
  - destruct (bool_decide _).
    + apply getNested_hasNested.
    + intros H. inversion H. reflexivity.
  - intros H. inversion H. reflexivity.
Qed.

(** [Has] never panics, and [Get] panics only on a path that [Has]
    accepts. *)
Lemma Get_panic_Has (st : store) (obj : value) (p : string) q :
  Get st obj p = Panic q -> q = PanicUnexported /\ Has st obj p = Ok true.
Proof.
  unfold Get, Has. destruct (indirect st (ValueOf (iface obj))) as [v|] eqn:Hv; [|discriminate].
  destruct (bool_decide _) eqn:Hk; [|discriminate].
  apply bool_decide_eq_true in Hk. simpl in Hk.
  generalize (Split p dot). intros parts. revert v Hk Hv.
  assert (G : forall v, kindOf (vdata v) = KStruct ->
              getNestedFieldRecursive v parts = Panic q ->
              q = PanicUnexported /\ hasNestedFieldRecursive v parts = Ok true).
  { induction parts as [|name rest IH]; simpl; intros v Hk H; [discriminate|].
    destruct (vdata v) as [| | | | | | | |n fs]; try discriminate.
    destruct (findField name fs) as [[i fv]|]; [|discriminate].
    destruct rest as [|name' rest'].
    - unfold Interface in H. destruct (flagRO _); [|discriminate].
      simpl in H. inversion H. auto.
    - destruct (bool_decide _) eqn:Hk'; [|discriminate].
      apply bool_decide_eq_true in Hk'. apply IH; auto. }
  intros v Hk _. apply G. exact Hk.
Qed.

(** ** Set *)



(** [Set] changes the content of a record, never its kind. *)
Lemma setNested_kind (val : Value) (parts : list string) (v : any) r e :
  setNestedFieldRecursive val parts v = Ok (r, e) ->
  kindOf r = kindOf (vdata val).
Proof.
  destruct parts as [|name rest]; simpl; intros H.
  - inversion H. reflexivity.
  - destruct (vdata val) as [| | | | | | | |n fs] eqn:Hv; try discriminate.
    destruct (findField name fs) as [[i fv]|]; [|inversion H; reflexivity].
    destruct rest as [|name' rest'].
    + destruct (ValueOf v) as [valueVal|]; [|discriminate].
      destruct (AssignableTo _ _); [|inversion H; reflexivity].
      destruct (SetValue _ _); try discriminate. inversion H. reflexivity.
    + destruct (bool_decide _); [|inversion H; reflexivity].
      destruct (CanSet _); [|inversion H; reflexivity].
      destruct (setNestedFieldRecursive _ _ _); try discriminate.
      inversion H. reflexivity.
Qed.

(** A failed [Set] leaves the record as it was. *)
Lemma setNested_error_unchanged (val : Value) (parts : list string) (v : any) r e :
  setNestedFieldRecursive val parts v = Ok (r, Some e) -> r = vdata val.
Proof.
  revert val r. induction parts as [|name rest IH]; simpl; intros val r H.
  - inversion H. reflexivity.
  - destruct (vdata val) as [| | | | | | | |n fs] eqn:Hv; try discriminate.
    destruct (findField name fs) as [[i fv]|] eqn:Hf; [|inversion H; reflexivity].
    destruct rest as [|name' rest'].
    + destruct (ValueOf v) as [valueVal|]; [|discriminate].
      destruct (AssignableTo _ _); [|inversion H; reflexivity].
      destruct (SetValue _ _); discriminate.
    + destruct (bool_decide _); [|inversion H; reflexivity].
      destruct (CanSet _); [|inversion H; reflexivity].
      destruct (setNestedFieldRecursive _ _ _) as [[r1 e1]| |] eqn:Hr; try discriminate.
      simpl in H. inversion H; subst. apply IH in Hr. subst r1. simpl.
      apply findField_Some in Hf as [Hf _]. f_equal.
      rewrite list_insert_id; [reflexivity|]. rewrite Hf. f_equal. destruct fv; reflexivity.
Qed.


(** [Get] does not look at the addressable bit. *)
Lemma getNested_flagAddr (parts : list string) (d : value) a a' s e :
  getNestedFieldRecursive (mkValue (mkFlag a s e) d) parts =
  getNestedFieldRecursive (mkValue (mkFlag a' s e) d) parts.
Proof.
  revert d a a' s e. induction parts as [|name rest IH]; simpl; intros d a a' s e; [reflexivity|].
  destruct d as [| | | | | | | |n fs]; try reflexivity.
  destruct (findField name fs) as [[i fv]|]; [|reflexivity].
  destruct rest as [|name' rest']; [reflexivity|].
  unfold Field, fieldFlag. cbn [vdata vflag flagAddr flagStickyRO flagEmbedRO].
  destruct (bool_decide _); [|reflexivity].
  apply IH.
Qed.



(** The last segment of a path that reaches a terminal field. *)
Lemma terminalField_last (parts : list string) (val field : Value) :
  terminalField val parts = Some field -> exists name, last parts = Some name.
Proof.
  destruct parts as [|name rest]; [discriminate|]. intros _.
  revert name. induction rest as [|name' rest IH]; intros name; simpl; eauto.
Qed.

(** At the terminal field [Set] rejects a value of a type that is not
    assignable and leaves the record as it is. *)
Lemma setNested_mismatch (parts : list string) (val field : Value) (d : value) name :
  terminalField val parts = Some field ->
  last parts = Some name ->
  AssignableTo (typeOf d) (typeOf (vdata field)) = false ->
  setNestedFieldRecursive val parts (Some d) =
    Ok (vdata val, Some (ErrAssign (typeOf d) name (typeOf (vdata field)))).
Proof.
  revert val. induction parts as [|seg rest IH]; simpl; intros val Ht Hl Ha; [discriminate|].
  destruct (vdata val) as [| | | | | | | |n fs] eqn:Hv; try discriminate.
  destruct (findField seg fs) as [[i fv]|] eqn:Hf; [|discriminate].
  destruct rest as [|seg' rest'].
  - inversion Ht; subst. inversion Hl; subst. simpl. simpl in Ha. rewrite Ha. reflexivity.
  - destruct (bool_decide _); [|discriminate]. cbn [andb] in Ht.
    destruct (CanSet _); [|discriminate].
    rewrite (IH _ Ht Hl Ha). simpl.
    apply findField_Some in Hf as [Hf _].
    rewrite list_insert_id; [reflexivity|]. rewrite Hf. f_equal. destruct fv; reflexivity.
Qed.

(** C6. Type-mismatch rejection with atomicity: through a record
    reference, on a path that leads to a terminal field, a replacement
    value whose type is not assignable to the type of the field makes
    [Set] return the failure that names the field and both types, and
    the store, hence the record, is unchanged. *)
Theorem Set_type_mismatch (st : store) (obj : value) (t : type) (l : loc)
    (r : value) (p : string) (d : value) (field : Value) :
  iface obj = Some (VPtr t (Some l)) ->
  st !! l = Some (CVar r) ->
  terminalField (mkValue flagNew r) (Split p dot) = Some field ->
  AssignableTo (typeOf d) (typeOf (vdata field)) = false ->
  exists name,
    last (Split p dot) = Some name /\
    Set_ st obj p (Some d) =
      Ok (st, Some (ErrAssign (typeOf d) name (typeOf (vdata field)))).
Proof.
  intros Hobj Hl Ht Ha.
  destruct (terminalField_last _ _ _ Ht) as [name Hn]. exists name.
  split; [exact Hn|].
  assert (Hk : kindOf r = KStruct).
  { destruct (Split p dot); [discriminate|]. simpl in Ht. destruct r; try discriminate. reflexivity. }
  unfold Set_. rewrite Hobj. simpl. unfold Elem. simpl. rewrite Hl. simpl.
  rewrite bool_decide_eq_true_2 by exact Hk.
  unfold flagNew in Ht. rewrite (setNested_mismatch _ _ _ _ _ Ht Hn Ha).
  cbn [bind fst snd vdata].
  do 2 f_equal. apply list_insert_id. exact Hl.
Qed.

Lemma Set_type_mismatch_witness :
  let st := [CVar (User "Alice" 25 "alice@example.com")] in
  exists name,
    last (Split "Age" dot) = Some name /\
    Set_ st (addressOf (User "" 0 "") 0) "Age" (Some (VString "thirty")) =
      Ok (st, Some (ErrAssign TString name TInt)).
Proof.
  intros st.
  apply (Set_type_mismatch st (addressOf (User "" 0 "") 0) (typeOf (User "" 0 "")) 0%nat
           (User "Alice" 25 "alice@example.com") "Age" (VString "thirty")
           (mkValue flagNew (VInt 25))); reflexivity.
Defined.

(** Any failure that [Set] returns leaves the store as it was. *)
Lemma Set_error_unchanged (st : store) (obj : value) (p : string) (v : any) st' e :
  Set_ st obj p v = Ok (st', Some e) -> st' = st.
Proof.
  unfold Set_. destruct (iface obj) as [d|]; simpl; [|intros H; inversion H; reflexivity].
  destruct d as [| | |t [l|]| | | | |n fs]; simpl;
    try (intros H; inversion H; reflexivity).
  - unfold Elem. simpl.
    destruct (st !! l) as [[w| |]|] eqn:Hl; simpl; try (intros H; inversion H; reflexivity).
    destruct (bool_decide _); [|intros H; inversion H; reflexivity].
    destruct (setNestedFieldRecursive _ _ _) as [[r1 e1]| |] eqn:Hr; try discriminate.
    simpl. intros H. inversion H; subst.
    apply setNested_error_unchanged in Hr. simpl in Hr. subst.
    apply list_insert_id. exact Hl.
  - destruct (setNestedFieldRecursive _ _ _) as [[r1 e1]| |]; try discriminate.
    simpl. intros H; inversion H; reflexivity.
Qed.

(** Through an addressable record [Set] never meets the fault of an
    unaddressable value. *)
Lemma setNested_addressable (parts : list string) (val : Value) (v : any) :
  flagAddr (vflag val) = true ->
  setNestedFieldRecursive val parts v <> Panic PanicUnaddressable.
Proof.
  revert val. induction parts as [|seg rest IH]; simpl; intros val Ha; [discriminate|].
  destruct (vdata val) as [| | | | | | | |n fs]; try discriminate.
  destruct (findField seg fs) as [[i fv]|]; [|discriminate].
  destruct rest as [|seg' rest'].
  - destruct (ValueOf v) as [valueVal|] eqn:Hv; [|discriminate].
    destruct (AssignableTo _ _); [|discriminate].
    unfold SetValue, Field. simpl. rewrite Ha. simpl.
    destruct (flagRO _); [discriminate|].
    destruct v; [|discriminate]. inversion Hv; subst. simpl.
    destruct (type_eqb _ _); [discriminate|].
    destruct (type_eqb _ _); discriminate.
  - destruct (bool_decide _); [|discriminate].
    destruct (CanSet _); [|discriminate].
    specialize (IH (Field (vflag val) fv) Ha).
    destruct (setNestedFieldRecursive _ _ _); try discriminate.
    intros H. apply IH. inversion H. reflexivity.
Qed.

(** Through an addressable record, with a replacement value that is not
    nil and a path that ends in an exported name, [Set] returns. *)
Lemma setNested_returns (parts : list string) (val : Value) (d : value) name :
  kindOf (vdata val) = KStruct ->
  flagAddr (vflag val) = true ->
  flagStickyRO (vflag val) = false ->
  last parts = Some name ->
  IsExported name = true ->
  exists r, setNestedFieldRecursive val parts (Some d) = Ok r.
Proof.
  revert val. induction parts as [|seg rest IH]; simpl; intros val Hk Ha Hs Hl He; [discriminate|].
  destruct (vdata val) as [| | | | | | | |n fs]; try discriminate.
  destruct (findField seg fs) as [[i fv]|] eqn:Hf; [|eauto].
  destruct rest as [|seg' rest'].
  - inversion Hl; subst. apply findField_Some in Hf as [_ Hf].
    destruct (AssignableTo _ _) eqn:Hass; [|eauto].
    unfold SetValue, Field, fieldFlag, flagRO. simpl. rewrite Ha, Hs, Hf, He. simpl.
    apply AssignableTo_spec in Hass as [Hass|Hass].
    + rewrite Hass, type_eqb_refl. simpl. eauto.
    + rewrite Hass. simpl. destruct (type_eqb _ _); simpl; eauto.
  - destruct (bool_decide _) eqn:Hk'; [|eauto].
    destruct (CanSet _) eqn:Hc; [|eauto].
    apply bool_decide_eq_true in Hk'.
    unfold CanSet, Field, fieldFlag, flagRO in Hc. simpl in Hc.
    apply andb_true_iff in Hc as [_ Hc]. apply negb_true_iff in Hc.
    apply orb_false_iff in Hc as [Hc _].
    destruct (IH (Field (vflag val) fv)) as [r Hr]; auto.
    rewrite Hr. simpl. eauto.
Qed.

(** A record passed to [Set] by value: the terminal assignment of a
    one-segment path is attempted on a value that is not addressable, and
    the call panics. *)
Lemma Set_by_value_panics (st : store) (obj : value) n fs (p name : string) i fv (d : value) :
  iface obj = Some (VStruct n fs) ->
  Split p dot = [name] ->
  findField name fs = Some (i, fv) ->
  AssignableTo (typeOf d) (typeOf fv.2) = true ->
  Set_ st obj p (Some d) =
    Panic (if IsExported name then PanicUnaddressable else PanicUnexported).
Proof.
  intros Hobj Hp Hf Ha. unfold Set_. rewrite Hobj, Hp. simpl. rewrite Hf. simpl.
  rewrite Ha. apply findField_Some in Hf as [_ Hf].
  unfold SetValue, Field, fieldFlag, flagRO. simpl. rewrite Hf.
  destruct (IsExported name); simpl; [reflexivity|].
  destruct (Anonymous fv.1); reflexivity.
Qed.

(** A reference passed to [Set]: the fault of an unaddressable value is
    out of reach. *)
Lemma Set_reference_addressable (st : store) (obj : value) t (l : option loc) (p : string) (v : any) :
  iface obj = Some (VPtr t l) ->
  Set_ st obj p v <> Panic PanicUnaddressable.
Proof.
  intros Hobj. unfold Set_. rewrite Hobj. simpl. unfold Elem. simpl.
  destruct l as [l|]; [|discriminate].
  destruct (st !! l) as [[w| |]|]; simpl; try discriminate.
  destruct (bool_decide _); [|discriminate].
  pose proof (setNested_addressable (Split p dot)
                (mkValue (mkFlag true false false) w) v eq_refl) as Hn.
  destruct (setNestedFieldRecursive _ _ _); try discriminate.
  intros H. apply Hn. inversion H. reflexivity.
Qed.

(** X1. A reference passed to [Set], a replacement value that is not nil and
    a path that ends in an exported name: [Set] returns, with success or
    with a failure. *)
Lemma Set_reference_returns (st : store) (obj : value) t (l : option loc)
    (p name : string) (d : value) :
  iface obj = Some (VPtr t l) ->
  last (Split p dot) = Some name ->
  IsExported name = true ->
  exists st' e, Set_ st obj p (Some d) = Ok (st', e).
Proof.
  intros Hobj Hl He. unfold Set_. rewrite Hobj. simpl. unfold Elem. simpl.
  destruct l as [l|]; [|eauto].
  destruct (st !! l) as [[w| |]|]; simpl; eauto.
  destruct (bool_decide _) eqn:Hk; [|eauto].
  apply bool_decide_eq_true in Hk.
  destruct (setNested_returns (Split p dot) (mkValue (mkFlag true false false) w) d name)
    as [r Hr]; auto.
  rewrite Hr. simpl. eauto.
Qed.

(** C10. [Set] through a reference to a record does not always return:
    a nil replacement value makes it panic where it asks for the type of
    the value, and an assignable value for a field that is not exported
    makes it panic in the assignment.  (A record passed by value panics
    as the claim says: [Set_by_value_panics]; the unaddressable fault is
    out of reach of a reference: [Set_reference_addressable].) *)
Theorem Set_reference_panics :
  Set_ [CVar (User "Alice" 25 "alice@example.com")] (addressOf (User "" 0 "") 0)
       "Name" None = Panic PanicZeroValue /\
  Set_ [CVar (account "ann" 10)] (addressOf (account "" 0) 0)
       "owner" (Some (VString "bob")) = Panic PanicUnexported.
Proof. split; reflexivity. Qed.

(** C7. [Has] and [Get] disagree on a field that is not exported: [Has]
    reports the field, [Get] panics where it asks [reflect] for the value
    and returns no found flag.  (Whenever [Get] returns, [Has] is its
    found flag: [Get_Has].) *)
Theorem Has_Get_unexported :
  Has [] (account "ann" 10) "owner" = Ok true /\
  Get [] (account "ann" 10) "owner" = Panic PanicUnexported.
Proof. split; reflexivity. Qed.

(** ** Navigation of Get *)




(** ** ToMap *)

Lemma entered_exported (fl : flag) (fv : fieldinfo * value) :
  entered fl fv = true -> IsExported (Name fv.1) = true /\ IsZero fv.2 = false.
Proof.
  unfold entered, CanInterface, Field, fieldFlag, flagRO. simpl. intros H.
  apply andb_true_iff in H as [H1 H2]. apply negb_true_iff in H1.
  split; [|exact H1]. destruct (IsExported (Name fv.1)); [reflexivity|].
  simpl in H2. destruct (flagStickyRO fl), (Anonymous fv.1); discriminate.
Qed.

(** The loop of [ToMap] never panics: it is a fold over the fields. *)
Lemma toMapLoop_fold (fl : flag) (fs : list (fieldinfo * value)) (m : gmap string any) :
  toMapLoop fl fs m =
  Ok (foldl (fun m fv => if entered fl fv then <[Name fv.1 := iface fv.2]> m else m) m fs).
Proof.
  revert m. induction fs as [|fv fs IH]; intros m; simpl; [reflexivity|].
  unfold entered. destruct (negb (IsZero _) && CanInterface _) eqn:E; simpl; [|apply IH].
  apply andb_true_iff in E as [_ E]. unfold Interface, CanInterface in *.
  apply negb_true_iff in E. rewrite E. simpl. apply IH.
Qed.

(** A key of the result comes from the map the loop started with or from
    a field the loop entered. *)
Lemma toMap_fold_lookup (fl : flag) (fs : list (fieldinfo * value)) (m : gmap string any) k x :
  foldl (fun m fv => if entered fl fv then <[Name fv.1 := iface fv.2]> m else m) m fs !! k = Some x ->
  m !! k = Some x \/
  exists fv, fv ∈ fs /\ entered fl fv = true /\ Name fv.1 = k /\ x = iface fv.2.
Proof.
  revert m. induction fs as [|fv fs IH]; intros m; simpl; [auto|].
  intros H. apply IH in H as [H|(gv & Hin & He & Hn & Hx)].
  - destruct (entered fl fv) eqn:E; [|auto].
    destruct (decide (Name fv.1 = k)) as [Hk|Hk].
    + subst k. rewrite lookup_insert_eq in H. inversion H; subst.
      right. exists fv. split; [apply elem_of_cons; auto|auto].
    + rewrite lookup_insert_ne in H by exact Hk. auto.
  - right. exists gv. split; [apply elem_of_cons; auto|auto].
Qed.




(** ** FromMap *)

Lemma forFields_map (step : fieldinfo * value -> outcome value)
    (g : fieldinfo * value -> value) (fs : list (fieldinfo * value)) :
  (forall fv, fv ∈ fs -> step fv = Ok (g fv)) ->
  forFields step fs = Ok (map (fun fv => (fv.1, g fv)) fs).
Proof.
  induction fs as [|fv fs IH]; intros H; simpl; [reflexivity|].
  rewrite (H fv) by (apply elem_of_cons; auto). simpl.
  rewrite IH; [reflexivity|]. intros x Hx. apply H. apply elem_of_cons; auto.
Qed.




(** ** Pick and Omit *)



(** On a record whose fields are all exported the body of [Pick] and
    [Omit] returns the record with every field kept or zeroed. *)
Lemma subset_exported (keep : string -> bool) (st : store) n fs :
  forallb (fun fv => IsExported (Name fv.1)) fs = true ->
  subset keep st (VStruct n fs) = Ok (VStruct n (map (subsetField keep) fs)).
Proof.
  intros He. unfold subset. cbn [iface ValueOf]. unfold indirect.
  cbn [Kind vdata kindOf]. rewrite bool_decide_eq_false_2 by discriminate.
  rewrite (forFields_map _ (fun fv => (subsetField keep fv).2)).
  - cbn [bind]. unfold Interface. cbn [vflag vdata flagNew flagRO flagStickyRO flagEmbedRO orb iface].
    cbn [bind]. unfold assertType.
    assert (Ht : typeOf (VStruct n (map (fun fv => (fv.1, (subsetField keep fv).2)) fs))
                 = typeOf (VStruct n fs)).
    { simpl. f_equal. rewrite map_map. apply map_ext. intros fv. unfold subsetField. simpl.
      destruct (keep (Name fv.1)); [reflexivity|]. rewrite typeOf_zero. reflexivity. }
    rewrite Ht, type_eqb_refl. simpl. reflexivity.
  - intros fv Hfv. rewrite forallb_elem_of in He. specialize (He fv Hfv).
    unfold subsetField. cbn [fst snd]. destruct (keep (Name fv.1)); [|reflexivity].
    unfold SetValue, Field. cbn [vflag vdata fst snd].
    rewrite (fieldFlag_exported flagNew fv.1 eq_refl He).
    rewrite (fieldFlag_exported (mkFlag false false false) fv.1 eq_refl He).
    cbn [fieldFlag flagAddr flagNew negb]. rewrite typeOf_zero, type_eqb_refl. reflexivity.
Qed.




(** ** Merge *)











(** ** Clone: lists, keys and reachability *)


Lemma all2_ext {A B : Type} (f g : A -> B -> bool) (xs : list A) (ys : list B) :
  (forall x y, x ∈ xs -> y ∈ ys -> f x y = g x y) ->
  all2 f xs ys = all2 g xs ys.
Proof.
  revert ys. induction xs as [|x xs IH]; intros [|y ys] H; simpl; try reflexivity.
  rewrite H by (apply elem_of_cons; auto). f_equal. apply IH.
  intros a b Ha Hb. apply H; apply elem_of_cons; auto.
Qed.

Lemma all2_lookup {A B : Type} (f : A -> B -> bool) (xs : list A) (ys : list B) :
  length xs = length ys ->
  (forall i x y, xs !! i = Some x -> ys !! i = Some y -> f x y = true) ->
  all2 f xs ys = true.
Proof.
  revert ys. induction xs as [|x xs IH]; intros [|y ys] Hl H; simpl in *; try discriminate; auto.
  rewrite (H 0%nat x y) by reflexivity. simpl. apply IH; [lia|].
  intros i a b Ha Hb. apply (H (S i)); assumption.
Qed.

Lemma all2_app {A B : Type} (f : A -> B -> bool) (xs xs' : list A) (ys ys' : list B) :
  all2 f xs ys = true -> all2 f xs' ys' = true -> all2 f (xs ++ xs') (ys ++ ys') = true.
Proof.
  revert ys. induction xs as [|x xs IH]; intros [|y ys] H H'; simpl in *; try discriminate; auto.
  apply andb_true_iff in H as [H1 H2]. rewrite H1. simpl. auto.
Qed.

Lemma value_eqb_refl (v : value) : value_eqb v v = true.
Proof.
  induction v using value_induction; simpl;
    rewrite ?type_eqb_refl, ?bool_decide_eq_true_2 by reflexivity; auto.
  - destruct b; reflexivity.
  - apply Z.eqb_refl.
  - apply String.eqb_refl.
  - induction H as [|x xs Hx Hxs IH]; simpl in *; auto. rewrite Hx. auto.
  - rewrite String.eqb_refl. simpl.
    induction H as [|[f x] fs Hx Hfs IH]; auto. simpl in *.
    rewrite bool_decide_eq_true_2 by reflexivity. rewrite Hx. auto.
Qed.

Lemma mapIndex_elem (kvs : list (value * value)) (key e : value) :
  mapIndex kvs key = Some e -> exists kv, kv ∈ kvs /\ kv.2 = e.
Proof.
  induction kvs as [|kv kvs IH]; simpl; [discriminate|].
  destruct (value_eqb kv.1 key).
  - intros H. inversion H. exists kv. split; [apply elem_of_cons; auto|reflexivity].
  - intros H. destruct (IH H) as (kv' & Hin & He).
    exists kv'. split; [apply elem_of_cons; auto|exact He].
Qed.

(** A key that differs from every key of the entries is appended. *)
Lemma mapAssign_new (kvs : list (value * value)) (key e : value) :
  forallb (fun kv => negb (value_eqb kv.1 key)) kvs = true ->
  mapAssign kvs key e = kvs ++ [(key, e)] /\ mapIndex kvs key = None.
Proof.
  induction kvs as [|kv kvs IH]; simpl; [auto|].
  intros H. apply andb_true_iff in H as [H1 H2]. apply negb_true_iff in H1.
  rewrite H1. destruct (IH H2) as [-> ->]. auto.
Qed.

Lemma mapIndex_app (kvs kvs' : list (value * value)) (key : value) :
  mapIndex (kvs ++ kvs') key =
  match mapIndex kvs key with Some e => Some e | None => mapIndex kvs' key end.
Proof.
  induction kvs as [|kv kvs IH]; simpl; [reflexivity|].
  destruct (value_eqb kv.1 key); [reflexivity|exact IH].
Qed.

Lemma plain_zero (t : type) : plain (zero t) = true.
Proof.
  induction t using type_induction; simpl; auto.
  - induction n; simpl; auto. rewrite IHt. auto.
  - induction H as [|[f u] fs Hu Hfs IH]; simpl in *; auto. rewrite Hu. auto.
Qed.

(** No storage backs a plain value. *)
Lemma plain_reach (st : store) (v : value) (l : loc) :
  plain v = true -> reach st v l -> False.
Proof.
  intros Hp Hr.
  induction Hr as [t l|t l w l' H Hr IH|t h|t h xs i x l' H Hi Hx Hr IH
                  |t xs x l' Hin Hr IH|k t m|k t m kvs kv l' H Hin Hr IH
                  |k t m kvs kv l' H Hin Hr IH|d l' Hr IH|n fs fv l' Hin Hr IH];
    simpl in Hp; try discriminate; try (apply bool_decide_eq_true in Hp; discriminate).
  - change (forallb plain xs = true) in Hp. rewrite forallb_elem_of in Hp. auto.
  - auto.
  - change (forallb (fun fv => plain fv.2) fs = true) in Hp.
    rewrite forallb_elem_of in Hp. auto.
Qed.

Lemma confined_plain (a b : nat) (st : store) (v : value) :
  plain v = true -> confined a b st v.
Proof. intros Hp l Hr. exfalso. eapply plain_reach; eauto. Qed.

Lemma confined_weaken (a a' b b' : nat) (st : store) (v : value) :
  confined a b st v -> (a' <= a)%nat -> (b <= b')%nat -> confined a' b' st v.
Proof. intros H Ha Hb l Hr. specialize (H l Hr). lia. Qed.

(** Reachability reads the store at reachable locations only. *)
Lemma reach_stable (st st' : store) (v : value) (l : loc) :
  stable st st' v -> reach st' v l -> reach st v l.
Proof.
  intros Hs Hr.
  induction Hr as [t l|t l w l' H Hr IH|t h|t h xs i x l' H Hi Hx Hr IH
                  |t xs x l' Hin Hr IH|k t m|k t m kvs kv l' H Hin Hr IH
                  |k t m kvs kv l' H Hin Hr IH|d l' Hr IH|n fs fv l' Hin Hr IH].
  - constructor.
  - assert (Hl : st !! l = Some (CVar w)).
    { rewrite <- H. symmetry. apply Hs. constructor. }
    eapply reach_ptr_elem; [exact Hl|]. apply IH.
    intros k Hk. apply Hs. eapply reach_ptr_elem; eauto.
  - constructor.
  - assert (Hl : st !! sdata h = Some (CArray xs)).
    { rewrite <- H. symmetry. apply Hs. constructor. }
    eapply reach_slice_elem; eauto. apply IH.
    intros k Hk. apply Hs. eapply reach_slice_elem; eauto.
  - eapply reach_array; eauto. apply IH.
    intros k Hk. apply Hs. eapply reach_array; eauto.
  - constructor.
  - assert (Hl : st !! m = Some (CMap kvs)).
    { rewrite <- H. symmetry. apply Hs. constructor. }
    eapply reach_map_key; eauto. apply IH.
    intros k' Hk. apply Hs. eapply reach_map_key; eauto.
  - assert (Hl : st !! m = Some (CMap kvs)).
    { rewrite <- H. symmetry. apply Hs. constructor. }
    eapply reach_map_elem; eauto. apply IH.
    intros k' Hk. apply Hs. eapply reach_map_elem; eauto.
  - constructor. apply IH. intros k Hk. apply Hs. constructor. exact Hk.
  - eapply reach_field; eauto. apply IH.
    intros k Hk. apply Hs. eapply reach_field; eauto.
Qed.

Lemma stable_refl (st : store) (v : value) : stable st st v.
Proof. intros l _. reflexivity. Qed.

Lemma stable_confined (a b : nat) (st st' : store) (v : value) :
  confined a b st v -> agree a b st st' -> stable st st' v.
Proof. intros Hc Ha l Hr. apply Ha. apply Hc. exact Hr. Qed.

Lemma confined_stable (a b : nat) (st st' : store) (v : value) :
  confined a b st v -> stable st st' v -> confined a b st' v.
Proof. intros Hc Hs l Hr. apply Hc. eapply reach_stable; eauto. Qed.

Lemma confined_agree (a b : nat) (st st' : store) (v : value) :
  confined a b st v -> agree a b st st' -> confined a b st' v.
Proof. intros Hc Ha. eapply confined_stable; eauto using stable_confined. Qed.

Lemma agree_app (a : nat) (st ext : store) : agree a (length st) st (st ++ ext).
Proof. intros l Hl. apply lookup_app_l. lia. Qed.

Lemma agree_weaken (a a' b b' : nat) (st st' : store) :
  agree a b st st' -> (a <= a')%nat -> (b' <= b)%nat -> agree a' b' st st'.
Proof. intros H Ha Hb l Hl. apply H. lia. Qed.

(** ** Clone: clonable values *)

Lemma elem_of_take_lookup {A : Type} (xs : list A) (k i : nat) (x : A) :
  (i < k)%nat -> xs !! i = Some x -> x ∈ take k xs.
Proof.
  intros Hi Hx. apply list_elem_of_lookup. exists i.
  rewrite lookup_take_lt by exact Hi. exact Hx.
Qed.

(** The storage behind a clonable value is allocated. *)
Lemma clonable_confined (n : nat) (st : store) (v : value) :
  clonable n st v = true -> confined 0 (length st) st v.
Proof.
  revert v. induction n as [|n IH]; intros v H l Hr; [discriminate|].
  assert (G : (l < length st)%nat); [|lia].
  destruct Hr as [t l|t l w l' Hl Hr|t h|t h xs i x l' Hl Hi Hx Hr
                 |t xs x l' Hin Hr|k t m|k t m kvs kv l' Hl Hin Hr
                 |k t m kvs kv l' Hl Hin Hr|d l' Hr|s fs fv l' Hin Hr];
    simpl in H.
  - destruct (st !! l) eqn:E; [|discriminate]. eapply lookup_lt_Some. exact E.
  - rewrite Hl in H. apply andb_true_iff in H as [_ H]. apply (IH _ H _ Hr).
  - destruct (st !! sdata h) eqn:E; [|discriminate]. eapply lookup_lt_Some. exact E.
  - rewrite Hl in H. apply andb_true_iff in H as [_ H]. rewrite forallb_elem_of in H.
    specialize (H x (elem_of_take_lookup _ _ _ _ Hi Hx)).
    apply andb_true_iff in H as [_ H]. apply (IH _ H _ Hr).
  - rewrite forallb_elem_of in H. specialize (H x Hin).
    apply andb_true_iff in H as [_ H]. apply (IH _ H _ Hr).
  - destruct (st !! m) eqn:E; [|discriminate]. eapply lookup_lt_Some. exact E.
  - rewrite Hl in H. apply andb_true_iff in H as [_ H]. rewrite forallb_elem_of in H.
    specialize (H kv Hin). apply andb_true_iff in H as [H _].
    apply andb_true_iff in H as [_ H]. apply (IH _ H _ Hr).
  - rewrite Hl in H. apply andb_true_iff in H as [_ H]. rewrite forallb_elem_of in H.
    specialize (H kv Hin). apply andb_true_iff in H as [_ H]. apply (IH _ H _ Hr).
  - apply andb_true_iff in H as [_ H]. apply (IH _ H _ Hr).
  - rewrite forallb_elem_of in H. specialize (H fv Hin).
    apply andb_true_iff in H as [_ H]. apply (IH _ H _ Hr).
Qed.

Lemma forallb_ext_in {A : Type} (f g : A -> bool) (xs : list A) :
  (forall x, x ∈ xs -> f x = true -> g x = true) ->
  forallb f xs = true -> forallb g xs = true.
Proof.
  intros H Hf. apply forallb_elem_of. intros x Hx. apply H; [exact Hx|].
  rewrite forallb_elem_of in Hf. auto.
Qed.

(** A value stays clonable in a store that holds the same allocated
    cells. *)
Lemma clonable_agree (n : nat) (st st' : store) (v : value) :
  agree 0 (length st) st st' -> clonable n st v = true -> clonable n st' v = true.
Proof.
  intros Ha. revert v. induction n as [|n IH]; intros v H; [discriminate|].
  assert (L : forall l c, st !! l = Some c -> st' !! l = Some c).
  { intros l c Hl. rewrite <- Hl. apply Ha. split; [lia|]. eapply lookup_lt_Some; eauto. }
  destruct v as [| | |t [l|]|t [h|]|t xs|k t [m|]|[d|]|s fs]; cbn [clonable] in *; auto.
  - destruct (st !! l) as [[w| |]|] eqn:E; try discriminate.
    rewrite (L _ _ E). apply andb_true_iff in H as [H1 H2]. rewrite H1. simpl. auto.
  - destruct (st !! sdata h) as [[|xs|]|] eqn:E; try discriminate.
    rewrite (L _ _ E). apply andb_true_iff in H as [H1 H2]. rewrite H1. simpl.
    revert H2. apply forallb_ext_in. intros x _ Hx.
    apply andb_true_iff in Hx as [Hx1 Hx2]. rewrite Hx1. simpl. auto.
  - revert H. apply forallb_ext_in. intros x _ Hx.
    apply andb_true_iff in Hx as [Hx1 Hx2]. rewrite Hx1. simpl. auto.
  - destruct (st !! m) as [[| |kvs]|] eqn:E; try discriminate.
    rewrite (L _ _ E). apply andb_true_iff in H as [H1 H2]. rewrite H1. simpl.
    revert H2. apply forallb_ext_in. intros x _ Hx.
    apply andb_true_iff in Hx as [Hx1 Hx2]. apply andb_true_iff in Hx1 as [Hx0 Hx1].
    rewrite Hx0, (IH _ Hx1), (IH _ Hx2). reflexivity.
  - apply andb_true_iff in H as [H1 H2]. rewrite H1. simpl. auto.
  - revert H. apply forallb_ext_in. intros x _ Hx.
    apply andb_true_iff in Hx as [Hx1 Hx2]. rewrite Hx1. simpl. auto.
Qed.

Lemma clonable_app (n : nat) (st ext : store) (v : value) :
  clonable n st v = true -> clonable n (st ++ ext) v = true.
Proof. apply clonable_agree. apply agree_app. Qed.

(** ** Clone: deep equality reads reachable storage only *)

Lemma DeepEqual_stable (n : nat) (s1 s1' s2 s2' : store) (v r : value) :
  stable s1 s1' v -> stable s2 s2' r ->
  DeepEqual n s1' s2' v r = DeepEqual n s1 s2 v r.
Proof.
  revert v r.
  induction n as [|n IH]; intros v r Hc1 Hc2; [reflexivity|].
  destruct v as [| | |t [l|]|t [h|]|t xs|k t [m|]|[d|]|s fs];
    destruct r as [| | |t' [l'|]|t' [h'|]|t' xs'|k' t' [m'|]|[d'|]|s' fs'];
    cbn [DeepEqual]; try reflexivity.
  - rewrite (Hc1 l) by constructor.
    rewrite (Hc2 l') by constructor.
    destruct (s1 !! l) as [[w| |]|] eqn:E1; try reflexivity.
    destruct (s2 !! l') as [[w'| |]|] eqn:E2; try reflexivity.
    f_equal. apply IH.
    + intros k Hk. apply Hc1. eapply reach_ptr_elem; eauto.
    + intros k Hk. apply Hc2. eapply reach_ptr_elem; eauto.
  - rewrite (Hc1 (sdata h)) by constructor.
    rewrite (Hc2 (sdata h')) by constructor.
    destruct (s1 !! sdata h) as [[|xs|]|] eqn:E1; try reflexivity.
    destruct (s2 !! sdata h') as [[|xs'|]|] eqn:E2; try reflexivity.
    f_equal. apply all2_ext. intros x y Hx Hy.
    apply list_elem_of_lookup in Hx as [i Hx]. apply list_elem_of_lookup in Hy as [j Hy].
    apply lookup_take_Some in Hx as [Hx Hi]. apply lookup_take_Some in Hy as [Hy Hj].
    apply IH.
    + intros k Hk. apply Hc1. eapply reach_slice_elem; eauto.
    + intros k Hk. apply Hc2. eapply reach_slice_elem; eauto.
  - f_equal. apply all2_ext. intros x y Hx Hy. apply IH.
    + intros k Hk. apply Hc1. eapply reach_array; eauto.
    + intros k Hk. apply Hc2. eapply reach_array; eauto.
  - rewrite (Hc1 m) by constructor.
    rewrite (Hc2 m') by constructor.
    destruct (s1 !! m) as [[| |kvs]|] eqn:E1; try reflexivity.
    destruct (s2 !! m') as [[| |kvs']|] eqn:E2; try reflexivity.
    f_equal. f_equal.
    assert (G : forall kv, kv ∈ kvs ->
      match mapIndex kvs' kv.1 with Some e => DeepEqual n s1' s2' kv.2 e | None => false end =
      match mapIndex kvs' kv.1 with Some e => DeepEqual n s1 s2 kv.2 e | None => false end).
    { intros kv Hkv. destruct (mapIndex kvs' kv.1) as [e|] eqn:He; [|reflexivity].
      apply mapIndex_elem in He as (kv' & Hin' & <-). apply IH.
      - intros k0 Hk. apply Hc1. eapply reach_map_elem; eauto.
      - intros k0 Hk. apply Hc2. eapply reach_map_elem; eauto. }
    clear E1. induction kvs as [|kv kvs IHk]; simpl; [reflexivity|].
    rewrite G by (apply elem_of_cons; auto). f_equal. apply IHk.
    intros kv0 Hkv0. apply G. apply elem_of_cons; auto.
  - apply IH.
    + intros k Hk. apply Hc1. constructor. exact Hk.
    + intros k Hk. apply Hc2. constructor. exact Hk.
  - f_equal. apply all2_ext. intros x y Hx Hy. f_equal. apply IH.
    + intros k Hk. apply Hc1. eapply reach_field; eauto.
    + intros k Hk. apply Hc2. eapply reach_field; eauto.
Qed.

(** ** Clone: the loops of deepCopyValue *)


(** Storing a copy into a fresh variable of its type. *)
Lemma SetValue_copy (target r : value) :
  typeOf r = typeOf target ->
  SetValue (mkValue flagNew target) (mkValue flagCopy r) = Ok r.
Proof. intros H. unfold SetValue. simpl. rewrite H, type_eqb_refl. reflexivity. Qed.

Lemma SetValue_field (f : fieldinfo) (x r : value) :
  IsExported (Name f) = true -> typeOf r = typeOf x ->
  SetValue (Field flagNew (f, zero (typeOf x))) (mkValue flagCopy r) = Ok r.
Proof.
  intros He H. unfold SetValue, Field. simpl.
  rewrite (fieldFlag_exported flagNew f eq_refl He). simpl.
  rewrite typeOf_zero, H, type_eqb_refl. reflexivity.
Qed.

Lemma agree_refl (a b : nat) (st : store) : agree a b st st.
Proof. intros l _. reflexivity. Qed.

(** Inversion of reachability, by the shape of the value. *)
Lemma reach_ptr_inv (st : store) t (l k : loc) :
  reach st (VPtr t (Some l)) k ->
  k = l \/ exists w, st !! l = Some (CVar w) /\ reach st w k.
Proof. inversion 1; subst; eauto. Qed.

Lemma reach_slice_inv (st : store) t h (k : loc) :
  reach st (VSlice t (Some h)) k ->
  k = sdata h \/
  exists xs i x, st !! sdata h = Some (CArray xs) /\ (i < slen h)%nat /\
                 xs !! i = Some x /\ reach st x k.
Proof. inversion 1; subst; eauto 8. Qed.

Lemma reach_array_inv (st : store) t xs (k : loc) :
  reach st (VArray t xs) k -> exists x, x ∈ xs /\ reach st x k.
Proof. inversion 1; subst; eauto. Qed.

Lemma reach_map_inv (st : store) kt t m (k : loc) :
  reach st (VMap kt t (Some m)) k ->
  k = m \/
  exists kvs kv, st !! m = Some (CMap kvs) /\ kv ∈ kvs /\
                 (reach st kv.1 k \/ reach st kv.2 k).
Proof. inversion 1; subst; eauto 8. Qed.

Lemma reach_interface_inv (st : store) d (k : loc) :
  reach st (VInterface (Some d)) k -> reach st d k.
Proof. inversion 1; subst; eauto. Qed.

Lemma reach_struct_inv (st : store) n fs (k : loc) :
  reach st (VStruct n fs) k -> exists fv, fv ∈ fs /\ reach st fv.2 k.
Proof. inversion 1; subst; eauto. Qed.

(** The shape of the store inside the loops over a slice and a map: the
    cells [s] of the caller, the cell under construction, the cells the
    copies made so far have allocated. *)
Lemma lookup_under (s tl : store) (c : cell) (l : nat) :
  (l < length s)%nat -> (s ++ c :: tl) !! l = s !! l.
Proof. apply lookup_app_l. Qed.

Lemma lookup_current (s tl : store) (c : cell) : (s ++ c :: tl) !! length s = Some c.
Proof. apply list_lookup_middle. reflexivity. Qed.

Lemma insert_current (s tl : store) (c c' : cell) :
  <[length s := c']> (s ++ c :: tl) = s ++ c' :: tl.
Proof.
  rewrite insert_app_r_alt by lia. rewrite Nat.sub_diag. reflexivity.
Qed.

Lemma app_current (s tl ext : store) (c : cell) :
  (s ++ c :: tl) ++ ext = s ++ c :: (tl ++ ext).
Proof. rewrite <- app_assoc. reflexivity. Qed.

Lemma agree_current (s tl ext : store) (c c' : cell) :
  agree (S (length s)) (length (s ++ c :: tl)) (s ++ c :: tl) (s ++ c' :: tl ++ ext).
Proof.
  intros l [Hl1 Hl2]. rewrite length_app in Hl2. simpl in Hl2.
  rewrite !lookup_app_r by lia.
  destruct (l - length s)%nat as [|k] eqn:E; [lia|]. simpl.
  apply lookup_app_l. lia.
Qed.

Lemma distinct_app_cons (l1 l2 : list value) (k : value) :
  distinct (l1 ++ k :: l2) = true ->
  forallb (fun k' => negb (value_eqb k' k)) l1 = true.
Proof.
  induction l1 as [|a l1 IH]; simpl; [reflexivity|].
  intros H. apply andb_true_iff in H as [H1 H2].
  rewrite forallb_app in H1. apply andb_true_iff in H1 as [_ H1]. simpl in H1.
  apply andb_true_iff in H1 as [H1 _]. rewrite H1. simpl. auto.
Qed.

Lemma mapIndex_distinct (kvs : list (value * value)) (i : nat) (kv : value * value) :
  distinct (map fst kvs) = true -> kvs !! i = Some kv ->
  mapIndex kvs kv.1 = Some kv.2.
Proof.
  revert i. induction kvs as [|a kvs IH]; intros [|i] Hd Hi; simpl in *; try discriminate.
  - inversion Hi; subst. rewrite value_eqb_refl. reflexivity.
  - apply andb_true_iff in Hd as [Hd1 Hd2].
    rewrite forallb_elem_of in Hd1.
    assert (Hk : kv.1 ∈ map fst kvs).
    { apply list_elem_of_fmap. exists kv. split; [reflexivity|].
      eapply list_elem_of_lookup_2; eauto. }
    specialize (Hd1 _ Hk). apply negb_true_iff in Hd1. rewrite Hd1. eauto.
Qed.

Section loops.
Variable n : nat.
Variable rec : store -> Value -> outcome (value * store).
Hypothesis Hrec : copySpec n rec.

Lemma copyFields_spec (fs : list (fieldinfo * value)) (st : store) (fl : flag) :
  flagRO fl = false ->
  forallb (fun fv => IsExported (Name fv.1) && clonable n st fv.2) fs = true ->
  exists rs ext,
    copyFields rec st fl fs = Ok (rs, st ++ ext) /\
    map (fun fv => (fv.1, typeOf fv.2)) rs = map (fun fv => (fv.1, typeOf fv.2)) fs /\
    all2 (fun f g => bool_decide (f.1 = g.1) && DeepEqual n st (st ++ ext) f.2 g.2) fs rs = true /\
    (forall r, r ∈ rs -> confined (length st) (length (st ++ ext)) (st ++ ext) r.2) /\
    (forallb (fun fv => plain fv.2) fs = true -> rs = fs /\ ext = []).
Proof.
  intros Hfl. revert st. induction fs as [|fv fs IH]; intros st H.
  - exists [], []. rewrite app_nil_r. simpl. splits; auto.
    intros r Hr. inversion Hr.
  - simpl in H. apply andb_true_iff in H as [Hfv Hfs].
    apply andb_true_iff in Hfv as [He Hc].
    destruct (Hrec st (fieldFlag fl fv.1) fv.2 (fieldFlag_exported _ _ Hfl He) Hc)
      as (r & e1 & Hr & Ht & Hd & Hcf & Hp).
    destruct (IH (st ++ e1)) as (rs & e2 & Hrs & Hts & Hds & Hcfs & Hps).
    { revert Hfs. apply forallb_ext_in. intros x _ Hx.
      apply andb_true_iff in Hx as [Hx1 Hx2]. rewrite Hx1. simpl. apply clonable_app, Hx2. }
    exists ((fv.1, r) :: rs), (e1 ++ e2).
    assert (Hst : agree (length st) (length (st ++ e1)) (st ++ e1) (st ++ e1 ++ e2)).
    { rewrite app_assoc. apply agree_app. }
    splits.
    + change (rec st (Field fl fv) = Ok (r, st ++ e1)) in Hr.
      cbn [copyFields]. rewrite Hr. cbn [bind fst snd].
      rewrite (SetValue_field _ _ _ He Ht). cbn [bind fst snd]. rewrite Hrs.
      cbn [bind fst snd]. rewrite app_assoc. reflexivity.
    + simpl. rewrite Ht, Hts. reflexivity.
    + simpl. rewrite bool_decide_eq_true_2 by reflexivity. simpl.
      rewrite (DeepEqual_stable n st st (st ++ e1) (st ++ e1 ++ e2));
        [|apply stable_refl|eapply stable_confined; eauto].
      rewrite Hd. simpl. rewrite <- Hds. rewrite app_assoc. apply all2_ext.
      intros x y Hx Hy. f_equal. symmetry. apply DeepEqual_stable; [|apply stable_refl].
      rewrite forallb_elem_of in Hfs. specialize (Hfs x Hx).
      apply andb_true_iff in Hfs as [_ Hfs].
      eapply stable_confined; [apply (clonable_confined _ _ _ Hfs)|apply agree_app].
    + intros x Hx. apply elem_of_cons in Hx as [->|Hx]; simpl.
      * eapply confined_weaken; [eapply confined_agree; eauto| |]; rewrite ?length_app; lia.
      * rewrite app_assoc. eapply confined_weaken; [apply Hcfs, Hx| |];
          rewrite ?length_app; lia.
    + intros H. simpl in H. apply andb_true_iff in H as [H1 H2].
      destruct (Hp H1) as [-> ->].
      destruct (Hps H2) as [-> ->]. destruct fv; split; reflexivity.
Qed.

Lemma copyArray_spec (t : type) (xs : list value) (st : store) (fl : flag) :
  flagRO fl = false ->
  forallb (fun x => type_eqb (typeOf x) t && clonable n st x) xs = true ->
  exists rs ext,
    copyArray rec st fl xs = Ok (rs, st ++ ext) /\
    length rs = length xs /\
    all2 (DeepEqual n st (st ++ ext)) xs rs = true /\
    (forall r, r ∈ rs -> confined (length st) (length (st ++ ext)) (st ++ ext) r) /\
    (forallb plain xs = true -> rs = xs /\ ext = []).
Proof.
  intros Hfl. revert st. induction xs as [|x xs IH]; intros st H.
  - exists [], []. rewrite app_nil_r. simpl. splits; auto.
    intros r Hr. inversion Hr.
  - simpl in H. apply andb_true_iff in H as [Hx Hxs].
    apply andb_true_iff in Hx as [He Hc].
    assert (Hfl' : flagRO (flagIndex (flagAddr fl) fl) = false).
    { unfold flagRO, flagIndex. simpl. rewrite orb_false_r. exact Hfl. }
    destruct (Hrec st _ x Hfl' Hc) as (r & e1 & Hr & Ht & Hd & Hcf & Hp).
    destruct (IH (st ++ e1)) as (rs & e2 & Hrs & Hts & Hds & Hcfs & Hps).
    { revert Hxs. apply forallb_ext_in. intros y _ Hy.
      apply andb_true_iff in Hy as [Hy1 Hy2]. rewrite Hy1. simpl. apply clonable_app, Hy2. }
    exists (r :: rs), (e1 ++ e2).
    assert (Hst : agree (length st) (length (st ++ e1)) (st ++ e1) (st ++ e1 ++ e2)).
    { rewrite app_assoc. apply agree_app. }
    splits.
    + cbn [copyArray]. rewrite Hr. cbn [bind fst snd].
      rewrite (SetValue_copy (zero (typeOf x)) r) by (rewrite typeOf_zero; exact Ht).
      cbn [bind fst snd]. rewrite Hrs. cbn [bind fst snd]. rewrite app_assoc. reflexivity.
    + simpl. rewrite Hts. reflexivity.
    + simpl.
      rewrite (DeepEqual_stable n st st (st ++ e1) (st ++ e1 ++ e2));
        [|apply stable_refl|eapply stable_confined; eauto].
      rewrite Hd. simpl. rewrite <- Hds. rewrite app_assoc. apply all2_ext.
      intros a b Ha Hb. symmetry. apply DeepEqual_stable; [|apply stable_refl].
      rewrite forallb_elem_of in Hxs. specialize (Hxs a Ha).
      apply andb_true_iff in Hxs as [_ Hxs].
      eapply stable_confined; [apply (clonable_confined _ _ _ Hxs)|apply agree_app].
    + intros a Ha. apply elem_of_cons in Ha as [->|Ha]; simpl.
      * eapply confined_weaken; [eapply confined_agree; eauto| |]; rewrite ?length_app; lia.
      * rewrite app_assoc. eapply confined_weaken; [apply Hcfs, Ha| |];
          rewrite ?length_app; lia.
    + intros H. simpl in H. apply andb_true_iff in H as [H1 H2].
      destruct (Hp H1) as [-> ->].
      destruct (Hps H2) as [-> ->]. split; reflexivity.
Qed.

Lemma copySlice_spec (t : type) (src : loc) (xs : list value) (indices : list nat)
    (s : store) (fl : flag) :
  flagRO fl = false ->
  s !! src = Some (CArray xs) ->
  NoDup indices ->
  (forall i, i ∈ indices ->
     exists x, xs !! i = Some x /\ typeOf x = t /\ clonable n s x = true) ->
  forall (ys : list value) (tl : store),
  exists ys' tl',
    copySlice rec (s ++ CArray ys :: tl) fl t src (length s) indices
      = Ok (s ++ CArray ys' :: tl ++ tl') /\
    length ys' = length ys /\
    (forall j, j ∉ indices -> ys' !! j = ys !! j) /\
    (forall i x, i ∈ indices -> (i < length ys)%nat -> xs !! i = Some x ->
       exists r, ys' !! i = Some r /\
         DeepEqual n s (s ++ CArray ys' :: tl ++ tl') x r = true /\
         confined (S (length s + length tl)) (length (s ++ CArray ys' :: tl ++ tl'))
                  (s ++ CArray ys' :: tl ++ tl') r).
Proof.
  intros Hfl Hsrc. induction indices as [|i rest IH]; intros Hnd Hx ys tl.
  - exists ys, []. rewrite app_nil_r. splits; auto.
    intros i x Hi. inversion Hi.
  - apply NoDup_cons in Hnd as [Hi Hnd].
    destruct (Hx i) as (x & Hxi & Ht & Hc); [apply elem_of_cons; auto|].
    assert (Hlt : (src < length s)%nat) by (eapply lookup_lt_Some; eauto).
    set (cur := s ++ CArray ys :: tl).
    assert (Hfl' : flagRO (flagIndex true fl) = false).
    { unfold flagRO, flagIndex. simpl. rewrite orb_false_r. exact Hfl. }
    destruct (Hrec cur _ x Hfl' (clonable_app _ _ _ _ Hc))
      as (r & e1 & Hr & Htr & Hd & Hcf & _).
    destruct (IH Hnd) with (ys := <[i := r]> ys) (tl := tl ++ e1)
      as (ys' & tl' & Hloop & Hlen & Hout & Hin).
    { intros j Hj. apply Hx. apply elem_of_cons; auto. }
    exists ys', (e1 ++ tl'). rewrite length_insert in Hlen.
    assert (Hfinal : s ++ CArray ys' :: (tl ++ e1) ++ tl' = s ++ CArray ys' :: tl ++ e1 ++ tl').
    { rewrite <- app_assoc. reflexivity. }
    rewrite Hfinal in *. clear Hfinal.
    set (final := s ++ CArray ys' :: tl ++ e1 ++ tl') in *.
    assert (Hag : agree (length cur) (length (cur ++ e1)) (cur ++ e1) final).
    { unfold cur, final. rewrite app_current, (app_assoc tl e1 tl').
      eapply agree_weaken; [apply (agree_current s (tl ++ e1) tl' (CArray ys) (CArray ys'))| |].
      - rewrite length_app. simpl. lia.
      - reflexivity. }
    splits.
    + cbn [copySlice]. fold cur. unfold cur at 1 2.
      rewrite lookup_under by exact Hlt. rewrite Hsrc, lookup_current, Hxi.
      fold cur. rewrite Hr. cbn [bind fst snd].
      rewrite (SetValue_copy (zero t) r) by (rewrite typeOf_zero; congruence).
      cbn [bind fst snd]. unfold cur. rewrite app_current, lookup_current, insert_current.
      exact Hloop.
    + exact Hlen.
    + intros j Hj. apply not_elem_of_cons in Hj as [Hji Hj].
      rewrite (Hout j Hj). apply list_lookup_insert_ne. congruence.
    + intros i0 x0 Hi0 Hlt0 Hx0. apply elem_of_cons in Hi0 as [->|Hi0].
      * assert (x0 = x) by congruence. subst x0. exists r. splits.
        -- rewrite (Hout i Hi). apply list_lookup_insert_eq. exact Hlt0.
        -- rewrite (DeepEqual_stable n s s (cur ++ e1) final);
             [|apply stable_refl|eapply stable_confined; eauto].
           rewrite <- Hd. symmetry. apply DeepEqual_stable; [|apply stable_refl].
           eapply stable_confined; [apply (clonable_confined _ _ _ Hc)|].
           unfold cur. apply agree_app.
        -- eapply confined_weaken; [eapply confined_agree; eauto| |].
           ++ unfold cur. rewrite length_app. simpl. lia.
           ++ unfold cur, final. rewrite !length_app. simpl. rewrite !length_app. lia.
      * destruct (Hin i0 x0 Hi0) as (r0 & Hr0 & Hd0 & Hc0); auto.
        { rewrite length_insert. exact Hlt0. }
        exists r0. splits; auto.
        eapply confined_weaken; [exact Hc0| |]; rewrite ?length_app; lia.
Qed.

Lemma copyMap_spec (src : loc) (kvs : list (value * value)) (keys : list value)
    (s : store) (fl : flag) :
  flagRO fl = false ->
  s !! src = Some (CMap kvs) ->
  (forall key, key ∈ keys ->
     plain key = true /\ clonable n s key = true /\
     exists e, mapIndex kvs key = Some e /\ clonable n s e = true) ->
  forall (new : list (value * value)) (tl : store),
  distinct (map fst new ++ keys) = true ->
  exists rs tl',
    copyMap rec (s ++ CMap new :: tl) fl src (length s) keys
      = Ok (s ++ CMap (new ++ rs) :: tl ++ tl') /\
    map fst rs = keys /\
    (forall kr, kr ∈ rs ->
       exists e, mapIndex kvs kr.1 = Some e /\
         DeepEqual n s (s ++ CMap (new ++ rs) :: tl ++ tl') e kr.2 = true /\
         confined (S (length s + length tl)) (length (s ++ CMap (new ++ rs) :: tl ++ tl'))
                  (s ++ CMap (new ++ rs) :: tl ++ tl') kr.2).
Proof.
  intros Hfl Hsrc. induction keys as [|key rest IH]; intros Hk new tl Hd.
  - exists [], []. rewrite !app_nil_r. splits; auto.
    intros kr Hkr. inversion Hkr.
  - destruct (Hk key) as (Hp & Hck & e & He & Hce); [apply elem_of_cons; auto|].
    assert (Hlt : (src < length s)%nat) by (eapply lookup_lt_Some; eauto).
    set (cur := s ++ CMap new :: tl).
    assert (Hfl' : flagRO (flagIndex false fl) = false).
    { unfold flagRO, flagIndex. simpl. rewrite orb_false_r. exact Hfl. }
    destruct (Hrec cur _ key Hfl' (clonable_app _ _ _ _ Hck))
      as (k' & e0 & Hrk & _ & _ & _ & Hpk).
    destruct (Hpk Hp) as [-> ->]. rewrite app_nil_r in Hrk.
    destruct (Hrec cur _ e Hfl' (clonable_app _ _ _ _ Hce))
      as (r & e1 & Hr & Htr & Hde & Hcf & _).
    destruct (mapAssign_new new key r) as [Hassign _].
    { pose proof (distinct_app_cons _ _ _ Hd) as G.
      rewrite forallb_elem_of in G. apply forallb_elem_of. intros kv Hkv. apply G.
      apply list_elem_of_fmap. exists kv. auto. }
    destruct (IH (fun k Hin => Hk k (proj2 (elem_of_cons _ _ _) (or_intror Hin)))
                (new ++ [(key, r)]) (tl ++ e1))
      as (rs & tl' & Hloop & Hkeys & Hin).
    { rewrite map_app. simpl. rewrite <- app_assoc. exact Hd. }
    exists ((key, r) :: rs), (e1 ++ tl').
    assert (Hfinal : s ++ CMap ((new ++ [(key, r)]) ++ rs) :: (tl ++ e1) ++ tl'
                     = s ++ CMap (new ++ (key, r) :: rs) :: tl ++ e1 ++ tl').
    { rewrite <- !app_assoc. reflexivity. }
    rewrite Hfinal in *. clear Hfinal.
    set (final := s ++ CMap (new ++ (key, r) :: rs) :: tl ++ e1 ++ tl') in *.
    assert (Hag : agree (length cur) (length (cur ++ e1)) (cur ++ e1) final).
    { unfold cur, final. rewrite app_current, (app_assoc tl e1 tl').
      eapply agree_weaken;
        [apply (agree_current s (tl ++ e1) tl' (CMap new) (CMap (new ++ (key, r) :: rs)))| |].
      - rewrite length_app. simpl. lia.
      - reflexivity. }
    splits.
    + cbn [copyMap]. fold cur. rewrite Hrk. cbn [bind fst snd].
      unfold cur at 1. rewrite lookup_under by exact Hlt. rewrite Hsrc, He.
      fold cur. rewrite Hr. cbn [bind fst snd].
      unfold cur. rewrite app_current, lookup_current, insert_current, Hassign.
      exact Hloop.
    + simpl. rewrite Hkeys. reflexivity.
    + intros kr Hkr. apply elem_of_cons in Hkr as [->|Hkr].
      * exists e. simpl. splits; [exact He| |].
        -- rewrite (DeepEqual_stable n s s (cur ++ e1) final);
             [|apply stable_refl|eapply stable_confined; eauto].
           rewrite <- Hde. symmetry. apply DeepEqual_stable; [|apply stable_refl].
           eapply stable_confined; [apply (clonable_confined _ _ _ Hce)|].
           unfold cur. apply agree_app.
        -- eapply confined_weaken; [eapply confined_agree; eauto| |].
           ++ unfold cur. rewrite length_app. simpl. lia.
           ++ unfold cur, final. rewrite !length_app. simpl. rewrite !length_app. lia.
      * destruct (Hin kr Hkr) as (e' & He' & Hd' & Hc').
        exists e'. splits; auto.
        eapply confined_weaken; [exact Hc'| |]; rewrite ?length_app; lia.
Qed.

Lemma typeOf_not_interface (d : value) :
  negb (bool_decide (kindOf d = KInterface)) = true ->
  type_eqb (typeOf d) TInterface = false.
Proof. destruct d; simpl; try reflexivity. vm_compute. discriminate. Qed.

Lemma lookup_fresh (st : store) (c : cell) : (st ++ [c]) !! length st = Some c.
Proof. apply list_lookup_middle. reflexivity. Qed.

(** One unfolding of [deepCopyValue] keeps the contract, one level
    deeper. *)
Lemma deepCopyBody_spec : copySpec (S n) (deepCopyBody rec).
Proof.
  intros st fl v Hfl Hc.
  destruct v as [b|z|str|t [l|]|t [h|]|t xs|k t [m|]|[d|]|sn fs];
    cbn [clonable] in Hc; unfold deepCopyBody; cbn [vdata vflag].
  - exists (VBool b), []. rewrite app_nil_r. unfold SetValue. simpl. rewrite Hfl. simpl.
    splits; auto; [destruct b; reflexivity|apply confined_plain; reflexivity].
  - exists (VInt z), []. rewrite app_nil_r. unfold SetValue. simpl. rewrite Hfl. simpl.
    splits; auto; [apply Z.eqb_refl|apply confined_plain; reflexivity].
  - exists (VString str), []. rewrite app_nil_r. unfold SetValue. simpl. rewrite Hfl. simpl.
    splits; auto; [apply String.eqb_refl|apply confined_plain; reflexivity].
  - (* a pointer *)
    destruct (st !! l) as [[w| |]|] eqn:Hl; try discriminate.
    apply andb_true_iff in Hc as [Ht Hc]. apply type_eqb_eq in Ht.
    unfold Elem. cbn [vdata vflag]. rewrite Hl.
    destruct (Hrec st (mkFlag true (flagStickyRO fl) (flagEmbedRO fl)) w Hfl Hc)
      as (r & e1 & Hr & Htr & Hd & Hcf & _).
    rewrite Hr. cbn [bind fst snd].
    rewrite (SetValue_copy (zero (typeOf r)) r) by (rewrite typeOf_zero; reflexivity).
    cbn [bind fst snd].
    exists (VPtr (typeOf r) (Some (length (st ++ e1)))), (e1 ++ [CVar r]).
    rewrite app_assoc.
    assert (Hag : agree (length st) (length (st ++ e1)) (st ++ e1) ((st ++ e1) ++ [CVar r]))
      by apply agree_app.
    splits.
    + reflexivity.
    + simpl. congruence.
    + cbn [DeepEqual]. rewrite Hl, lookup_fresh.
      replace (typeOf r) with t by congruence. rewrite type_eqb_refl. simpl.
      rewrite (DeepEqual_stable n st st (st ++ e1));
        [exact Hd|apply stable_refl|eapply stable_confined; eauto].
    + intros k Hk. apply reach_ptr_inv in Hk as [->|(w' & Hw' & Hk)].
      * rewrite !length_app. simpl. lia.
      * rewrite lookup_fresh in Hw'. inversion Hw'; subst.
        eapply confined_weaken; [eapply confined_agree; eauto| | |exact Hk];
          rewrite ?length_app; simpl; lia.
    + simpl. intros H. vm_compute in H. discriminate.
  - exists (VPtr t None), []. rewrite app_nil_r. simpl. rewrite type_eqb_refl.
    splits; auto. apply confined_plain. reflexivity.
  - (* a slice *)
    destruct (st !! sdata h) as [[|xs|]|] eqn:Hl; try discriminate.
    apply andb_true_iff in Hc as [Hc Hxs]. apply andb_true_iff in Hc as [Hcap Hlen].
    apply Nat.leb_le in Hcap. apply Nat.leb_le in Hlen.
    destruct (copySlice_spec t (sdata h) xs (seq 0 (slen h)) st fl Hfl Hl)
      with (ys := replicate (scap h) (zero t)) (tl := @nil cell)
      as (ys' & tl' & Hloop & Hlen' & _ & Hin).
    { apply NoDup_seq. }
    { intros i Hi. apply elem_of_seq in Hi.
      destruct (lookup_lt_is_Some_2 xs i) as [x Hx]; [lia|].
      exists x. split; [exact Hx|].
      rewrite forallb_elem_of in Hxs.
      assert (Hi' : (i < slen h)%nat) by lia.
      specialize (Hxs x (elem_of_take_lookup xs (slen h) i x Hi' Hx)).
      apply andb_true_iff in Hxs as [Hx1 Hx2]. apply type_eqb_eq in Hx1. auto. }
    rewrite length_replicate in Hlen'.
    change (st ++ [CArray (replicate (scap h) (zero t))])
      with (st ++ CArray (replicate (scap h) (zero t)) :: []).
    simpl in Hloop. rewrite Hloop. cbn [bind].
    simpl in Hin.
    exists (VSlice t (Some (mkSlice (length st) (slen h) (scap h)))), (CArray ys' :: tl').
    splits.
    + reflexivity.
    + reflexivity.
    + cbn [DeepEqual sdata slen]. rewrite Hl, lookup_current, type_eqb_refl, Nat.eqb_refl.
      simpl. apply all2_lookup.
      * rewrite !length_take_le by lia. reflexivity.
      * intros i x y Hx Hy.
        apply lookup_take_Some in Hx as [Hx Hi]. apply lookup_take_Some in Hy as [Hy _].
        destruct (Hin i x) as (r & Hr & Hd & _); auto.
        { apply elem_of_seq. lia. }
        { rewrite length_replicate. lia. }
        congruence.
    + intros k Hk. apply reach_slice_inv in Hk as [->|(zs & i & x & Hzs & Hi & Hx & Hk)];
        cbn [sdata slen] in *.
      * rewrite length_app. simpl. lia.
      * rewrite lookup_current in Hzs. inversion Hzs; subst.
        destruct (lookup_lt_is_Some_2 xs i) as [x0 Hx0]; [lia|].
        destruct (Hin i x0) as (r & Hr & _ & Hcf); auto.
        { apply elem_of_seq. lia. }
        { rewrite length_replicate. lia. }
        assert (x = r) by congruence. subst x.
        eapply confined_weaken; [exact Hcf| | |exact Hk]; lia.
    + simpl. intros H. vm_compute in H. discriminate.
  - exists (VSlice t None), []. rewrite app_nil_r. simpl. rewrite type_eqb_refl.
    splits; auto. apply confined_plain. reflexivity.
  - (* an array *)
    destruct (copyArray_spec t xs st fl Hfl Hc) as (rs & ext & Hrs & Hlen & Hd & Hcf & Hp).
    rewrite Hrs. cbn [bind fst snd]. exists (VArray t rs), ext. splits.
    + reflexivity.
    + simpl. rewrite Hlen. reflexivity.
    + cbn [DeepEqual]. rewrite type_eqb_refl. exact Hd.
    + intros k Hk. apply reach_array_inv in Hk as (x & Hx & Hk). eapply Hcf; eauto.
    + intros H. change (forallb plain xs = true) in H.
      destruct (Hp H) as [-> ->]. auto.
  - (* a map *)
    destruct (st !! m) as [[| |kvs]|] eqn:Hl; try discriminate.
    apply andb_true_iff in Hc as [Hdist Hkvs]. rewrite forallb_elem_of in Hkvs.
    destruct (copyMap_spec m kvs (map fst kvs) st fl Hfl Hl) with (new := @nil (value * value))
      (tl := @nil cell) as (rs & tl' & Hloop & Hkeys & Hin).
    { intros key Hkey. apply list_elem_of_fmap in Hkey as (kv & -> & Hkv).
      pose proof (Hkvs kv Hkv) as G. apply andb_true_iff in G as [G G2].
      apply andb_true_iff in G as [G0 G1]. splits; auto.
      apply list_elem_of_lookup in Hkv as [i Hi].
      exists kv.2. split; [eapply mapIndex_distinct; eauto|exact G2]. }
    { exact Hdist. }
    change (st ++ [CMap []]) with (st ++ CMap [] :: []).
    simpl in Hloop. rewrite Hloop. cbn [bind]. simpl in Hin.
    exists (VMap k t (Some (length st))), (CMap rs :: tl').
    assert (Hdr : distinct (map fst rs) = true) by (rewrite Hkeys; exact Hdist).
    splits.
    + reflexivity.
    + reflexivity.
    + cbn [DeepEqual]. rewrite Hl, lookup_current, !type_eqb_refl.
      assert (Hlen : length kvs = length rs).
      { rewrite <- (length_map fst kvs), <- Hkeys, length_map. reflexivity. }
      rewrite Hlen, Nat.eqb_refl. simpl.
      apply forallb_elem_of. intros kv Hkv.
      apply list_elem_of_lookup in Hkv as [i Hi].
      assert (Hri : exists kr, rs !! i = Some kr /\ kr.1 = kv.1).
      { assert (G : map fst rs !! i = Some kv.1).
        { rewrite Hkeys, list_lookup_fmap, Hi. reflexivity. }
        rewrite list_lookup_fmap in G. destruct (rs !! i) as [kr|]; [|discriminate].
        exists kr. split; [reflexivity|]. inversion G. reflexivity. }
      destruct Hri as (kr & Hri & Hkr).
      rewrite <- Hkr, (mapIndex_distinct rs i kr Hdr Hri).
      destruct (Hin kr (list_elem_of_lookup_2 _ _ _ Hri)) as (e & He & Hd & _).
      rewrite Hkr, (mapIndex_distinct kvs i kv Hdist Hi) in He.
      inversion He; subst. exact Hd.
    + intros l Hr.
      apply reach_map_inv in Hr as [->|(kvs' & kv & Hkvs' & Hkv & [Hr|Hr])].
      * rewrite length_app. simpl. lia.
      * rewrite lookup_current in Hkvs'. inversion Hkvs'; subst. exfalso.
        assert (Hp : plain kv.1 = true).
        { assert (G : kv.1 ∈ map fst kvs).
          { rewrite <- Hkeys. apply list_elem_of_fmap. exists kv. auto. }
          apply list_elem_of_fmap in G as (kv' & -> & Hkv').
          specialize (Hkvs kv' Hkv'). apply andb_true_iff in Hkvs as [G _].
          apply andb_true_iff in G as [G _]. exact G. }
        eapply plain_reach; eauto.
      * rewrite lookup_current in Hkvs'. inversion Hkvs'; subst.
        destruct (Hin kv Hkv) as (e & _ & _ & Hcf).
        eapply confined_weaken; [exact Hcf| | |exact Hr]; lia.
    + simpl. intros H. vm_compute in H. discriminate.
  - exists (VMap k t None), []. rewrite app_nil_r. simpl. rewrite !type_eqb_refl.
    splits; auto. apply confined_plain. reflexivity.
  - (* an interface *)
    apply andb_true_iff in Hc as [Hk Hc].
    unfold Elem. cbn [vdata vflag].
    assert (Hfl' : flagRO (mkFlag false (flagRO fl) false) = false).
    { unfold flagRO at 1. simpl. rewrite Hfl. reflexivity. }
    destruct (Hrec st _ d Hfl' Hc) as (r & e1 & Hr & Htr & Hd & Hcf & Hp).
    rewrite Hr. cbn [bind fst snd].
    unfold SetValue. simpl. rewrite Htr, (typeOf_not_interface d Hk). simpl.
    exists (VInterface (Some r)), e1. splits.
    + reflexivity.
    + reflexivity.
    + exact Hd.
    + intros l Hl. apply reach_interface_inv in Hl. apply Hcf. exact Hl.
    + intros H. change (plain d = true) in H. destruct (Hp H) as [-> ->]. auto.
  - exists (VInterface None), []. rewrite app_nil_r. simpl.
    splits; auto. apply confined_plain. reflexivity.
  - (* a struct *)
    destruct (copyFields_spec fs st fl Hfl Hc) as (rs & ext & Hrs & Hts & Hd & Hcf & Hp).
    rewrite Hrs. cbn [bind fst snd]. exists (VStruct sn rs), ext. splits.
    + reflexivity.
    + simpl. rewrite Hts. reflexivity.
    + cbn [DeepEqual]. rewrite String.eqb_refl. exact Hd.
    + intros k Hk. apply reach_struct_inv in Hk as (fv & Hfv & Hk). eapply Hcf; eauto.
    + intros H. change (forallb (fun fv => plain fv.2) fs = true) in H.
      destruct (Hp H) as [-> ->]. auto.
Qed.

End loops.

(** ** Clone: the contract of deepCopyValue *)

Lemma deepCopyValue_spec (n : nat) : copySpec n (deepCopyValue n).
Proof.
  induction n as [|n IH].
  - intros st fl v _ H. discriminate.
  - exact (deepCopyBody_spec n (deepCopyValue n) IH).
Qed.

(** A call that returns with some budget returns the same with more. *)
Section budget.
Variables rec rec' : store -> Value -> outcome (value * store).
Hypothesis Hmono : forall st v r, rec st v = Ok r -> rec' st v = Ok r.

Ltac step r0 s0 :=
  match goal with
  | H : context [rec ?st ?v] |- _ =>
      let E := fresh "E" in
      destruct (rec st v) as [[r0 s0]| |] eqn:E; try discriminate;
      rewrite (Hmono _ _ _ E); cbn [bind fst snd] in *
  end.

Lemma copyFields_mono (fs : list (fieldinfo * value)) (st : store) (fl : flag) r :
  copyFields rec st fl fs = Ok r -> copyFields rec' st fl fs = Ok r.
Proof.
  revert st r. induction fs as [|fv fs IH]; intros st r; cbn [copyFields]; [auto|].
  intros H. step r0 s0. destruct (SetValue _ _); try discriminate. cbn [bind] in *.
  destruct (copyFields rec _ fl fs) as [[rs s']| |] eqn:F; try discriminate.
  rewrite (IH _ _ F). exact H.
Qed.

Lemma copyArray_mono (xs : list value) (st : store) (fl : flag) r :
  copyArray rec st fl xs = Ok r -> copyArray rec' st fl xs = Ok r.
Proof.
  revert st r. induction xs as [|x xs IH]; intros st r; cbn [copyArray]; [auto|].
  intros H. step r0 s0. destruct (SetValue _ _); try discriminate. cbn [bind] in *.
  destruct (copyArray rec _ fl xs) as [[rs s']| |] eqn:F; try discriminate.
  rewrite (IH _ _ F). exact H.
Qed.

Lemma copySlice_mono (indices : list nat) (st : store) (fl : flag) t (src dst : loc) r :
  copySlice rec st fl t src dst indices = Ok r ->
  copySlice rec' st fl t src dst indices = Ok r.
Proof.
  revert st r. induction indices as [|i rest IH]; intros st r; cbn [copySlice]; [auto|].
  intros H. destruct (st !! src) as [[|xs|]|]; try discriminate.
  destruct (st !! dst) as [[|ys|]|]; try discriminate.
  destruct (xs !! i) as [x|]; try discriminate.
  step r0 s0. destruct (SetValue _ _); try discriminate. cbn [bind] in *.
  destruct (s0 !! dst) as [[|zs|]|]; try discriminate. apply IH. exact H.
Qed.

Lemma copyMap_mono (keys : list value) (st : store) (fl : flag) (src dst : loc) r :
  copyMap rec st fl src dst keys = Ok r ->
  copyMap rec' st fl src dst keys = Ok r.
Proof.
  revert st r. induction keys as [|key rest IH]; intros st r; cbn [copyMap]; [auto|].
  intros H. step k0 s0. destruct (s0 !! src) as [[| |kvs]|]; try discriminate.
  destruct (mapIndex kvs key) as [e|]; try discriminate.
  step r1 s1. destruct (s1 !! dst) as [[| |new]|]; try discriminate. apply IH. exact H.
Qed.

Lemma deepCopyBody_mono (st : store) (val : Value) r :
  deepCopyBody rec st val = Ok r -> deepCopyBody rec' st val = Ok r.
Proof.
  unfold deepCopyBody.
  destruct (vdata val) as [b|z|str|t [l|]|t [h|]|t xs|k t [m|]|[d|]|sn fs]; auto.
  - destruct (Elem st val) as [e|]; [|discriminate]. intros H. step r0 s0. exact H.
  - destruct (copySlice rec _ _ _ _ _ _) as [s'| |] eqn:F; try discriminate.
    rewrite (copySlice_mono _ _ _ _ _ _ _ F). auto.
  - destruct (copyArray rec _ _ _) as [[rs s']| |] eqn:F; try discriminate.
    rewrite (copyArray_mono _ _ _ _ F). auto.
  - destruct (st !! m) as [[| |kvs]|]; try discriminate.
    destruct (copyMap rec _ _ _ _ _) as [s'| |] eqn:F; try discriminate.
    rewrite (copyMap_mono _ _ _ _ _ _ F). auto.
  - destruct (Elem st val) as [e|]; [|discriminate]. intros H. step r0 s0. exact H.
  - destruct (copyFields rec _ _ _) as [[rs s']| |] eqn:F; try discriminate.
    rewrite (copyFields_mono _ _ _ _ F). auto.
Qed.

End budget.

Lemma deepCopyValue_mono (n m : nat) (st : store) (val : Value) r :
  (n <= m)%nat -> deepCopyValue n st val = Ok r -> deepCopyValue m st val = Ok r.
Proof.
  revert m st val r. induction n as [|n IH]; intros m st val r Hle H; [discriminate|].
  destruct m as [|m]; [lia|]. simpl in *.
  eapply deepCopyBody_mono; [|exact H]. intros st' v' r'. apply IH. lia.
Qed.

(** ** Clone *)


(** A record with a field that is not exported: [Clone] panics in the
    assignment of the copy of the field. *)
Lemma Clone_unexported_panics (fuel : nat) :
  Clone (S (S fuel)) [] (account "ann" 10) = Panic PanicUnexported.
Proof. reflexivity. Qed.



(** * Further properties of the package *)

(** ** Paths *)

(** [strings.Split] never yields the empty list. *)
Lemma Split_cons (s : string) : exists p ps, Split s dot = p :: ps.
Proof.
  induction s as [|c s [p [ps IH]]]; simpl; [eauto|].
  destruct (Ascii.eqb c dot); [eauto|]. rewrite IH. eauto.
Qed.

(** The segments of [p.q] are the segments of [p], then those of [q]. *)
Lemma Split_dot (p q : string) :
  Split (p ++ String dot q) dot = Split p dot ++ Split q dot.
Proof.
  induction p as [|c p IH]; simpl.
  - reflexivity.
  - destruct (Ascii.eqb c dot); [rewrite IH; reflexivity|].
    rewrite IH. destruct (Split_cons p) as (x & xs & ->). reflexivity.
Qed.

(** ** Has, Get and GetOrDefault *)

Lemma hasNested_returns (parts : list string) (val : Value) :
  kindOf (vdata val) = KStruct ->
  exists b, hasNestedFieldRecursive val parts = Ok b.
Proof.
  revert val. induction parts as [|name rest IH]; simpl; intros val Hk; [eauto|].
  destruct (vdata val) as [| | | | | | | |n fs]; try discriminate.
  destruct (findField name fs) as [[i fv]|]; [|eauto].
  destruct rest as [|name' rest']; [eauto|].
  destruct (bool_decide _) eqn:Hk'; [|eauto].
  apply bool_decide_eq_true in Hk'. apply IH. exact Hk'.
Qed.

Lemma hasNested_false_getNested (parts : list string) (val : Value) :
  hasNestedFieldRecursive val parts = Ok false ->
  getNestedFieldRecursive val parts = Ok (None, false).
Proof.
  revert val. induction parts as [|name rest IH]; simpl; intros val H; [reflexivity|].
  destruct (vdata val) as [| | | | | | | |n fs]; try discriminate.
  destruct (findField name fs) as [[i fv]|]; [|reflexivity].
  destruct rest as [|name' rest']; [discriminate|].
  destruct (bool_decide _); [|reflexivity].
  apply IH. exact H.
Qed.

Lemma hasNested_true_getNested (parts : list string) (val : Value) :
  hasNestedFieldRecursive val parts = Ok true ->
  (exists x, getNestedFieldRecursive val parts = Ok (x, true)) \/
  getNestedFieldRecursive val parts = Panic PanicUnexported.
Proof.
  revert val. induction parts as [|name rest IH]; simpl; intros val H; [discriminate|].
  destruct (vdata val) as [| | | | | | | |n fs]; try discriminate.
  destruct (findField name fs) as [[i fv]|]; [|discriminate].
  destruct rest as [|name' rest'].
  - unfold Interface. destruct (flagRO _); simpl; eauto.
  - destruct (bool_decide _); [|discriminate].
    apply IH. exact H.
Qed.

(** X2. [Has] never panics, and it decides what [Get] does: on a path that
    [Has] rejects [Get] returns [(nil, false)]; on a path that [Has]
    accepts [Get] returns a value with [true], or panics because the path
    leads through a field that is not exported. *)
Theorem Has_decides_Get (st : store) (obj : value) (p : string) :
  exists b,
    Has st obj p = Ok b /\
    if b
    then (exists x, Get st obj p = Ok (x, true)) \/ Get st obj p = Panic PanicUnexported
    else Get st obj p = Ok (None, false).
Proof.
  unfold Has, Get. destruct (indirect st (ValueOf (iface obj))) as [v|].
  - destruct (bool_decide _) eqn:Hk.
    + apply bool_decide_eq_true in Hk. simpl in Hk.
      destruct (hasNested_returns (Split p dot) v Hk) as [b Hb].
      exists b. split; [exact Hb|]. destruct b.
      * apply hasNested_true_getNested. exact Hb.
      * apply hasNested_false_getNested. exact Hb.
    + exists false. auto.
  - exists false. auto.
Qed.

(** X3. [GetOrDefault] returns the default on a path that [Has] rejects, and
    only there: on a path that [Has] accepts it returns what [Get]
    returns, whatever the default is, also when the field holds a zero
    value or nil. *)
Theorem GetOrDefault_Has (st : store) (obj : value) (p : string) (d : any) (b : bool) :
  Has st obj p = Ok b ->
  GetOrDefault st obj p d = if b then (do r <- Get st obj p; Ok r.1) else Ok d.
Proof.
  unfold GetOrDefault, Has, Get. destruct (indirect st (ValueOf (iface obj))) as [v|].
  - destruct (bool_decide _) eqn:Hk.
    + intros H. destruct b.
      * destruct (hasNested_true_getNested _ _ H) as [[x Hx]|Hx]; rewrite Hx; reflexivity.
      * rewrite (hasNested_false_getNested _ _ H). reflexivity.
    + intros H. inversion H. reflexivity.
  - intros H. inversion H. reflexivity.
Qed.

Lemma GetOrDefault_Has_witness :
  GetOrDefault [] (User "Alice" 0 "") "phone" (Some (VString "unknown"))
    = Ok (Some (VString "unknown")) /\
  GetOrDefault [] (User "Alice" 0 "") "Age" (Some (VInt 18)) = Ok (Some (VInt 0)).
Proof.
  split.
  - apply (GetOrDefault_Has [] (User "Alice" 0 "") "phone" _ false). reflexivity.
  - apply (GetOrDefault_Has [] (User "Alice" 0 "") "Age" _ true). reflexivity.
Defined.

(** ** Has and Fields *)

(** X4. For a path of one segment, [Has] tells whether the segment is among
    the names that [Fields] lists. *)
Theorem Has_Fields (st : store) (obj : value) (p : string) :
  Split p dot = [p] ->
  Has st obj p = Ok (bool_decide (p ∈ Fields st obj)).
Proof.
  intros Hp. unfold Has, Fields.
  destruct (indirect st (ValueOf (iface obj))) as [[fl d]|].
  - destruct d as [| | | | | | | |n fs];
      try (rewrite (bool_decide_eq_false_2 (p ∈ [])) by (apply not_elem_of_nil);
           rewrite bool_decide_eq_false_2 by discriminate; reflexivity).
    rewrite bool_decide_eq_true_2 by reflexivity. rewrite Hp.
    cbn [hasNestedFieldRecursive vdata].
    destruct (findField p fs) as [[i fv]|] eqn:Hf.
    + rewrite bool_decide_eq_true_2; [reflexivity|].
      apply findField_Some in Hf as [Hi Hn]. rewrite <- Hn.
      apply (list_elem_of_fmap_2 (fun fv => Name fv.1)).
      eapply list_elem_of_lookup_2. exact Hi.
    + rewrite bool_decide_eq_false_2; [reflexivity|].
      apply findField_None. exact Hf.
  - rewrite bool_decide_eq_false_2 by (apply not_elem_of_nil). reflexivity.
Qed.

Lemma Has_Fields_witness :
  Has [] (account "ann" 10) "owner" = Ok (bool_decide ("owner" ∈ Fields [] (account "ann" 10))).
Proof. apply Has_Fields. reflexivity. Defined.

Lemma hasNested_prefix (ps qs : list string) (val : Value) :
  ps <> [] ->
  hasNestedFieldRecursive val (ps ++ qs) = Ok true ->
  hasNestedFieldRecursive val ps = Ok true.
Proof.
  revert val. induction ps as [|name rest IH]; intros val Hne H; [congruence|].
  simpl in *.
  destruct (vdata val) as [| | | | | | | |n fs]; try discriminate.
  destruct (findField name fs) as [[i fv]|]; [|discriminate].
  destruct rest as [|name' rest']; [reflexivity|].
  simpl in H. destruct (bool_decide _); [|discriminate].
  apply IH; [discriminate|exact H].
Qed.

(** The paths that [Has] accepts are closed under prefixes: when [p.q]
    leads to a field, so does [p]. *)
Lemma Has_prefix (st : store) (obj : value) (p q : string) :
  Has st obj (p ++ "." ++ q)%string = Ok true -> Has st obj p = Ok true.
Proof.
  unfold Has. destruct (indirect st (ValueOf (iface obj))) as [v|]; [|discriminate].
  destruct (bool_decide _); [|discriminate].
  change (p ++ "." ++ q)%string with (p ++ String dot q)%string.
  rewrite Split_dot. apply hasNested_prefix.
  destruct (Split_cons p) as (x & xs & ->). discriminate.
Qed.

(** ** Reading through a reference *)

Lemma hasNested_flag (parts : list string) (d : value) (fl fl' : flag) :
  hasNestedFieldRecursive (mkValue fl d) parts = hasNestedFieldRecursive (mkValue fl' d) parts.
Proof.
  revert d fl fl'. induction parts as [|name rest IH]; intros d fl fl'; simpl; [reflexivity|].
  destruct d as [| | | | | | | |n fs]; try reflexivity.
  destruct (findField name fs) as [[i fv]|]; [|reflexivity].
  destruct rest as [|name' rest']; [reflexivity|].
  destruct (bool_decide _); [|reflexivity].
  apply IH.
Qed.

Lemma toMapLoop_flagAddr (fs : list (fieldinfo * value)) (a a' s e : bool)
    (m : gmap string any) :
  toMapLoop (mkFlag a s e) fs m = toMapLoop (mkFlag a' s e) fs m.
Proof.
  revert m. induction fs as [|fv fs IH]; intros m; simpl; [reflexivity|].
  unfold CanInterface, Interface, Field, fieldFlag, flagRO. simpl.
  destruct (negb (IsZero fv.2) && _); [|apply IH].
  destruct (_ || _); [reflexivity|]. simpl. apply IH.
Qed.

(** X5. The functions that read a record give the same result on a reference
    to the record as on the record passed by value. *)
Theorem read_through_reference (st : store) (obj : value) (t : type) (l : loc)
    (n : string) (fs : list (fieldinfo * value)) :
  iface obj = Some (VPtr t (Some l)) ->
  st !! l = Some (CVar (VStruct n fs)) ->
  (forall p, Get st obj p = Get st (VStruct n fs) p) /\
  (forall p d, GetOrDefault st obj p d = GetOrDefault st (VStruct n fs) p d) /\
  (forall p, Has st obj p = Has st (VStruct n fs) p) /\
  Fields st obj = Fields st (VStruct n fs) /\
  ToMap st obj = ToMap st (VStruct n fs).
Proof.
  intros Ho Hl.
  assert (Hi : indirect st (ValueOf (iface obj)) =
               Some (mkValue (mkFlag true false false) (VStruct n fs))).
  { rewrite Ho. unfold indirect, Elem. simpl. rewrite Hl. reflexivity. }
  assert (Hr : indirect st (ValueOf (iface (VStruct n fs))) =
               Some (mkValue (mkFlag false false false) (VStruct n fs))) by reflexivity.
  assert (HG : forall p, Get st obj p = Get st (VStruct n fs) p).
  { intros p. unfold Get. rewrite Hi, Hr. simpl. apply getNested_flagAddr. }
  splits.
  - exact HG.
  - intros p d. unfold GetOrDefault. rewrite HG. reflexivity.
  - intros p. unfold Has. rewrite Hi, Hr. simpl. apply hasNested_flag.
  - unfold Fields. rewrite Hi, Hr. reflexivity.
  - unfold ToMap. rewrite Hi, Hr. apply toMapLoop_flagAddr.
Qed.

Lemma read_through_reference_witness :
  let st := [CVar (User "Alice" 25 "alice@example.com")] in
  let obj := addressOf (User "" 0 "") 0 in
  let r := VStruct "User"
             [(named "Name", VString "Alice"); (named "Age", VInt 25);
              (named "Email", VString "alice@example.com");
              (named "Address", Address "" "" "")] in
  (forall p, Get st obj p = Get st r p) /\
  (forall p d, GetOrDefault st obj p d = GetOrDefault st r p d) /\
  (forall p, Has st obj p = Has st r p) /\
  Fields st obj = Fields st r /\
  ToMap st obj = ToMap st r.
Proof.
  apply (read_through_reference _ _ (typeOf (User "" 0 "")) 0%nat); reflexivity.
Defined.

(** ** Arguments that are not records *)

(** X6. What the functions do with an argument that, followed through one
    reference, is not a record (a number, a nil reference, a reference to
    a reference, nil): the readers report that nothing is there, [Set]
    returns the error that names the kind, and [Pick], [Omit] and [Clone]
    return the zero value of the type of the argument.  Nothing panics
    and the store is left as it is. *)
Theorem not_a_record (st : store) (obj : value) :
  Kind (indirect st (ValueOf (iface obj))) <> KStruct ->
  (forall p, Get st obj p = Ok (None, false)) /\
  (forall p d, GetOrDefault st obj p d = Ok d) /\
  (forall p, Has st obj p = Ok false) /\
  Fields st obj = [] /\
  ToMap st obj = Ok ∅ /\
  (forall p v, Set_ st obj p v =
     Ok (st, Some (ErrNonStruct (Kind (indirect st (ValueOf (iface obj))))))) /\
  (forall fields, Pick st obj fields = Ok (zero (typeOf obj))) /\
  (forall fields, Omit st obj fields = Ok (zero (typeOf obj))) /\
  (forall fuel, Clone fuel st obj = Ok (zero (typeOf obj), st)).
Proof.
  intros Hk.
  assert (HG : forall p, Get st obj p = Ok (None, false)).
  { intros p. unfold Get. destruct (indirect st (ValueOf (iface obj))) as [v|]; [|reflexivity].
    rewrite bool_decide_eq_false_2 by exact Hk. reflexivity. }
  splits.
  - exact HG.
  - intros p d. unfold GetOrDefault. rewrite HG. reflexivity.
  - intros p. unfold Has. destruct (indirect st (ValueOf (iface obj))) as [v|]; [|reflexivity].
    rewrite bool_decide_eq_false_2 by exact Hk. reflexivity.
  - unfold Fields. destruct (indirect st (ValueOf (iface obj))) as [[fl d]|]; [|reflexivity].
    destruct d; try reflexivity. exfalso. apply Hk. reflexivity.
  - unfold ToMap. destruct (indirect st (ValueOf (iface obj))) as [[fl d]|]; [|reflexivity].
    destruct d; try reflexivity. exfalso. apply Hk. reflexivity.
  - intros p v. unfold Set_. unfold indirect in *.
    destruct (if bool_decide (Kind (ValueOf (iface obj)) = KPtr)
              then ValueOf (iface obj) ≫= Elem st else ValueOf (iface obj)) as [w|];
      [|reflexivity].
    rewrite bool_decide_eq_false_2 by exact Hk. reflexivity.
  - intros fields. unfold Pick, subset.
    destruct (indirect st (ValueOf (iface obj))) as [[fl d]|]; [|reflexivity].
    destruct d; try reflexivity. exfalso. apply Hk. reflexivity.
  - intros fields. unfold Omit, subset.
    destruct (indirect st (ValueOf (iface obj))) as [[fl d]|]; [|reflexivity].
    destruct d; try reflexivity. exfalso. apply Hk. reflexivity.
  - intros fuel. unfold Clone. unfold indirect in *.
    destruct (if bool_decide (Kind (ValueOf (iface obj)) = KPtr)
              then ValueOf (iface obj) ≫= Elem st else ValueOf (iface obj)) as [w|];
      [|reflexivity].
    rewrite bool_decide_eq_false_2 by exact Hk. reflexivity.
Qed.

Lemma not_a_record_witness :
  let obj := VPtr (typeOf (User "" 0 "")) None in
  (forall p, Get [] obj p = Ok (None, false)) /\
  (forall p d, GetOrDefault [] obj p d = Ok d) /\
  (forall p, Has [] obj p = Ok false) /\
  Fields [] obj = [] /\
  ToMap [] obj = Ok ∅ /\
  (forall p v, Set_ [] obj p v = Ok ([], Some (ErrNonStruct KInvalid))) /\
  (forall fields, Pick [] obj fields = Ok obj) /\
  (forall fields, Omit [] obj fields = Ok obj) /\
  (forall fuel, Clone fuel [] obj = Ok (obj, [])).
Proof.
  apply (not_a_record [] (VPtr (typeOf (User "" 0 "")) None)). discriminate.
Defined.

(** ** Set *)

(** [Set] on a reference to a record: the recursion runs on the record
    behind the reference, which is addressable, and the record it yields
    is stored back. *)
Lemma Set_reference (st : store) (obj : value) (t : type) (l : loc) (r : value)
    (p : string) (v : any) :
  iface obj = Some (VPtr t (Some l)) ->
  st !! l = Some (CVar r) ->
  kindOf r = KStruct ->
  Set_ st obj p v =
    do x <- setNestedFieldRecursive (mkValue flagNew r) (Split p dot) v;
    Ok (<[l := CVar x.1]> st, x.2).
Proof.
  intros Ho Hl Hk. unfold Set_. rewrite Ho. simpl. unfold Elem. simpl. rewrite Hl.
  rewrite bool_decide_eq_true_2 by exact Hk. reflexivity.
Qed.

Lemma setNested_unaddressable (parts : list string) (val : Value) (v : any) r :
  flagAddr (vflag val) = false ->
  setNestedFieldRecursive val parts v <> Ok (r, None).
Proof.
  revert val r. induction parts as [|name rest IH]; simpl; intros val r Ha; [discriminate|].
  destruct (vdata val) as [| | | | | | | |n fs]; try discriminate.
  destruct (findField name fs) as [[i fv]|]; [|discriminate].
  destruct rest as [|name' rest'].
  - destruct (ValueOf v) as [valueVal|]; [|discriminate].
    destruct (AssignableTo _ _); [|discriminate].
    unfold SetValue, Field. simpl. rewrite Ha. simpl.
    destruct (flagRO _); discriminate.
  - destruct (bool_decide _); [|discriminate].
    unfold CanSet, Field. simpl. rewrite Ha. discriminate.
Qed.

(** X7. [Set] reports success only when it is given a reference, not
    nil, to a record: on a record passed by value, and on anything else,
    it returns an error or panics.  On success the store differs from
    the old one in the cell behind the reference only, and that cell
    still holds a record. *)
Theorem Set_success_reference (st st' : store) (obj : value) (p : string) (v : any) :
  Set_ st obj p v = Ok (st', None) ->
  exists t l r r',
    iface obj = Some (VPtr t (Some l)) /\
    st !! l = Some (CVar r) /\ kindOf r = KStruct /\
    st' = <[l := CVar r']> st /\ kindOf r' = KStruct.
Proof.
  unfold Set_. intros H. destruct (iface obj) as [d|] eqn:Ho; [|discriminate].
  destruct (bool_decide (Kind (ValueOf (Some d)) = KPtr)) eqn:Hp.
  - apply bool_decide_eq_true in Hp. simpl in Hp.
    destruct d as [| | |t [l|]| | | | |]; try discriminate; simpl in H.
    unfold Elem in H. simpl in H.
    destruct (st !! l) as [[w| |]|] eqn:Hl; try discriminate.
    destruct (bool_decide _) eqn:Hk; [|discriminate].
    apply bool_decide_eq_true in Hk. simpl in Hk.
    destruct (setNestedFieldRecursive _ _ _) as [[r1 e1]| |] eqn:Hr; try discriminate.
    simpl in H. inversion H; subst.
    exists t, l, w, r1. splits; auto.
    apply setNested_kind in Hr. rewrite Hr. exact Hk.
  - simpl in H. destruct (bool_decide (kindOf d = KStruct)); [|discriminate].
    destruct (setNestedFieldRecursive _ _ _) as [[r1 e1]| |] eqn:Hr; try discriminate.
    simpl in H.
    assert (e1 = None) by (destruct d as [| | |? [?|]| | | | |]; inversion H; reflexivity).
    subst e1. exfalso. revert Hr. apply setNested_unaddressable. reflexivity.
Qed.

Lemma Set_success_reference_witness :
  exists t l r r',
    iface (addressOf (User "" 0 "") 0) = Some (VPtr t (Some l)) /\
    [CVar (User "Alice" 25 "")] !! l = Some (CVar r) /\ kindOf r = KStruct /\
    [CVar (User "Alice" 30 "")] = <[l := CVar r']> [CVar (User "Alice" 25 "")] /\
    kindOf r' = KStruct.
Proof.
  apply (Set_success_reference [CVar (User "Alice" 25 "")] [CVar (User "Alice" 30 "")]
           (addressOf (User "" 0 "") 0) "Age" (Some (VInt 30))).
  reflexivity.
Defined.

Lemma hasNested_false_setNested (parts : list string) (val : Value) (v : any) :
  hasNestedFieldRecursive val parts = Ok false ->
  exists e, setNestedFieldRecursive val parts v = Ok (vdata val, Some e).
Proof.
  revert val. induction parts as [|name rest IH]; simpl; intros val H; [eauto|].
  destruct (vdata val) as [| | | | | | | |n fs] eqn:Hd; try discriminate.
  destruct (findField name fs) as [[i fv]|] eqn:Hf; [|eauto].
  destruct rest as [|name' rest']; [discriminate|].
  destruct (bool_decide _); [|eauto].
  destruct (CanSet _); [|eauto].
  destruct (IH _ H) as [e He]. rewrite He. simpl. exists e.
  apply findField_Some in Hf as [Hf _].
  rewrite list_insert_id; [reflexivity|]. rewrite Hf. destruct fv; reflexivity.
Qed.

(** X8. On a path that [Has] rejects, [Set] returns an error, whatever the
    replacement value is (nil included) and whether the record is passed
    by reference or by value: it does not panic and the store is left as
    it is. *)
Theorem Set_absent (st : store) (obj : value) (p : string) (v : any) :
  Has st obj p = Ok false ->
  exists e, Set_ st obj p v = Ok (st, Some e).
Proof.
  intros H. unfold Has, Set_, indirect in *.
  destruct (iface obj) as [d|] eqn:Ho; [|simpl; eauto].
  destruct d as [| | |t [l|]| | | | |n fs]; simpl in *; eauto.
  - unfold Elem in *. simpl in *. destruct (st !! l) as [[w| |]|] eqn:Hl; simpl in *; eauto.
    destruct (bool_decide (kindOf w = KStruct)); [|eauto].
    destruct (hasNested_false_setNested _ _ v H) as [e He].
    rewrite He. simpl. rewrite list_insert_id by exact Hl. eauto.
  - destruct (hasNested_false_setNested _ _ v H) as [e He].
    rewrite He. simpl. eauto.
Qed.

Lemma Set_absent_witness :
  exists e, Set_ [CVar (User "Alice" 25 "")] (addressOf (User "" 0 "") 0) "Address.Phone" None
            = Ok ([CVar (User "Alice" 25 "")], Some e).
Proof. apply Set_absent. reflexivity. Defined.

Lemma setNested_not_empty (parts : list string) (val : Value) (v : any) r e :
  parts <> [] ->
  setNestedFieldRecursive val parts v = Ok (r, Some e) -> e <> ErrEmptyPath.
Proof.
  revert val r. induction parts as [|name rest IH]; intros val r Hne; [congruence|].
  simpl. destruct (vdata val) as [| | | | | | | |n fs]; try discriminate.
  destruct (findField name fs) as [[i fv]|]; [|intros H; inversion H; discriminate].
  destruct rest as [|name' rest'].
  - destruct (ValueOf v) as [valueVal|]; [|discriminate].
    destruct (AssignableTo _ _); [|intros H; inversion H; discriminate].
    destruct (SetValue _ _); discriminate.
  - destruct (bool_decide _); [|intros H; inversion H; discriminate].
    destruct (CanSet _); [|intros H; inversion H; discriminate].
    destruct (setNestedFieldRecursive _ _ _) as [[r1 e1]| |] eqn:Hr; try discriminate.
    simpl. intros H. inversion H; subst. eapply IH; [discriminate|exact Hr].
Qed.

(** X9. Every error of [Set] is atomic: the store is left as it was.  And
    the error is never the one for an empty path, since a split path has
    at least one segment. *)
Theorem Set_error_atomic (st st' : store) (obj : value) (p : string) (v : any) (e : error) :
  Set_ st obj p v = Ok (st', Some e) -> st' = st /\ e <> ErrEmptyPath.
Proof.
  unfold Set_. destruct (iface obj) as [d|]; simpl;
    [|intros H; inversion H; split; [reflexivity|discriminate]].
  assert (Hne : Split p dot <> []) by (destruct (Split_cons p) as (x & xs & ->); discriminate).
  destruct d as [| | |t [l|]| | | | |n fs]; simpl;
    try (intros H; inversion H; split; [reflexivity|discriminate]).
  - unfold Elem. simpl.
    destruct (st !! l) as [[w| |]|] eqn:Hl; simpl;
      try (intros H; inversion H; split; [reflexivity|discriminate]).
    destruct (bool_decide _); [|intros H; inversion H; split; [reflexivity|discriminate]].
    destruct (setNestedFieldRecursive _ _ _) as [[r1 e1]| |] eqn:Hr; try discriminate.
    simpl. intros H. inversion H; subst. split.
    + apply setNested_error_unchanged in Hr. simpl in Hr. subst.
      apply list_insert_id. exact Hl.
    + eapply setNested_not_empty; eauto.
  - destruct (setNestedFieldRecursive _ _ _) as [[r1 e1]| |] eqn:Hr; try discriminate.
    simpl. intros H; inversion H; subst. split; [reflexivity|].
    eapply setNested_not_empty; eauto.
Qed.

Lemma Set_error_atomic_witness :
  [CVar (User "Alice" 25 "")] = [CVar (User "Alice" 25 "")] /\
  ErrNotStruct "Name" <> ErrEmptyPath.
Proof.
  apply (Set_error_atomic [CVar (User "Alice" 25 "")] [CVar (User "Alice" 25 "")]
           (addressOf (User "" 0 "") 0) "Name.First" (Some (VString "Al"))).
  reflexivity.
Defined.

Lemma Set_reference_returns_witness :
  exists st' e,
    Set_ [CVar (account "ann" 10)] (addressOf (account "" 0) 0) "Balance" (Some (VString "x"))
      = Ok (st', e).
Proof.
  apply (Set_reference_returns _ _ (typeOf (account "" 0)) (Some 0%nat) "Balance" "Balance");
    reflexivity.
Defined.

Lemma terminalField_nil (parts : list string) (val field : Value) :
  terminalField val parts = Some field ->
  setNestedFieldRecursive val parts None = Panic PanicZeroValue.
Proof.
  revert val. induction parts as [|name rest IH]; simpl; intros val H; [discriminate|].
  destruct (vdata val) as [| | | | | | | |n fs]; try discriminate.
  destruct (findField name fs) as [[i fv]|]; [|discriminate].
  destruct rest as [|name' rest']; [reflexivity|].
  destruct (bool_decide _); [|discriminate]. cbn [andb] in H.
  destruct (CanSet _); [|discriminate].
  rewrite (IH _ H). reflexivity.
Qed.

(** X10. A nil replacement value makes [Set] panic on every path that leads
    to a field, whatever the type of the field is: [Set] asks for the
    type of the value before it looks at the field, and nil has none. *)
Theorem Set_nil_panics (st : store) (obj : value) (t : type) (l : loc) (r : value)
    (p : string) (field : Value) :
  iface obj = Some (VPtr t (Some l)) ->
  st !! l = Some (CVar r) ->
  terminalField (mkValue flagNew r) (Split p dot) = Some field ->
  Set_ st obj p None = Panic PanicZeroValue.
Proof.
  intros Ho Hl Ht.
  assert (Hk : kindOf r = KStruct).
  { destruct (Split_cons p) as (x & xs & Hs). rewrite Hs in Ht. simpl in Ht.
    destruct r; try discriminate. reflexivity. }
  rewrite (Set_reference st obj t l r p None Ho Hl Hk).
  rewrite (terminalField_nil _ _ _ Ht). reflexivity.
Qed.

Lemma Set_nil_panics_witness :
  Set_ [CVar (Profile None 3)] (addressOf (Profile None 0) 0) "Owner" None
    = Panic PanicZeroValue.
Proof.
  apply (Set_nil_panics _ _ (typeOf (Profile None 0)) 0%nat (Profile None 3) "Owner"
           (mkValue flagNew (VPtr (typeOf (User "" 0 "")) None)));
    reflexivity.
Defined.

(** *** What a successful Set leaves as it was *)

Lemma SetValue_typeOf (v x : Value) (r : value) :
  SetValue v x = Ok r -> typeOf r = typeOf (vdata v).
Proof.
  unfold SetValue. destruct (flagRO (vflag v)); [discriminate|].
  destruct (negb _); [discriminate|].
  destruct (flagRO (vflag x)); [discriminate|].
  destruct (type_eqb (typeOf (vdata x)) (typeOf (vdata v))) eqn:E.
  - intros H. inversion H. apply type_eqb_eq. exact E.
  - destruct (type_eqb (typeOf (vdata v)) TInterface) eqn:E'; [|discriminate].
    intros H. inversion H. simpl. symmetry. apply type_eqb_eq. exact E'.
Qed.

Lemma typeOf_insert (n : string) (fs : list (fieldinfo * value)) (i : nat)
    (fv : fieldinfo * value) (x : value) :
  fs !! i = Some fv -> typeOf x = typeOf fv.2 ->
  typeOf (VStruct n (<[i := (fv.1, x)]> fs)) = typeOf (VStruct n fs).
Proof.
  intros Hi Hx. simpl. f_equal. rewrite list_fmap_insert. simpl. rewrite Hx.
  apply list_insert_id. rewrite list_lookup_fmap, Hi. reflexivity.
Qed.

Lemma setNested_typeOf (parts : list string) (val : Value) (v : any) r e :
  setNestedFieldRecursive val parts v = Ok (r, e) ->
  typeOf r = typeOf (vdata val).
Proof.
  revert val r e. induction parts as [|name rest IH]; simpl; intros val r e H.
  - inversion H. reflexivity.
  - destruct (vdata val) as [| | | | | | | |n fs] eqn:Hd; try discriminate.
    destruct (findField name fs) as [[i fv]|] eqn:Hf; [|inversion H; reflexivity].
    apply findField_Some in Hf as [Hf _].
    destruct rest as [|name' rest'].
    + destruct (ValueOf v) as [valueVal|]; [|discriminate].
      destruct (AssignableTo _ _); [|inversion H; reflexivity].
      destruct (SetValue _ _) as [x| |] eqn:Hs; try discriminate.
      simpl in H. inversion H; subst. apply SetValue_typeOf in Hs.
      apply typeOf_insert; assumption.
    + destruct (bool_decide _); [|inversion H; reflexivity].
      destruct (CanSet _); [|inversion H; reflexivity].
      destruct (setNestedFieldRecursive _ _ _) as [[r1 e1]| |] eqn:Hr; try discriminate.
      simpl in H. inversion H; subst. apply IH in Hr.
      apply typeOf_insert; assumption.
Qed.

Lemma findField_insert_ne (name name' : string) (fs : list (fieldinfo * value)) i fv x :
  findField name fs = Some (i, fv) -> name' <> name ->
  findField name' (<[i := (fv.1, x)]> fs) = findField name' fs.
Proof.
  revert i. induction fs as [|gv fs IH]; simpl; intros i H Hne; [discriminate|].
  destruct (String.eqb (Name gv.1) name) eqn:E.
  - inversion H; subst. simpl. apply String.eqb_eq in E.
    destruct (String.eqb (Name fv.1) name') eqn:E'; [|reflexivity].
    apply String.eqb_eq in E'. congruence.
  - destruct (findField name fs) as [[j r]|] eqn:F; [|discriminate].
    inversion H; subst. simpl. rewrite (IH j); auto.
Qed.

Lemma setNested_shape (name : string) (rest : list string) (val : Value) (v : any)
    n fs r e :
  vdata val = VStruct n fs ->
  setNestedFieldRecursive val (name :: rest) v = Ok (r, e) ->
  r = VStruct n fs \/
  exists i fv x, findField name fs = Some (i, fv) /\ r = VStruct n (<[i := (fv.1, x)]> fs).
Proof.
  intros Hd H. simpl in H. rewrite Hd in H.
  destruct (findField name fs) as [[i fv]|] eqn:Hf; [|inversion H; auto].
  destruct rest as [|name' rest'].
  - destruct (ValueOf v) as [valueVal|]; [|discriminate].
    destruct (AssignableTo _ _); [|inversion H; auto].
    destruct (SetValue _ _) as [x| |]; try discriminate.
    simpl in H. inversion H. right. eauto.
  - destruct (bool_decide _); [|inversion H; auto].
    destruct (CanSet _); [|inversion H; auto].
    destruct (setNestedFieldRecursive _ _ _) as [[r1 e1]| |]; try discriminate.
    simpl in H. inversion H. right. eauto.
Qed.

(** X11. A successful [Set] keeps the type of the record, hence the names
    that [Fields] lists, and changes nothing under the other fields of
    the record: [Get] on a path that starts with another name returns
    what it returned before. *)
Theorem Set_frame (st st' : store) (obj : value) (t : type) (l : loc) (r : value)
    (p : string) (v : any) :
  iface obj = Some (VPtr t (Some l)) ->
  st !! l = Some (CVar r) ->
  Set_ st obj p v = Ok (st', None) ->
  exists r',
    st' = <[l := CVar r']> st /\
    typeOf r' = typeOf r /\
    Fields st' obj = Fields st obj /\
    forall q, head (Split q dot) <> head (Split p dot) -> Get st' obj q = Get st obj q.
Proof.
  intros Ho Hl H.
  assert (Hk : kindOf r = KStruct).
  { unfold Set_ in H. rewrite Ho in H. simpl in H. unfold Elem in H. simpl in H.
    rewrite Hl in H. simpl in H.
    destruct (bool_decide (kindOf r = KStruct)) eqn:Hk; [|discriminate].
    apply bool_decide_eq_true in Hk. exact Hk. }
  rewrite (Set_reference st obj t l r p v Ho Hl Hk) in H.
  destruct (setNestedFieldRecursive _ _ _) as [[r' e]| |] eqn:Hr; try discriminate.
  simpl in H. inversion H; subst. clear H.
  assert (Hl' : <[l := CVar r']> st !! l = Some (CVar r')).
  { apply list_lookup_insert_eq. eapply lookup_lt_Some. exact Hl. }
  pose proof (setNested_typeOf _ _ _ _ _ Hr) as Ht. simpl in Ht.
  destruct r as [| | | | | | | |n fs]; try discriminate.
  destruct (Split_cons p) as (name & rest & Hs). rewrite Hs in Hr.
  assert (Hs' : r' = VStruct n fs \/
                exists i fv x, findField name fs = Some (i, fv) /\
                               r' = VStruct n (<[i := (fv.1, x)]> fs)).
  { eapply setNested_shape; [|exact Hr]. reflexivity. }
  exists r'. splits; auto.
  - unfold Fields. rewrite Ho. unfold indirect, Elem. simpl. rewrite Hl, Hl'.
    destruct Hs' as [->|(i & fv & x & Hf & ->)]; [reflexivity|].
    apply findField_Some in Hf as [Hi _].
    rewrite list_fmap_insert. apply list_insert_id.
    rewrite list_lookup_fmap, Hi. reflexivity.
  - intros q Hq. unfold Get. rewrite Ho. unfold indirect, Elem. simpl. rewrite Hl, Hl'.
    destruct Hs' as [->|(i & fv & x & Hf & ->)]; [reflexivity|].
    simpl. destruct (Split_cons q) as (name' & rest' & Hq'). rewrite Hq', Hs in *.
    simpl in Hq. simpl.
    rewrite (findField_insert_ne name name' fs i fv x Hf) by congruence.
    reflexivity.
Qed.

Lemma Set_frame_witness :
  let st := [CVar (User "Alice" 25 "")] in
  let st' := [CVar (User "Alice" 30 "")] in
  let obj := addressOf (User "" 0 "") 0 in
  exists r',
    st' = <[0%nat := CVar r']> st /\
    typeOf r' = typeOf (User "Alice" 25 "") /\
    Fields st' obj = Fields st obj /\
    forall q, head (Split q dot) <> head (Split "Age" dot) -> Get st' obj q = Get st obj q.
Proof.
  apply (Set_frame [CVar (User "Alice" 25 "")] [CVar (User "Alice" 30 "")]
           (addressOf (User "" 0 "") 0) (typeOf (User "" 0 "")) 0%nat (User "Alice" 25 "")
           "Age" (Some (VInt 30))); reflexivity.
Defined.

Lemma getNested_setNested_same (parts : list string) (val : Value) (d : value) :
  getNestedFieldRecursive val parts = Ok (Some d, true) ->
  flagAddr (vflag val) = true ->
  wellFormed (vdata val) = true ->
  exists e, setNestedFieldRecursive val parts (Some d) = Ok (vdata val, e).
Proof.
  revert val. induction parts as [|name rest IH]; simpl; intros val H Ha Hw; [discriminate|].
  destruct (vdata val) as [| | | | | | | |n fs] eqn:Hd; try discriminate.
  destruct (findField name fs) as [[i fv]|] eqn:Hf; [|discriminate].
  apply findField_Some in Hf as [Hi _].
  assert (Hwf : wellFormed fv.2 = true).
  { simpl in Hw. rewrite forallb_elem_of in Hw. apply (Hw fv).
    eapply list_elem_of_lookup_2. exact Hi. }
  assert (Hid : forall x, x = fv.2 -> VStruct n (<[i := (fv.1, x)]> fs) = VStruct n fs).
  { intros x ->. rewrite list_insert_id; [reflexivity|]. rewrite Hi. destruct fv; reflexivity. }
  destruct rest as [|name' rest'].
  - unfold Interface in H. destruct (flagRO (vflag (Field (vflag val) fv))) eqn:Hro;
      [discriminate|].
    cbn [bind] in H. inversion H as [Hx]. clear H.
    assert (Hc : fv.2 = d \/
                 (fv.2 = VInterface (Some d) /\ type_eqb (typeOf d) TInterface = false)).
    { cbn [Field vdata] in Hx. destruct (fv.2) as [| | | | | | | [d'|] |];
        simpl in Hx; inversion Hx; subst; auto.
      right. split; [reflexivity|].
      simpl in Hwf. apply andb_true_iff in Hwf as [Hni _].
      apply typeOf_not_interface. exact Hni. }
    cbn [ValueOf vdata Field].
    unfold SetValue. rewrite Hro. cbn [vflag vdata Field fieldFlag flagAddr flagRO
                                        flagStickyRO flagEmbedRO negb orb].
    rewrite Ha. cbn [negb].
    destruct Hc as [Hc|[Hc Hni]]; rewrite Hc.
    + unfold AssignableTo. rewrite type_eqb_refl. cbn [orb bind].
      rewrite Hid by (symmetry; exact Hc). eauto.
    + unfold AssignableTo. cbn [typeOf]. rewrite Hni. cbn [type_eqb orb bind].
      rewrite Hid by (symmetry; exact Hc). eauto.
  - destruct (bool_decide _); [|discriminate].
    destruct (CanSet _); [|eauto].
    destruct (IH _ H Ha Hwf) as [e He]. rewrite He. simpl.
    rewrite Hid by reflexivity. eauto.
Qed.

(** X12. Writing back what was just read changes nothing: when [Get] returns
    a value for a path through a reference to a record, [Set] with that
    path and that value returns and leaves the store as it was. *)
Theorem Get_Set_same (st : store) (obj : value) (t : type) (l : loc) (r : value)
    (p : string) (d : value) :
  iface obj = Some (VPtr t (Some l)) ->
  st !! l = Some (CVar r) ->
  wellFormed r = true ->
  Get st obj p = Ok (Some d, true) ->
  exists e, Set_ st obj p (Some d) = Ok (st, e).
Proof.
  intros Ho Hl Hw H.
  unfold Get in H. rewrite Ho in H. unfold indirect, Elem in H. simpl in H.
  rewrite Hl in H. simpl in H.
  destruct (bool_decide (kindOf r = KStruct)) eqn:Hk; [|discriminate].
  apply bool_decide_eq_true in Hk.
  rewrite (Set_reference st obj t l r p _ Ho Hl Hk).
  destruct (getNested_setNested_same _ _ _ H eq_refl Hw) as [e He].
  unfold flagNew. rewrite He. simpl. rewrite list_insert_id by exact Hl. eauto.
Qed.

Lemma Get_Set_same_witness :
  exists e, Set_ [CVar (User "Alice" 25 "")] (addressOf (User "" 0 "") 0) "Address.City"
                 (Some (VString "")) = Ok ([CVar (User "Alice" 25 "")], e).
Proof.
  apply (Get_Set_same _ _ (typeOf (User "" 0 "")) 0%nat (User "Alice" 25 "")); reflexivity.
Defined.

(** ** Has and Fields look at the type only *)

Lemma findField_typeOf (name : string) (fs gs : list (fieldinfo * value)) :
  map (fun fv => (fv.1, typeOf fv.2)) fs = map (fun fv => (fv.1, typeOf fv.2)) gs ->
  match findField name fs, findField name gs with
  | Some (i, fv), Some (j, gv) => i = j /\ fv.1 = gv.1 /\ typeOf fv.2 = typeOf gv.2
  | None, None => True
  | _, _ => False
  end.
Proof.
  revert gs. induction fs as [|[f x] fs IH]; intros [|[g y] gs] H; try discriminate;
    simpl; [exact I|].
  simpl in H. inversion H as [[H1 H2 H3]]. subst g.
  destruct (String.eqb (Name f) name); [auto|].
  specialize (IH gs H3).
  destruct (findField name fs) as [[i fv]|], (findField name gs) as [[j gv]|]; auto.
  destruct IH as (-> & ? & ?). auto.
Qed.

Lemma hasNested_typeOf (parts : list string) (d d' : value) (fl fl' : flag) :
  typeOf d = typeOf d' ->
  hasNestedFieldRecursive (mkValue fl d) parts = hasNestedFieldRecursive (mkValue fl' d') parts.
Proof.
  revert d d' fl fl'. induction parts as [|name rest IH]; intros d d' fl fl' Ht; [reflexivity|].
  simpl. destruct d as [| | | | | | | |n fs], d' as [| | | | | | | |n' fs'];
    try discriminate; try reflexivity.
  simpl in Ht. inversion Ht as [[Hn Hm]].
  pose proof (findField_typeOf name fs fs' Hm) as Hf.
  destruct (findField name fs) as [[i fv]|], (findField name fs') as [[j gv]|];
    try contradiction; [|reflexivity].
  destruct Hf as (_ & _ & Hty).
  destruct rest as [|name' rest']; [reflexivity|].
  unfold Field. simpl.
  rewrite <- (kindOf_typeOf fv.2), <- (kindOf_typeOf gv.2), Hty.
  destruct (bool_decide _); [|reflexivity].
  apply IH. exact Hty.
Qed.

(** X13. [Has] and [Fields] depend on the type of the record only, not on
    the values it holds: two records of one type have the same names
    and the same paths, whatever stores they are read in. *)
Theorem Has_Fields_type (st st' : store) (n n' : string) (fs fs' : list (fieldinfo * value)) :
  typeOf (VStruct n fs) = typeOf (VStruct n' fs') ->
  Fields st (VStruct n fs) = Fields st' (VStruct n' fs') /\
  forall p, Has st (VStruct n fs) p = Has st' (VStruct n' fs') p.
Proof.
  intros Ht. split.
  - unfold Fields. simpl. simpl in Ht. inversion Ht as [[Hn Hm]].
    apply (f_equal (map (fun ft : fieldinfo * type => Name ft.1))) in Hm.
    rewrite !map_map in Hm. exact Hm.
  - intros p. unfold Has. simpl. apply hasNested_typeOf. exact Ht.
Qed.

Lemma Has_Fields_type_witness :
  Fields [] (User "Alice" 25 "") = Fields [CVar (VInt 1)] (User "" 0 "") /\
  forall p, Has [] (User "Alice" 25 "") p = Has [CVar (VInt 1)] (User "" 0 "") p.
Proof.
  apply (Has_Fields_type [] [CVar (VInt 1)] "User"  "User"
           [(named "Name", VString "Alice"); (named "Age", VInt 25);
            (named "Email", VString ""); (named "Address", Address "" "" "")]
           [(named "Name", VString ""); (named "Age", VInt 0);
            (named "Email", VString ""); (named "Address", Address "" "" "")]).
  reflexivity.
Defined.

(** ** ToMap and FromMap *)

(** X14. [ToMap] never panics, on any argument.  Every key of the map is the
    name of an exported field of the record, and no key maps to nil. *)
Theorem ToMap_entries (st : store) (obj : value) :
  exists m,
    ToMap st obj = Ok m /\
    forall k x, m !! k = Some x ->
      k ∈ Fields st obj /\ IsExported k = true /\ x <> None.
Proof.
  unfold ToMap, Fields.
  destruct (indirect st (ValueOf (iface obj))) as [[fl d]|];
    [|exists ∅; split; [reflexivity|]; intros k x H; rewrite lookup_empty in H; discriminate].
  destruct d as [| | | | | | | |n fs];
    try (exists ∅; split; [reflexivity|]; intros k x H; rewrite lookup_empty in H;
         discriminate).
  rewrite toMapLoop_fold. eexists. split; [reflexivity|].
  intros k x H. apply toMap_fold_lookup in H as [H|(fv & Hin & He & Hn & Hx)].
  - rewrite lookup_empty in H. discriminate.
  - apply entered_exported in He as [He Hz]. subst k. splits.
    + apply (list_elem_of_fmap_2 (fun fv => Name fv.1)). exact Hin.
    + exact He.
    + subst x. destruct (fv.2) as [| | | | | | | [d|] |]; simpl in *; discriminate.
Qed.

Lemma findField_NoDup (fs : list (fieldinfo * value)) (i : nat) (fv : fieldinfo * value) :
  NoDup (map (fun fv => Name fv.1) fs) ->
  fs !! i = Some fv ->
  findField (Name fv.1) fs = Some (i, fv).
Proof.
  revert i. induction fs as [|gv fs IH]; intros i Hnd Hi; [discriminate|].
  simpl in Hnd. apply NoDup_cons in Hnd as [Hnot Hnd]. simpl.
  destruct i as [|i]; simpl in Hi.
  - inversion Hi; subst. rewrite String.eqb_refl. reflexivity.
  - destruct (String.eqb (Name gv.1) (Name fv.1)) eqn:E.
    + apply String.eqb_eq in E. exfalso. apply Hnot. rewrite E.
      apply (list_elem_of_fmap_2 (fun fv => Name fv.1)).
      eapply list_elem_of_lookup_2. exact Hi.
    + rewrite (IH i Hnd Hi). reflexivity.
Qed.

(** With distinct field names, the entry of a key in the result of the
    loop of [ToMap] is decided by the field of that name. *)
Lemma toMap_fold_find (fl : flag) (fs : list (fieldinfo * value)) (m : gmap string any)
    (k : string) :
  NoDup (map (fun fv => Name fv.1) fs) ->
  foldl (fun m fv => if entered fl fv then <[Name fv.1 := iface fv.2]> m else m) m fs !! k =
  match findField k fs with
  | Some (_, fv) => if entered fl fv then Some (iface fv.2) else m !! k
  | None => m !! k
  end.
Proof.
  revert m. induction fs as [|fv fs IH]; intros m Hnd; [reflexivity|].
  simpl in Hnd. apply NoDup_cons in Hnd as [Hnot Hnd]. simpl. rewrite (IH _ Hnd).
  destruct (String.eqb (Name fv.1) k) eqn:E.
  - apply String.eqb_eq in E. subst k.
    destruct (findField (Name fv.1) fs) as [[j gv]|] eqn:F.
    + exfalso. apply findField_Some in F as [Hj Hn]. apply Hnot. rewrite <- Hn.
      apply (list_elem_of_fmap_2 (fun fv => Name fv.1)).
      eapply list_elem_of_lookup_2. exact Hj.
    + destruct (entered fl fv); [apply lookup_insert_eq|reflexivity].
  - assert (Hne : Name fv.1 <> k) by (apply String.eqb_neq; exact E).
    assert (Hm : (if entered fl fv then <[Name fv.1 := iface fv.2]> m else m) !! k = m !! k).
    { destruct (entered fl fv); [apply lookup_insert_ne; exact Hne|reflexivity]. }
    destruct (findField k fs) as [[j gv]|]; [|exact Hm].
    destruct (entered fl gv); [reflexivity|exact Hm].
Qed.

(** X15. What [ToMap] holds under a key is what [Get] returns for the key:
    on a record with distinct field names, for a key of one segment. *)
Theorem ToMap_Get (st : store) (obj : value) (fl : flag) n fs (m : gmap string any)
    (k : string) (x : any) :
  indirect st (ValueOf (iface obj)) = Some (mkValue fl (VStruct n fs)) ->
  NoDup (map (fun fv => Name fv.1) fs) ->
  ToMap st obj = Ok m ->
  Split k dot = [k] ->
  m !! k = Some x ->
  Get st obj k = Ok (x, true).
Proof.
  intros Ho Hnd Hm Hk Hx. unfold ToMap in Hm. rewrite Ho, toMapLoop_fold in Hm.
  inversion Hm; subst m. clear Hm.
  rewrite (toMap_fold_find fl fs ∅ k Hnd) in Hx.
  unfold Get. rewrite Ho. rewrite bool_decide_eq_true_2 by reflexivity.
  rewrite Hk. cbn [getNestedFieldRecursive vdata vflag].
  destruct (findField k fs) as [[i fv]|];
    [|rewrite lookup_empty in Hx; discriminate].
  destruct (entered fl fv) eqn:He; [|rewrite lookup_empty in Hx; discriminate].
  inversion Hx; subst x.
  unfold entered in He. apply andb_true_iff in He as [_ He].
  unfold CanInterface in He. apply negb_true_iff in He.
  unfold Interface. rewrite He. reflexivity.
Qed.

Lemma ToMap_Get_witness :
  Get [] (User "Alice" 25 "") "Age" = Ok (Some (VInt 25), true).
Proof.
  apply (ToMap_Get [] (User "Alice" 25 "") flagCopy "User"
           [(named "Name", VString "Alice"); (named "Age", VInt 25);
            (named "Email", VString ""); (named "Address", Address "" "" "")]
           (<["Age" := Some (VInt 25)]> (<["Name" := Some (VString "Alice")]> ∅))).
  - reflexivity.
  - apply (bool_decide_unpack _). vm_compute. exact I.
  - reflexivity.
  - reflexivity.
  - reflexivity.
Defined.

Lemma forFields_fmap (step : fieldinfo * value -> outcome value)
    (h : fieldinfo * value -> fieldinfo * value) (g : fieldinfo * value -> value)
    (fs : list (fieldinfo * value)) :
  (forall fv, fv ∈ fs -> step (h fv) = Ok (g fv)) ->
  forFields step (map h fs) = Ok (map (fun fv => ((h fv).1, g fv)) fs).
Proof.
  induction fs as [|fv fs IH]; intros H; simpl; [reflexivity|].
  rewrite (H fv) by (apply elem_of_cons; auto). simpl.
  rewrite IH; [reflexivity|]. intros x Hx. apply H. apply elem_of_cons; auto.
Qed.

(** X16. [FromMap] after [ToMap] gives the record back, with the fields that
    are not exported set to zero: for a record with distinct field
    names.  A record whose fields are all exported is restored as it
    was. *)
Theorem ToMap_FromMap (st : store) n fs (m : gmap string any) :
  wellFormed (VStruct n fs) = true ->
  NoDup (map (fun fv => Name fv.1) fs) ->
  ToMap st (VStruct n fs) = Ok m ->
  FromMap (typeOf (VStruct n fs)) m =
    Ok (VStruct n (map (subsetField IsExported) fs), true) /\
  (forallb (fun fv => IsExported (Name fv.1)) fs = true ->
   FromMap (typeOf (VStruct n fs)) m = Ok (VStruct n fs, true)).
Proof.
  intros Hw Hnd Hm.
  assert (H1 : FromMap (typeOf (VStruct n fs)) m =
               Ok (VStruct n (map (subsetField IsExported) fs), true)).
  { unfold ToMap in Hm. cbn [iface ValueOf] in Hm. unfold indirect in Hm.
    rewrite bool_decide_eq_false_2 in Hm by discriminate.
    rewrite toMapLoop_fold in Hm. inversion Hm; subst m. clear Hm.
    unfold FromMap. cbn [typeOf zero]. rewrite map_map. cbn [fst snd].
    rewrite (forFields_fmap _ (fun fv => (fv.1, zero (typeOf fv.2)))
               (fun fv => (subsetField IsExported fv).2)).
    { reflexivity. }
    intros fv Hfv. cbn [fst snd Field vdata].
    apply list_elem_of_lookup_1 in Hfv as [i Hi].
    rewrite (toMap_fold_find _ fs ∅ (Name fv.1) Hnd), (findField_NoDup fs i fv Hnd Hi).
    assert (Hwf : wellFormed fv.2 = true).
    { simpl in Hw. rewrite forallb_elem_of in Hw. apply (Hw fv).
      eapply list_elem_of_lookup_2. exact Hi. }
    unfold subsetField. cbn [fst snd].
    destruct (entered (mkFlag false false false) fv) eqn:He.
    - pose proof (entered_exported _ _ He) as [Hex Hnz]. rewrite Hex.
      unfold SetValue, Field. cbn [vflag vdata fst snd].
      rewrite (fieldFlag_exported flagNew fv.1 eq_refl Hex).
      cbn [fieldFlag flagAddr flagNew negb]. rewrite typeOf_zero.
      destruct (fv.2) as [| | | | | | | [d|] |] eqn:Hv;
        try (cbn [iface ValueOf vdata vflag flagRO flagStickyRO flagEmbedRO orb];
             unfold AssignableTo; repeat rewrite type_eqb_refl; cbn [orb];
             reflexivity).
      + cbn [iface ValueOf vdata vflag flagRO flagStickyRO flagEmbedRO orb].
        simpl in Hwf. apply andb_true_iff in Hwf as [Hni _].
        unfold AssignableTo. cbn [typeOf]. rewrite (typeOf_not_interface _ Hni).
        reflexivity.
      + discriminate.
    - rewrite lookup_empty.
      destruct (IsExported (Name fv.1)) eqn:Hex; [|reflexivity].
      unfold entered, CanInterface, Field in He. cbn [vflag fst snd] in He.
      rewrite (fieldFlag_exported (mkFlag false false false) fv.1 eq_refl Hex) in He.
      rewrite andb_true_r in He. apply negb_false_iff in He.
      apply (IsZero_spec _ Hwf) in He. rewrite <- He. reflexivity. }
  split; [exact H1|].
  intros He. rewrite H1. do 3 f_equal.
  rewrite <- (map_id fs) at 2. apply map_ext_in. intros fv Hfv.
  rewrite forallb_forall in He. unfold subsetField. rewrite (He fv Hfv).
  destruct fv; reflexivity.
Qed.

Lemma ToMap_FromMap_witness :
  let m : gmap string any := <["Balance" := Some (VInt 10)]> ∅ in
  FromMap (typeOf (account "ann" 10)) m = Ok (account "" 10, true) /\
  (forallb (fun fv => IsExported (Name fv.1))
           [(named "owner", VString "ann"); (named "Balance", VInt 10)] = true ->
   FromMap (typeOf (account "ann" 10)) m = Ok (account "ann" 10, true)).
Proof.
  apply (ToMap_FromMap [] "account" [(named "owner", VString "ann"); (named "Balance", VInt 10)]).
  - reflexivity.
  - apply (bool_decide_unpack _). vm_compute. exact I.
  - reflexivity.
Defined.

(** *** FromMap *)




Lemma forFields_ext (step step' : fieldinfo * value -> outcome value)
    (fs : list (fieldinfo * value)) :
  (forall fv, fv ∈ fs -> step fv = step' fv) ->
  forFields step fs = forFields step' fs.
Proof.
  induction fs as [|fv fs IH]; intros H; simpl; [reflexivity|].
  rewrite (H fv) by (apply elem_of_cons; auto).
  rewrite IH; [reflexivity|]. intros x Hx. apply H. apply elem_of_cons; auto.
Qed.

(** X18. [FromMap] looks at the entries under the declared field names only:
    two maps that agree on these names give the same result, so keys
    that name no field (a name in another case included) are ignored. *)
Theorem FromMap_declared_names (t : type) (data data' : gmap string any) :
  (forall name, name ∈ Fields [] (zero t) -> data !! name = data' !! name) ->
  FromMap t data = FromMap t data'.
Proof.
  intros H. unfold FromMap.
  destruct (zero t) as [| | | | | | | |n fs] eqn:Hz; try reflexivity.
  rewrite (forFields_ext _ (fun fv =>
             let field := Field flagNew fv in
             match data' !! Name fv.1 with
             | Some value =>
                 match ValueOf value with
                 | None => Panic PanicZeroValue
                 | Some valueVal =>
                     if AssignableTo (typeOf (vdata valueVal)) (typeOf (vdata field))
                     then SetValue field valueVal
                     else Ok (vdata field)
                 end
             | None => Ok (vdata field)
             end)); [reflexivity|].
  intros fv Hfv. cbn zeta. rewrite (H (Name fv.1)); [reflexivity|].
  unfold Fields. cbn [iface ValueOf]. unfold indirect.
  rewrite bool_decide_eq_false_2 by discriminate.
  apply (list_elem_of_fmap_2 (fun fv => Name fv.1)). exact Hfv.
Qed.

Lemma FromMap_declared_names_witness :
  FromMap (typeOf (User "" 0 "")) (<["name" := Some (VString "Alice")]> ∅)
  = FromMap (typeOf (User "" 0 "")) ∅.
Proof.
  apply FromMap_declared_names. intros name Hn.
  rewrite lookup_insert_ne; [reflexivity|].
  intros <-. vm_compute in Hn.
  repeat (apply elem_of_cons in Hn as [Hn|Hn]; [discriminate|]).
  inversion Hn.
Defined.

Lemma SetValue_not_exhausted (v x : Value) : SetValue v x <> Exhausted.
Proof.
  unfold SetValue. repeat (destruct (_ : bool); try discriminate).
Qed.

Lemma forFields_panics (step : fieldinfo * value -> outcome value)
    (fs : list (fieldinfo * value)) (fv : fieldinfo * value) :
  (forall gv, step gv <> Exhausted) ->
  fv ∈ fs -> (exists q, step fv = Panic q) ->
  exists q, forFields step fs = Panic q.
Proof.
  intros Hne. induction fs as [|gv fs IH]; intros Hin Hq; [inversion Hin|].
  simpl. apply elem_of_cons in Hin as [<-|Hin].
  - destruct Hq as [q ->]. eauto.
  - destruct (step gv) as [x|q|] eqn:Hx; [|eauto|exfalso; eapply Hne; eauto].
    simpl. destruct (IH Hin Hq) as [q ->]. eauto.
Qed.

(** X19. A nil value under the name of a declared field makes [FromMap]
    panic: it asks for the type of every value it finds under such a
    name. *)
Theorem FromMap_nil_panics n decl (data : gmap string any) (f : fieldinfo) (ft : type) :
  (f, ft) ∈ decl ->
  data !! Name f = Some None ->
  exists q, FromMap (TStruct n decl) data = Panic q.
Proof.
  intros Hin Hd. unfold FromMap. cbn [zero].
  match goal with
  | |- context [forFields ?step ?fs] =>
      destruct (forFields_panics step fs (f, zero ft)) as [q Hq]
  end.
  - intros gv. cbn [Field vdata].
    destruct (data !! Name gv.1) as [[d|]|]; try discriminate.
    cbn [ValueOf]. destruct (AssignableTo _ _); [apply SetValue_not_exhausted|discriminate].
  - apply (list_elem_of_fmap_2 (fun ft : fieldinfo * type => (ft.1, zero ft.2)) decl (f, ft)).
    exact Hin.
  - cbn [fst]. rewrite Hd. eauto.
  - rewrite Hq. eauto.
Qed.

Lemma FromMap_nil_panics_witness :
  exists q, FromMap (typeOf (Profile None 0))
                    (<["Owner" := None]> (<["Level" := Some (VInt 3)]> ∅)) = Panic q.
Proof.
  apply (FromMap_nil_panics "Profile" _ _ (named "Owner") (TPtr (typeOf (User "" 0 ""))));
    [|reflexivity].
  apply elem_of_cons. left. reflexivity.
Defined.




(** ** Pick and Omit *)

Lemma fieldSet_lookup (fields : list string) (m : gmap string bool) (name : string) :
  default false (foldl (fun m field => <[field := true]> m) m fields !! name) =
  default false (m !! name) || bool_decide (name ∈ fields).
Proof.
  revert m. induction fields as [|f fields IH]; intros m; cbn [foldl].
  - rewrite bool_decide_eq_false_2 by (apply not_elem_of_nil). rewrite orb_false_r. reflexivity.
  - rewrite IH. destruct (decide (f = name)) as [->|Hne].
    + rewrite lookup_insert_eq.
      rewrite (bool_decide_eq_true_2 (name ∈ name :: fields)) by (apply elem_of_cons; auto).
      rewrite orb_true_r. reflexivity.
    + rewrite lookup_insert_ne by exact Hne. f_equal.
      apply bool_decide_ext. rewrite elem_of_cons. split; [auto|].
      intros [->|H]; [contradiction|exact H].
Qed.

(** The set that [Pick] and [Omit] build holds the names of the list. *)
Lemma inFieldSet_elem (fields : list string) (name : string) :
  inFieldSet (makeFieldSet fields) name = bool_decide (name ∈ fields).
Proof.
  unfold inFieldSet, makeFieldSet. rewrite fieldSet_lookup, lookup_empty. reflexivity.
Qed.

Lemma subset_ext (keep keep' : string -> bool) (st : store) (obj : value) :
  (forall name, name ∈ Fields st obj -> keep name = keep' name) ->
  subset keep st obj = subset keep' st obj.
Proof.
  unfold subset, Fields. intros H.
  destruct (indirect st (ValueOf (iface obj))) as [[fl d]|]; [|reflexivity].
  destruct d as [| | | | | | | |n fs]; try reflexivity.
  rewrite (forFields_ext _ (fun fv =>
             let target := Field flagNew (fv.1, zero (typeOf fv.2)) in
             if keep' (Name fv.1) then SetValue target (Field fl fv) else Ok (vdata target)));
    [reflexivity|].
  intros fv Hfv. cbn zeta. rewrite (H (Name fv.1)); [reflexivity|].
  apply (list_elem_of_fmap_2 (fun fv => Name fv.1)). exact Hfv.
Qed.

(** X21. [Pick] and [Omit] depend on the list of names only through the set
    of declared names on it: the order of the names, repetitions and
    names that the record does not declare make no difference. *)
Theorem Pick_Omit_names (st : store) (obj : value) (fields fields' : list string) :
  (forall name, name ∈ Fields st obj -> (name ∈ fields <-> name ∈ fields')) ->
  Pick st obj fields = Pick st obj fields' /\ Omit st obj fields = Omit st obj fields'.
Proof.
  intros H. unfold Pick, Omit. split; apply subset_ext; intros name Hn;
    rewrite !inFieldSet_elem; [|f_equal]; apply bool_decide_ext; apply H; exact Hn.
Qed.

Lemma Pick_Omit_names_witness :
  Pick [] (User "Alice" 25 "a@b.c") ["Age"; "Phone"; "Name"; "Age"]
    = Pick [] (User "Alice" 25 "a@b.c") ["Name"; "Age"] /\
  Omit [] (User "Alice" 25 "a@b.c") ["Age"; "Phone"; "Name"; "Age"]
    = Omit [] (User "Alice" 25 "a@b.c") ["Name"; "Age"].
Proof.
  apply Pick_Omit_names. intros name Hn.
  change (name ∈ ["Name"; "Age"; "Email"; "Address"]) in Hn.
  rewrite !elem_of_cons, !elem_of_nil in *. intuition congruence.
Defined.

Lemma forFields_not_exhausted (step : fieldinfo * value -> outcome value)
    (fs : list (fieldinfo * value)) :
  (forall gv, step gv <> Exhausted) -> forFields step fs <> Exhausted.
Proof.
  intros Hne. induction fs as [|gv fs IH]; simpl; [discriminate|].
  destruct (step gv) as [x|q|] eqn:Hx; [|discriminate|exfalso; eapply Hne; eauto].
  simpl. destruct (forFields step fs); [discriminate|discriminate|contradiction].
Qed.

Lemma subset_reference (keep : string -> bool) (st : store) (t : type) (l : loc)
    n fs :
  st !! l = Some (CVar (VStruct n fs)) ->
  exists q, subset keep st (VPtr t (Some l)) = Panic q.
Proof.
  intros Hl. unfold subset. cbn [iface ValueOf]. unfold indirect, Elem.
  cbn [Kind vdata kindOf]. rewrite bool_decide_eq_true_2 by reflexivity.
  cbn [mbind option_bind vdata]. rewrite Hl.
  match goal with
  | |- context [forFields ?step ?gs] =>
      pose proof (forFields_not_exhausted step gs) as Hne;
      destruct (forFields step gs) as [fs'|q|]
  end.
  - cbn [bind]. unfold Interface.
    cbn [vflag vdata flagNew flagRO flagStickyRO flagEmbedRO orb iface bind].
    unfold assertType. cbn [typeOf type_eqb]. eauto.
  - eauto.
  - exfalso. apply Hne; [|reflexivity]. intros gv.
    destruct (keep (Name gv.1)); [apply SetValue_not_exhausted|discriminate].
Qed.

(** X22. [Pick] and [Omit] on a reference to a record, with the reference
    type as the type argument, never return: the new record is built by
    value, and its conversion to the reference type panics. *)
Theorem Pick_Omit_reference_panic (st : store) (t : type) (l : loc) n fs
    (fields : list string) :
  st !! l = Some (CVar (VStruct n fs)) ->
  (exists q, Pick st (VPtr t (Some l)) fields = Panic q) /\
  (exists q, Omit st (VPtr t (Some l)) fields = Panic q).
Proof.
  intros Hl. unfold Pick, Omit. split; eapply subset_reference; exact Hl.
Qed.

Lemma Pick_Omit_reference_panic_witness :
  (exists q, Pick [CVar (User "Alice" 25 "")] (addressOf (User "" 0 "") 0) ["Name"] = Panic q) /\
  (exists q, Omit [CVar (User "Alice" 25 "")] (addressOf (User "" 0 "") 0) ["Name"] = Panic q).
Proof.
  apply (Pick_Omit_reference_panic [CVar (User "Alice" 25 "")] (typeOf (User "" 0 "")) 0%nat
           "User" [(named "Name", VString "Alice"); (named "Age", VInt 25);
                   (named "Email", VString ""); (named "Address", Address "" "" "")]).
  reflexivity.
Defined.

Lemma zero_typeOf_struct n (fs : list (fieldinfo * value)) :
  zero (typeOf (VStruct n fs)) = VStruct n (map (fun fv => (fv.1, zero (typeOf fv.2))) fs).
Proof. simpl. rewrite map_map. reflexivity. Qed.

Lemma subset_none (keep : string -> bool) (st : store) n fs :
  (forall fv, fv ∈ fs -> keep (Name fv.1) = false) ->
  subset keep st (VStruct n fs) = Ok (zero (typeOf (VStruct n fs))).
Proof.
  intros H. unfold subset. cbn [iface ValueOf]. unfold indirect.
  cbn [Kind vdata kindOf]. rewrite bool_decide_eq_false_2 by discriminate.
  rewrite (forFields_map _ (fun fv => zero (typeOf fv.2))).
  - cbn [bind]. unfold Interface.
    cbn [vflag vdata flagNew flagRO flagStickyRO flagEmbedRO orb iface bind].
    unfold assertType. change (type_eqb (typeOf (VStruct n fs)) TInterface) with false.
    cbv iota. rewrite <- zero_typeOf_struct, typeOf_zero, type_eqb_refl. reflexivity.
  - intros fv Hfv. rewrite (H fv Hfv). reflexivity.
Qed.

Lemma subset_all (keep : string -> bool) (st : store) n fs :
  forallb (fun fv => IsExported (Name fv.1)) fs = true ->
  (forall fv, fv ∈ fs -> keep (Name fv.1) = true) ->
  subset keep st (VStruct n fs) = Ok (VStruct n fs).
Proof.
  intros He H. rewrite (subset_exported keep st n fs He). do 2 f_equal.
  rewrite <- (map_id fs) at 2. apply map_ext_in. intros fv Hfv.
  unfold subsetField. rewrite (H fv) by (apply list_elem_of_In; exact Hfv).
  destruct fv; reflexivity.
Qed.

(** X23. The ends of the scale.  [Pick] with no name and [Omit] with every
    name of the record return the zero record of the type, whatever the
    record holds; on a record whose fields are all exported, [Omit] with
    no name and [Pick] with every name return the record itself. *)
Theorem Pick_Omit_all_none (st : store) n fs :
  Pick st (VStruct n fs) [] = Ok (zero (typeOf (VStruct n fs))) /\
  Omit st (VStruct n fs) (Fields st (VStruct n fs)) = Ok (zero (typeOf (VStruct n fs))) /\
  (forallb (fun fv => IsExported (Name fv.1)) fs = true ->
   Omit st (VStruct n fs) [] = Ok (VStruct n fs) /\
   Pick st (VStruct n fs) (Fields st (VStruct n fs)) = Ok (VStruct n fs)).
Proof.
  assert (HF : forall fv, fv ∈ fs ->
                 bool_decide (Name fv.1 ∈ Fields st (VStruct n fs)) = true).
  { intros fv Hfv. apply bool_decide_eq_true_2. unfold Fields. cbn [iface ValueOf].
    unfold indirect. rewrite bool_decide_eq_false_2 by discriminate.
    apply (list_elem_of_fmap_2 (fun fv => Name fv.1)). exact Hfv. }
  unfold Pick, Omit. splits.
  - apply subset_none. intros fv _. rewrite inFieldSet_elem.
    apply bool_decide_eq_false_2. apply not_elem_of_nil.
  - apply subset_none. intros fv Hfv. rewrite inFieldSet_elem, (HF fv Hfv). reflexivity.
  - intros He. split; apply subset_all; try exact He; intros fv Hfv; rewrite inFieldSet_elem.
    + rewrite bool_decide_eq_false_2 by (apply not_elem_of_nil). reflexivity.
    + apply HF. exact Hfv.
Qed.

(** X24. [Pick] after [Pick] keeps the names on both lists; [Omit] after
    [Omit] drops the names on either list; [Omit] after [Pick] with the
    same list leaves the zero record.  For a record whose fields are all
    exported. *)
Theorem Pick_Omit_compose (st : store) n fs (f1 f2 : list string) :
  forallb (fun fv => IsExported (Name fv.1)) fs = true ->
  exists p o,
    Pick st (VStruct n fs) f1 = Ok p /\ Omit st (VStruct n fs) f1 = Ok o /\
    Pick st p f2 = Pick st (VStruct n fs) (filter (fun name => name ∈ f2) f1) /\
    Omit st o f2 = Omit st (VStruct n fs) (f1 ++ f2) /\
    Omit st p f1 = Ok (zero (typeOf (VStruct n fs))).
Proof.
  intros He. unfold Pick, Omit. rewrite !(subset_exported _ st n fs He).
  eexists. eexists. split; [reflexivity|]. split; [reflexivity|].
  assert (He' : forall keep, forallb (fun fv => IsExported (Name fv.1))
                               (map (subsetField keep) fs) = true).
  { intros keep. rewrite forallb_forall in He. apply forallb_forall. intros fv Hfv.
    apply in_map_iff in Hfv as (gv & <- & Hgv). apply (He gv Hgv). }
  rewrite !(subset_exported _ st n _ (He' _)).
  assert (Hz : forall v, zero (typeOf (zero (typeOf v))) = zero (typeOf v)).
  { intros v. rewrite typeOf_zero. reflexivity. }
  splits.
  - do 2 f_equal. rewrite map_map. apply map_ext. intros [f v].
    unfold subsetField. cbn [fst snd]. rewrite !inFieldSet_elem.
    rewrite (bool_decide_ext (Name f ∈ filter (fun name => name ∈ f2) f1)
               (Name f ∈ f2 /\ Name f ∈ f1))
      by (apply (list_elem_of_filter (fun name => name ∈ f2))).
    destruct (bool_decide (Name f ∈ f1)) eqn:E1, (bool_decide (Name f ∈ f2)) eqn:E2;
      try apply bool_decide_eq_true in E1; try apply bool_decide_eq_true in E2;
      try apply bool_decide_eq_false in E1; try apply bool_decide_eq_false in E2.
    + rewrite bool_decide_eq_true_2 by auto. reflexivity.
    + rewrite bool_decide_eq_false_2 by tauto. reflexivity.
    + rewrite bool_decide_eq_false_2 by tauto. rewrite ?Hz. reflexivity.
    + rewrite bool_decide_eq_false_2 by tauto. rewrite ?Hz. reflexivity.
  - do 2 f_equal. rewrite map_map. apply map_ext. intros [f v].
    unfold subsetField. cbn [fst snd]. rewrite !inFieldSet_elem.
    rewrite (bool_decide_ext (Name f ∈ f1 ++ f2) (Name f ∈ f1 \/ Name f ∈ f2))
      by (apply elem_of_app).
    destruct (bool_decide (Name f ∈ f1)) eqn:E1, (bool_decide (Name f ∈ f2)) eqn:E2;
      try apply bool_decide_eq_true in E1; try apply bool_decide_eq_true in E2;
      try apply bool_decide_eq_false in E1; try apply bool_decide_eq_false in E2.
    + rewrite bool_decide_eq_true_2 by auto. cbn [negb]. rewrite ?Hz. reflexivity.
    + rewrite bool_decide_eq_true_2 by auto. cbn [negb]. rewrite ?Hz. reflexivity.
    + rewrite bool_decide_eq_true_2 by auto. reflexivity.
    + rewrite bool_decide_eq_false_2 by tauto. reflexivity.
  - rewrite zero_typeOf_struct. do 2 f_equal. rewrite map_map. apply map_ext. intros [f v].
    unfold subsetField. cbn [fst snd].
    destruct (inFieldSet (makeFieldSet f1) (Name f)); reflexivity.
Qed.

Lemma Pick_Omit_compose_witness :
  exists p o,
    Pick [] (User "Alice" 25 "a@b.c") ["Name"; "Age"] = Ok p /\
    Omit [] (User "Alice" 25 "a@b.c") ["Name"; "Age"] = Ok o /\
    Pick [] p ["Age"; "Email"]
      = Pick [] (User "Alice" 25 "a@b.c") (filter (fun name => name ∈ ["Age"; "Email"])
                                                   ["Name"; "Age"]) /\
    Omit [] o ["Age"; "Email"] = Omit [] (User "Alice" 25 "a@b.c") (["Name"; "Age"] ++ ["Age"; "Email"]) /\
    Omit [] p ["Name"; "Age"] = Ok (zero (typeOf (User "Alice" 25 "a@b.c"))).
Proof.
  apply (Pick_Omit_compose [] "User"
           [(named "Name", VString "Alice"); (named "Age", VInt 25);
            (named "Email", VString "a@b.c"); (named "Address", Address "" "" "")]).
  reflexivity.
Defined.

Lemma Pick_Omit_all_none_witness :
  Pick [] (account "ann" 10) [] = Ok (account "" 0) /\
  Omit [] (account "ann" 10) ["owner"; "Balance"] = Ok (account "" 0) /\
  (forallb (fun fv => IsExported (Name fv.1))
           [(named "owner", VString "ann"); (named "Balance", VInt 10)] = true ->
   Omit [] (account "ann" 10) [] = Ok (account "ann" 10) /\
   Pick [] (account "ann" 10) ["owner"; "Balance"] = Ok (account "ann" 10)).
Proof.
  apply (Pick_Omit_all_none [] "account"
           [(named "owner", VString "ann"); (named "Balance", VInt 10)]).
Defined.

(** ** Merge *)

Lemma Merge_cons (st : store) (t : type) (x : value) (xs : list value) :
  Merge st t (x :: xs) = mergeLoop st xs x.
Proof. destruct xs; reflexivity. Qed.

Lemma mergeFields_zero (fl : flag) (fs : list (fieldinfo * value)) (result : value) :
  forallb (fun fv => IsZero fv.2) fs = true ->
  mergeFields fl fs result = Ok result.
Proof.
  induction fs as [|fv fs IH]; simpl; intros H; [reflexivity|].
  apply andb_true_iff in H as [H1 H2]. rewrite H1. simpl. apply IH. exact H2.
Qed.

(** X25. Records that hold nothing but zero values, and nil references, change
    nothing when they are merged into a record: [Merge] returns the
    first record as it is, also when fields are not exported. *)
Theorem Merge_zero (st : store) (t : type) (r : value) (rest : list value) :
  Forall (fun s => IsZero s = true) rest ->
  Merge st t (r :: rest) = Ok r.
Proof.
  rewrite Merge_cons. induction 1 as [|s rest Hs _ IH]; [reflexivity|].
  simpl. assert (Hi : match indirect st (ValueOf (iface s)) with
                      | Some (mkValue fl (VStruct _ fs)) => mergeFields fl fs r = Ok r
                      | _ => True
                      end).
  { destruct s as [| | |e [l|]| | | |[d|]|n fs]; try exact I; try discriminate.
    unfold indirect. cbn [iface ValueOf Kind vdata kindOf].
    rewrite bool_decide_eq_false_2 by discriminate.
    apply mergeFields_zero. exact Hs. }
  destruct (indirect st (ValueOf (iface s))) as [[fl d]|]; [|exact IH].
  destruct d; try exact IH. rewrite Hi. exact IH.
Qed.

Lemma Merge_zero_witness :
  Merge [] (typeOf (account "" 0)) [account "ann" 10; account "" 0; account "" 0]
  = Ok (account "ann" 10).
Proof.
  apply Merge_zero. repeat constructor.
Defined.

Lemma mergeFields_not_struct (fl : flag) (fs : list (fieldinfo * value)) (result : value) :
  kindOf result <> KStruct ->
  mergeFields fl fs result =
    if forallb (fun fv => IsZero fv.2) fs then Ok result else Panic PanicKind.
Proof.
  intros Hk. induction fs as [|fv fs IH]; simpl; [reflexivity|].
  destruct (IsZero fv.2); simpl; [exact IH|].
  destruct result; try reflexivity. exfalso. apply Hk. reflexivity.
Qed.

(** X26. [Merge] writes into a variable of the type argument.  When that
    type is not a record type (a reference to a record, or [any]), the
    first field that is not zero in a later record makes [Merge] panic:
    it asks the variable, which is not a record, for a field by name. *)
Theorem Merge_not_record_panics (st : store) (t : type) (s s2 : value) (rest : list value)
    (fl : flag) n fs :
  kindOf s <> KStruct ->
  indirect st (ValueOf (iface s2)) = Some (mkValue fl (VStruct n fs)) ->
  forallb (fun fv => IsZero fv.2) fs = false ->
  Merge st t (s :: s2 :: rest) = Panic PanicKind.
Proof.
  intros Hk Hi Hz. rewrite Merge_cons. simpl. rewrite Hi.
  rewrite (mergeFields_not_struct fl fs s Hk), Hz. reflexivity.
Qed.

Lemma Merge_not_record_panics_witness :
  Merge [CVar (User "Alice" 25 ""); CVar (User "Bob" 0 "")]
        (TPtr (typeOf (User "" 0 "")))
        [addressOf (User "" 0 "") 0; addressOf (User "" 0 "") 1]
  = Panic PanicKind.
Proof.
  apply (Merge_not_record_panics _ _ _ _ [] flagNew "User"
           [(named "Name", VString "Bob"); (named "Age", VInt 0);
            (named "Email", VString ""); (named "Address", Address "" "" "")]).
  - discriminate.
  - reflexivity.
  - reflexivity.
Defined.

Lemma mergeLoop_app (st : store) (xs ys : list value) (r : value) :
  mergeLoop st (xs ++ ys) r = do m <- mergeLoop st xs r; mergeLoop st ys m.
Proof.
  revert r. induction xs as [|x xs IH]; intros r; simpl; [reflexivity|].
  destruct (indirect st (ValueOf (iface x))) as [[fl d]|]; [|apply IH].
  destruct d; try apply IH.
  destruct (mergeFields fl fs r); simpl; [apply IH|reflexivity|reflexivity].
Qed.

(** [Merge] can be done in stages: merging a sequence and then merging
    the result with a second sequence gives what merging the two
    sequences at once gives. *)
Lemma Merge_stages (st : store) (t : type) (xs ys : list value) (m : value) :
  xs <> [] ->
  Merge st t xs = Ok m ->
  Merge st t (xs ++ ys) = Merge st t (m :: ys).
Proof.
  destruct xs as [|x xs]; [congruence|]. intros _ H.
  rewrite Merge_cons in H. rewrite <- app_comm_cons, !Merge_cons, mergeLoop_app, H.
  reflexivity.
Qed.

(** ** Clone *)

(** *** Clone writes to new storage only *)

Lemma prefix_insert_ge (base s : store) (i : nat) (c : cell) :
  base `prefix_of` s -> (length base <= i)%nat -> base `prefix_of` <[i := c]> s.
Proof.
  intros [k ->] Hi. exists (<[(i - length base)%nat := c]> k).
  apply insert_app_r_alt. exact Hi.
Qed.

Section extends.

Variable rec : store -> Value -> outcome (value * store).
Hypothesis Hrec : forall st v r, rec st v = Ok r -> st `prefix_of` r.2.

Lemma copyFields_extends (fs : list (fieldinfo * value)) (st : store) (fl : flag) r :
  copyFields rec st fl fs = Ok r -> st `prefix_of` r.2.
Proof.
  revert st r. induction fs as [|fv fs IH]; simpl; intros st r H.
  - inversion H. reflexivity.
  - destruct (rec st _) as [x| |] eqn:Hx; try discriminate. cbn [bind] in H.
    destruct (SetValue _ _); try discriminate. cbn [bind] in H.
    destruct (copyFields rec x.2 fl fs) as [rest| |] eqn:Hr; try discriminate.
    cbn [bind] in H. inversion H; subst. cbn [snd].
    etransitivity; [exact (Hrec _ _ _ Hx)|exact (IH _ _ Hr)].
Qed.

Lemma copyArray_extends (xs : list value) (st : store) (fl : flag) r :
  copyArray rec st fl xs = Ok r -> st `prefix_of` r.2.
Proof.
  revert st r. induction xs as [|x xs IH]; simpl; intros st r H.
  - inversion H. reflexivity.
  - destruct (rec st _) as [y| |] eqn:Hy; try discriminate. cbn [bind] in H.
    destruct (SetValue _ _); try discriminate. cbn [bind] in H.
    destruct (copyArray rec y.2 fl xs) as [rest| |] eqn:Hr; try discriminate.
    cbn [bind] in H. inversion H; subst. cbn [snd].
    etransitivity; [exact (Hrec _ _ _ Hy)|exact (IH _ _ Hr)].
Qed.

Lemma copySlice_extends (indices : list nat) (base st : store) (fl : flag) (t : type)
    (src dst : loc) st' :
  base `prefix_of` st -> (length base <= dst)%nat ->
  copySlice rec st fl t src dst indices = Ok st' -> base `prefix_of` st'.
Proof.
  revert st. induction indices as [|i indices IH]; simpl; intros st Hb Hd H.
  - inversion H; subst. exact Hb.
  - destruct (st !! src) as [[|xs|]|]; try discriminate.
    destruct (st !! dst) as [[|ys0|]|]; try discriminate.
    destruct (xs !! i) as [x|]; try discriminate.
    destruct (rec st _) as [r| |] eqn:Hr; try discriminate. cbn [bind] in H.
    destruct (SetValue _ _) as [y| |]; try discriminate. cbn [bind] in H.
    destruct (r.2 !! dst) as [[|ys|]|]; try discriminate.
    eapply IH; [|exact Hd|exact H].
    apply prefix_insert_ge; [|exact Hd].
    etransitivity; [exact Hb|exact (Hrec _ _ _ Hr)].
Qed.

Lemma copyMap_extends (keys : list value) (base st : store) (fl : flag)
    (src dst : loc) st' :
  base `prefix_of` st -> (length base <= dst)%nat ->
  copyMap rec st fl src dst keys = Ok st' -> base `prefix_of` st'.
Proof.
  revert st. induction keys as [|key keys IH]; simpl; intros st Hb Hd H.
  - inversion H; subst. exact Hb.
  - destruct (rec st _) as [k| |] eqn:Hk; try discriminate. cbn [bind] in H.
    destruct (k.2 !! src) as [[| |kvs]|]; try discriminate.
    destruct (mapIndex kvs key) as [e|]; try discriminate.
    destruct (rec k.2 _) as [v| |] eqn:Hv; try discriminate. cbn [bind] in H.
    destruct (v.2 !! dst) as [[| |new]|]; try discriminate.
    eapply IH; [|exact Hd|exact H].
    apply prefix_insert_ge; [|exact Hd].
    etransitivity; [exact Hb|].
    etransitivity; [exact (Hrec _ _ _ Hk)|exact (Hrec _ _ _ Hv)].
Qed.

Lemma deepCopyBody_extends (st : store) (val : Value) r :
  deepCopyBody rec st val = Ok r -> st `prefix_of` r.2.
Proof.
  unfold deepCopyBody. intros H.
  destruct (vdata val) as [b|i|s|t [l|]|t [h|]|t xs|k t [m|]|[d|]|n fs].
  - destruct (SetValue _ _); try discriminate. inversion H. reflexivity.
  - destruct (SetValue _ _); try discriminate. inversion H. reflexivity.
  - destruct (SetValue _ _); try discriminate. inversion H. reflexivity.
  - destruct (Elem st val) as [e|]; try discriminate.
    destruct (rec st e) as [x| |] eqn:Hx; try discriminate. cbn [bind] in H.
    destruct (SetValue _ _); try discriminate. cbn [bind] in H.
    inversion H; subst. cbn [snd].
    etransitivity; [exact (Hrec _ _ _ Hx)|apply prefix_app_r; reflexivity].
  - inversion H. reflexivity.
  - destruct (copySlice _ _ _ _ _ _ _) as [st'| |] eqn:Hs; try discriminate.
    cbn [bind] in H. inversion H; subst. cbn [snd].
    eapply copySlice_extends; [| |exact Hs]; [apply prefix_app_r; reflexivity|lia].
  - inversion H. reflexivity.
  - destruct (copyArray rec st (vflag val) xs) as [x| |] eqn:Hx; try discriminate.
    cbn [bind] in H. inversion H; subst. cbn [snd]. eapply copyArray_extends. exact Hx.
  - destruct (st !! m) as [[| |kvs]|]; try discriminate.
    destruct (copyMap _ _ _ _ _ _) as [st'| |] eqn:Hs; try discriminate.
    cbn [bind] in H. inversion H; subst. cbn [snd].
    eapply copyMap_extends; [| |exact Hs]; [apply prefix_app_r; reflexivity|lia].
  - inversion H. reflexivity.
  - destruct (Elem st val) as [e|]; try discriminate.
    destruct (rec st e) as [x| |] eqn:Hx; try discriminate. cbn [bind] in H.
    destruct (SetValue _ _); try discriminate. cbn [bind] in H.
    inversion H; subst. cbn [snd]. exact (Hrec _ _ _ Hx).
  - inversion H. reflexivity.
  - destruct (copyFields rec st (vflag val) fs) as [x| |] eqn:Hx; try discriminate.
    cbn [bind] in H. inversion H; subst. cbn [snd]. eapply copyFields_extends. exact Hx.
Qed.

End extends.

Lemma deepCopyValue_extends (fuel : nat) (st : store) (val : Value) r :
  deepCopyValue fuel st val = Ok r -> st `prefix_of` r.2.
Proof.
  revert st val r. induction fuel as [|fuel IH]; intros st val r H; [discriminate|].
  simpl in H. eapply deepCopyBody_extends; [|exact H]. exact IH.
Qed.

(** X27. [Clone] never writes to the storage it was given, whatever the
    argument is: whenever it returns, the store it leaves extends the
    store it found, so every location holds what it held before. *)
Theorem Clone_extends_store (fuel : nat) (st st' : store) (obj c : value) :
  Clone fuel st obj = Ok (c, st') ->
  (exists ext, st' = st ++ ext) /\
  (forall l x, st !! l = Some x -> st' !! l = Some x).
Proof.
  intros H.
  assert (Hp : st `prefix_of` st').
  { unfold Clone in H.
    destruct (if bool_decide (Kind (ValueOf (iface obj)) = KPtr)
              then ValueOf (iface obj) ≫= Elem st else ValueOf (iface obj)) as [v|];
      [|inversion H; reflexivity].
    destruct (bool_decide (Kind (Some v) = KStruct)); [|inversion H; reflexivity].
    destruct (deepCopyValue fuel st v) as [r| |] eqn:Hr; try discriminate.
    apply deepCopyValue_extends in Hr. cbn [bind] in H.
    destruct (bool_decide (Kind (ValueOf (iface obj)) = KPtr)).
    - destruct (SetValue _ _); try discriminate. cbn [bind] in H.
      destruct (Interface _) as [[d|]| |]; try discriminate. cbn [bind] in H.
      destruct (assertType _ _); try discriminate. cbn [bind] in H.
      inversion H; subst. etransitivity; [exact Hr|apply prefix_app_r; reflexivity].
    - destruct (Interface _) as [[d|]| |]; try discriminate. cbn [bind] in H.
      destruct (assertType _ _); try discriminate. cbn [bind] in H.
      inversion H; subst. exact Hr. }
  split; [exact Hp|].
  destruct Hp as [ext ->]. intros l x Hl. apply lookup_app_l_Some. exact Hl.
Qed.

Lemma Clone_extends_store_witness :
  (exists ext, [CVar (VInt 7); CMap [(VPtr TInt (Some 0%nat), VString "seven")];
                CMap [(VPtr TInt (Some 3%nat), VString "seven")]; CVar (VInt 7)]
               = [CVar (VInt 7); CMap [(VPtr TInt (Some 0%nat), VString "seven")]] ++ ext) /\
  (forall l x,
     [CVar (VInt 7); CMap [(VPtr TInt (Some 0%nat), VString "seven")]] !! l = Some x ->
     [CVar (VInt 7); CMap [(VPtr TInt (Some 0%nat), VString "seven")];
      CMap [(VPtr TInt (Some 3%nat), VString "seven")]; CVar (VInt 7)] !! l = Some x).
Proof.
  apply (Clone_extends_store 5 _ _ (Registry (Some 1%nat)) (Registry (Some 2%nat))).
  reflexivity.
Defined.

(** *** Clone of a reference, of a plain record, of a record with a field
    that is not exported *)



(** X29. [Clone] of a clonable record that holds no reference (scalars,
    nested records and arrays of them, nil references, slices and maps)
    returns the record itself and allocates nothing: a nil slice stays
    nil. *)
Theorem Clone_plain (n : nat) (st : store) (name : string) (fs : list (fieldinfo * value)) :
  clonable n st (VStruct name fs) = true ->
  plain (VStruct name fs) = true ->
  forall fuel, (n <= fuel)%nat -> Clone fuel st (VStruct name fs) = Ok (VStruct name fs, st).
Proof.
  intros H Hp fuel Hle.
  destruct (deepCopyValue_spec n st flagCopy (VStruct name fs) eq_refl H)
    as (c & ext & Hc & Ht & _ & _ & Hpl).
  destruct (Hpl Hp) as [-> ->]. rewrite app_nil_r in Hc.
  unfold Clone. cbn [iface ValueOf Kind vdata kindOf].
  rewrite bool_decide_eq_false_2 by discriminate.
  rewrite bool_decide_eq_true_2 by reflexivity.
  unfold flagCopy in Hc. rewrite (deepCopyValue_mono n fuel _ _ _ Hle Hc).
  cbn [bind fst snd]. unfold Interface, assertType.
  cbn [vflag vdata flagRO flagCopy flagStickyRO flagEmbedRO orb iface bind].
  change (type_eqb (typeOf (VStruct name fs)) TInterface) with false. cbv iota.
  rewrite type_eqb_refl. reflexivity.
Qed.

Lemma Clone_plain_witness :
  Clone 3 [] (PointerStruct "Test" 25 None None None)
  = Ok (PointerStruct "Test" 25 None None None, []).
Proof.
  apply (Clone_plain 3 [] "PointerStruct"
           [(named "Name", VString "Test"); (named "Age", VInt 25);
            (named "Address", VPtr (typeOf (BasicStruct "" 0 "")) None);
            (named "Tags", VSlice TString None);
            (named "Metadata", VMap TString TInterface None)]);
    [reflexivity|reflexivity|lia].
Defined.

Lemma copyFields_unexported (rec : store -> Value -> outcome (value * store))
    (fs : list (fieldinfo * value)) (st : store) (fl : flag) r :
  (exists fv, fv ∈ fs /\ IsExported (Name fv.1) = false) ->
  copyFields rec st fl fs <> Ok r.
Proof.
  revert st r. induction fs as [|gv fs IH]; intros st r (fv & Hin & He) H.
  - inversion Hin.
  - simpl in H. destruct (rec st _) as [x| |]; try discriminate. cbn [bind] in H.
    destruct (IsExported (Name gv.1)) eqn:Hg.
    + destruct (SetValue _ _); try discriminate. cbn [bind] in H.
      destruct (copyFields rec x.2 fl fs) as [rest| |] eqn:Hr; try discriminate.
      apply (IH x.2 rest); [|exact Hr].
      apply elem_of_cons in Hin as [->|Hin]; [congruence|eauto].
    + unfold SetValue, Field, fieldFlag, flagRO in H. cbn [vflag fst snd flagStickyRO
        flagEmbedRO flagNew] in H. rewrite Hg in H. cbn [negb andb orb] in H.
      destruct (Anonymous gv.1); discriminate.
Qed.

(** X30. [Clone] never returns on a record that has a field that is not
    exported, whether the record is passed by value or by reference: it
    panics (the copy of the field cannot be stored in the new record),
    or the recursion before the field does not end. *)
Theorem Clone_unexported (fuel : nat) (st : store) (obj : value) (fl : flag) n fs
    (fv : fieldinfo * value) :
  indirect st (ValueOf (iface obj)) = Some (mkValue fl (VStruct n fs)) ->
  fv ∈ fs -> IsExported (Name fv.1) = false ->
  Clone fuel st obj = Exhausted \/ exists q, Clone fuel st obj = Panic q.
Proof.
  intros Hi Hin He.
  destruct (Clone fuel st obj) as [r|q|] eqn:H; [exfalso|eauto|auto].
  unfold Clone in H. unfold indirect in Hi. rewrite Hi in H.
  rewrite bool_decide_eq_true_2 in H by reflexivity.
  destruct (deepCopyValue fuel st _) as [x| |] eqn:Hr; try discriminate.
  destruct fuel as [|fuel]; [discriminate|].
  simpl in Hr. unfold deepCopyBody in Hr. cbn [vdata vflag] in Hr.
  destruct (copyFields _ st fl fs) as [y| |] eqn:Hy; try discriminate.
  revert Hy. apply copyFields_unexported. eauto.
Qed.

Lemma Clone_unexported_witness :
  Clone 7 [CVar (account "ann" 10)] (addressOf (account "" 0) 0) = Exhausted \/
  exists q, Clone 7 [CVar (account "ann" 10)] (addressOf (account "" 0) 0) = Panic q.
Proof.
  apply (Clone_unexported 7 _ _ flagNew "account"
           [(named "owner", VString "ann"); (named "Balance", VInt 10)]
           (named "owner", VString "ann")).
  - reflexivity.
  - apply elem_of_cons. left. reflexivity.
  - reflexivity.
Defined.
